(** * The c-ares event driver (POSIX): a shallow embedding

    Source: src/core/ext/resolver/dns/c_ares/grpc_ares_ev_driver_posix.c

    The driver keeps a singly linked list of [fd_node]s, one per socket
    the c-ares channel currently wants to poll, manually reference
    counted.  The embedding models

    - the allocated [fd_node] objects as a finite map from node addresses
      to records (the heap), so that a node can outlive its membership in
      the driver's list, as it does in the C code;
    - the list [ev_driver->fds] as the list of node addresses met when
      following the [next] pointers from the head;
    - every call that leaves the file (locks, reference counts, reactor,
      pollset set, c-ares) as an event of a call trace;
    - crashes (a failed [GPR_ASSERT], a dereference of NULL or of a freed
      node) as a [Fault] result.

    The c-ares channel is opaque: the result of [ares_getsock] is an input
    of every operation that queries it.

    The functions of the file are embedded as sequential programs.  Two
    transition systems are built from them: in [step] every exported
    operation and every completion callback runs from its first to its
    last line without another thread in between; in [exec] each critical
    section of a callback and each loop iteration of a reconciliation pass
    is a step of its own, and the steps of different threads interleave.
    The runs of the first are runs of the second. *)

From stdpp Require Import gmap list strings.
From Stdlib Require Import ZArith.

Set Default Proof Using "Type".

(** ** Constants of <ares.h> *)

Definition ARES_SUCCESS : Z := 0.
Definition ARES_ENOMEM : Z := 15.
Definition ARES_SOCKET_BAD : Z := -1.
Definition ARES_GETSOCK_MAXNUM : nat := 16.

(** [#define ARES_GETSOCK_READABLE(bits,num) (bits & (1 << (num)))] *)
Definition ARES_GETSOCK_READABLE (bits : Z) (num : nat) : bool :=
  negb (Z.land bits (Z.shiftl 1 (Z.of_nat num)) =? 0)%Z.

(** [#define ARES_GETSOCK_WRITABLE(bits,num)
             (bits & (1 << ((num) + ARES_GETSOCK_MAXNUM)))] *)
Definition ARES_GETSOCK_WRITABLE (bits : Z) (num : nat) : bool :=
  negb (Z.land bits (Z.shiftl 1 (Z.of_nat (num + ARES_GETSOCK_MAXNUM))) =? 0)%Z.

(** What [ares_getsock(channel, socks, ARES_GETSOCK_MAXNUM)] leaves behind:
    the array [socks] and the returned bitmask.  Slots the engine did not
    fill are indeterminate in C; they read as 0 here, and the code never
    reads a slot whose two bits are clear. *)
Record getsock_result := Getsock {
  socks : list Z;
  socks_bitmask : Z
}.

Definition sock_at (g : getsock_result) (i : nat) : Z := nth i (socks g) 0%Z.

(** ** Data model *)

(** Address of an allocated [fd_node]. *)
Abbreviation ptr := nat (only parsing).

(** [struct fd_node].  [grpc_fd] stands for the wrapped reactor handle and
    holds what [grpc_fd_wrapped_fd] returns for it; the [next] pointer is
    the list structure of [fds] below; the two closures and the mutex have
    no state of their own in the model. *)
Record fd_node := FdNode {
  refs : Z;
  grpc_fd : Z;
  readable_registered : bool;
  writable_registered : bool
}.

(** The memory the file works on: the allocated nodes, and the two fields
    of [struct grpc_ares_ev_driver] guarded by its mutex. *)
Record state := State {
  nodes : gmap nat fd_node;
  fds : list ptr;
  working : bool
}.

Inductive grpc_error :=
| GRPC_ERROR_NONE
| GRPC_ERROR_CREATE (msg : string).

(** Calls that leave the file, in program order. *)
Inductive event :=
| EvMuLock                         (* gpr_mu_lock(&ev_driver->mu) *)
| EvMuUnlock                       (* gpr_mu_unlock(&ev_driver->mu) *)
| EvNodeLock (p : ptr)             (* gpr_mu_lock(&fdn->mu) *)
| EvNodeUnlock (p : ptr)           (* gpr_mu_unlock(&fdn->mu) *)
| EvRef (p : ptr)                  (* gpr_ref(&fdn->refs) *)
| EvUnref (p : ptr)                (* gpr_unref(&fdn->refs) *)
| EvGetsock                        (* ares_getsock *)
| EvFdCreate (p : ptr) (fd : Z) (slot : nat)   (* grpc_fd_create *)
| EvPollsetAdd (p : ptr)           (* grpc_pollset_set_add_fd *)
| EvPollsetDel (p : ptr)           (* grpc_pollset_set_del_fd *)
| EvNotifyRead (p : ptr)           (* grpc_fd_notify_on_read *)
| EvNotifyWrite (p : ptr)          (* grpc_fd_notify_on_write *)
| EvFdShutdown (p : ptr)           (* grpc_fd_shutdown *)
| EvFdOrphan (p : ptr)             (* grpc_fd_orphan *)
| EvFree (p : ptr)                 (* gpr_free(fdn) *)
| EvProcessFd (rd wr : Z)          (* ares_process_fd *)
| EvCancel                         (* ares_cancel *)
| EvSchedCleanup.                  (* grpc_exec_ctx_sched(cleanup closure) *)

Global Instance event_eq_dec : EqDecision event.
Proof. solve_decision. Defined.

(** ** The monad: state, call trace, faults *)

Inductive fault :=
| NullDeref        (* [->] applied to NULL *)
| DanglingDeref    (* [->] applied to a freed node *)
| AssertFailure.   (* GPR_ASSERT *)

Inductive result (A : Type) :=
| Ok (a : A)
| Fault (f : fault).
Arguments Ok {A} a.
Arguments Fault {A} f.

Definition M (A : Type) : Type := state → result (A * state * list event).

Global Instance M_ret : MRet M := λ A a s, Ok (a, s, []).

Global Instance M_bind : MBind M := λ A B f m s,
  match m s with
  | Fault e => Fault e
  | Ok (a, s1, t1) =>
      match f a s1 with
      | Fault e => Fault e
      | Ok (b, s2, t2) => Ok (b, s2, t1 ++ t2)
      end
  end.

Definition ret {A} (a : A) : M A := mret a.

Definition fail {A} (f : fault) : M A := λ _, Fault f.
Definition log (e : event) : M unit := λ s, Ok (tt, s, [e]).
Definition get_fds : M (list ptr) := λ s, Ok (fds s, s, []).
Definition set_fds (l : list ptr) : M unit := λ s,
  Ok (tt, State (nodes s) l (working s), []).
Definition get_working : M bool := λ s, Ok (working s, s, []).
Definition set_working (b : bool) : M unit := λ s,
  Ok (tt, State (nodes s) (fds s) b, []).

(** [*p] for a node pointer. *)
Definition load (p : ptr) : M fd_node := λ s,
  match nodes s !! p with
  | Some n => Ok (n, s, [])
  | None => Fault DanglingDeref
  end.

Definition store (p : ptr) (n : fd_node) : M unit := λ s,
  Ok (tt, State (<[p := n]> (nodes s)) (fds s) (working s), []).

(** [gpr_malloc(sizeof(fd_node))]: some address not in use. *)
Definition gpr_malloc : M ptr := λ s, Ok (fresh (dom (nodes s)), s, []).

Definition gpr_free (p : ptr) : M unit := λ s,
  Ok (tt, State (delete p (nodes s)) (fds s) (working s), [EvFree p]).

Definition GPR_ASSERT (b : bool) : M unit :=
  if b then ret tt else fail AssertFailure.

Definition when (b : bool) (m : M unit) : M unit := if b then m else ret tt.

Fixpoint for_each {A} (slots : list nat) (body : nat → A → M A) (a : A)
  : M A :=
  match slots with
  | [] => ret a
  | i :: slots' => a' ← body i a; for_each slots' body a'
  end.

(** ** The functions of the file *)

Definition set_refs (n : fd_node) (r : Z) : fd_node :=
  FdNode r (grpc_fd n) (readable_registered n) (writable_registered n).
Definition set_readable (n : fd_node) (b : bool) : fd_node :=
  FdNode (refs n) (grpc_fd n) b (writable_registered n).
Definition set_writable (n : fd_node) (b : bool) : fd_node :=
  FdNode (refs n) (grpc_fd n) (readable_registered n) b.

(** [fd_node_ref] *)
Definition fd_node_ref (fdn : ptr) : M ptr :=
  n ← load fdn;
  log (EvRef fdn);;
  store fdn (set_refs n (refs n + 1));;
  ret fdn.

(** [fd_node_unref].  [gpr_unref] decrements and answers whether the count
    dropped to zero. *)
Definition fd_node_unref (fdn : ptr) : M unit :=
  n ← load fdn;
  log (EvUnref fdn);;
  store fdn (set_refs n (refs n - 1));;
  when (refs n =? 1)%Z (
    n ← load fdn;
    GPR_ASSERT (negb (readable_registered n));;
    GPR_ASSERT (negb (writable_registered n));;
    log (EvPollsetDel fdn);;
    log (EvFdShutdown fdn);;
    log (EvFdOrphan fdn);;
    gpr_free fdn).

(** [grpc_fd_shutdown(exec_ctx, fdn->grpc_fd)] *)
Definition grpc_fd_shutdown (fdn : ptr) : M unit :=
  _ ← load fdn;
  log (EvFdShutdown fdn).

(** The loop of [grpc_ares_ev_driver_destroy]:
    [for (fdn = ev_driver->fds; fdn; fdn = fdn->next)
       { grpc_fd_shutdown(exec_ctx, fdn->grpc_fd); fdn = fdn->next; }]
    The body advances [fdn] and so does the loop header. *)
Fixpoint destroy_loop (l : list ptr) : M unit :=
  match l with
  | [] => ret tt
  | fdn :: next =>
      grpc_fd_shutdown fdn;;
      match next with
      | [] => fail NullDeref
      | _ :: next2 => destroy_loop next2
      end
  end.

(** [grpc_ares_ev_driver_destroy] *)
Definition grpc_ares_ev_driver_destroy : M unit :=
  log EvMuLock;;
  l ← get_fds;
  destroy_loop l;;
  log EvMuUnlock;;
  log EvSchedCleanup.

(** The walk of [pop_fd_node] over the list starting at [*head]: the node
    found, and the list with it unlinked. *)
Fixpoint pop_from (l : list ptr) (fd : Z) : M (option (ptr * list ptr)) :=
  match l with
  | [] => ret None
  | p :: rest =>
      n ← load p;
      if (grpc_fd n =? fd)%Z then ret (Some (p, rest))
      else
        r ← pop_from rest fd;
        ret (match r with
             | Some (q, rest') => Some (q, p :: rest')
             | None => None
             end)
  end.

(** [pop_fd_node(&ev_driver->fds, fd)] *)
Definition pop_fd_node (fd : Z) : M (option ptr) :=
  l ← get_fds;
  r ← pop_from l fd;
  match r with
  | Some (q, l') => set_fds l';; ret (Some q)
  | None => ret None
  end.

(** Lines 259-276: the node for [fd], popped from the old list or newly
    created for slot [i]. *)
Definition find_or_create (fd : Z) (i : nat) : M ptr :=
  found ← pop_fd_node fd;
  match found with
  | Some p => ret p
  | None =>
      p ← gpr_malloc;
      log (EvFdCreate p fd i);;
      store p (FdNode 1 fd false false);;
      log (EvPollsetAdd p);;
      ret p
  end.

(** Lines 279-300: the registrations taken under [fdn->mu]. *)
Definition register_locked (rd wr : bool) (fdn : ptr) : M unit :=
  log (EvNodeLock fdn);;
  n ← load fdn;
  when (rd && negb (readable_registered n)) (
    fd_node_ref fdn;;
    log (EvNotifyRead fdn);;
    n ← load fdn;
    store fdn (set_readable n true));;
  n ← load fdn;
  when (wr && negb (writable_registered n)) (
    fd_node_ref fdn;;
    log (EvNotifyWrite fdn);;
    n ← load fdn;
    store fdn (set_writable n true));;
  log (EvNodeUnlock fdn).

(** One iteration of the [for] loop of [grpc_ares_notify_on_event_locked],
    on slot [i], with the local [new_list]. *)
Definition notify_slot (g : getsock_result) (i : nat) (new_list : list ptr)
  : M (list ptr) :=
  let rd := ARES_GETSOCK_READABLE (socks_bitmask g) i in
  let wr := ARES_GETSOCK_WRITABLE (socks_bitmask g) i in
  if rd || wr then
    fdn ← find_or_create (sock_at g i) i;
    register_locked rd wr fdn;;
    ret (fdn :: new_list)
  else ret new_list.

(** The [while (ev_driver->fds != NULL)] loop. *)
Fixpoint shutdown_remaining (l : list ptr) : M unit :=
  match l with
  | [] => ret tt
  | cur :: rest =>
      set_fds rest;;
      grpc_fd_shutdown cur;;
      fd_node_unref cur;;
      shutdown_remaining rest
  end.

(** [grpc_ares_notify_on_event_locked] *)
Definition grpc_ares_notify_on_event_locked (g : getsock_result) : M unit :=
  log EvGetsock;;
  new_list ← for_each (seq 0 ARES_GETSOCK_MAXNUM) (notify_slot g) [];
  l ← get_fds;
  shutdown_remaining l;;
  set_fds new_list;;
  when (bool_decide (new_list = [])) (set_working false).

(** [on_readable_cb] *)
Definition on_readable_cb (fdn : ptr) (error : grpc_error)
    (g : getsock_result) : M unit :=
  log (EvNodeLock fdn);;
  n ← load fdn;
  store fdn (set_readable n false);;
  log (EvNodeUnlock fdn);;
  n ← load fdn;
  match error with
  | GRPC_ERROR_NONE => log (EvProcessFd (grpc_fd n) ARES_SOCKET_BAD)
  | _ => log EvCancel
  end;;
  fd_node_unref fdn;;
  log EvMuLock;;
  grpc_ares_notify_on_event_locked g;;
  log EvMuUnlock.

(** [on_writable_cb] *)
Definition on_writable_cb (fdn : ptr) (error : grpc_error)
    (g : getsock_result) : M unit :=
  log (EvNodeLock fdn);;
  n ← load fdn;
  store fdn (set_writable n false);;
  log (EvNodeUnlock fdn);;
  n ← load fdn;
  match error with
  | GRPC_ERROR_NONE => log (EvProcessFd ARES_SOCKET_BAD (grpc_fd n))
  | _ => log EvCancel
  end;;
  fd_node_unref fdn;;
  log EvMuLock;;
  grpc_ares_notify_on_event_locked g;;
  log EvMuUnlock.

(** [grpc_ares_ev_driver_start] *)
Definition grpc_ares_ev_driver_start (g : getsock_result) : M unit :=
  log EvMuLock;;
  w ← get_working;
  when (negb w) (
    set_working true;;
    grpc_ares_notify_on_event_locked g);;
  log EvMuUnlock.

(** The driver as [grpc_ares_ev_driver_create] initialises it:
    [fds = NULL], [working = false], no node allocated. *)
Definition initial_state : state := State ∅ [] false.

(** Modelled from the spec: [grpc_ares_init] and [grpc_ares_cleanup] of
    grpc_ares_wrapper.c, which is not among the sources.  The process-wide
    engine-library state is a reference count, "incremented on each
    driver's creation and decremented on destruction" (spec, section 9);
    [status] is the outcome of the library initialisation, and a failed
    initialisation takes no reference. *)
Definition grpc_ares_init (status : Z) (lib : Z) : grpc_error * Z :=
  if (status =? ARES_SUCCESS)%Z then (GRPC_ERROR_NONE, (lib + 1)%Z)
  else (GRPC_ERROR_CREATE "ares_library_init failed", lib).

Definition grpc_ares_cleanup (lib : Z) : Z := (lib - 1)%Z.

(** [grpc_ares_ev_driver_create].  [lib_status] and [status] are what the
    library initialisation and [ares_init] answer; [lib] is the
    process-wide count on entry.  The result is the returned error, the
    live driver object behind [*ev_driver] (none when it was never
    allocated, or freed again), and the process-wide count on return. *)
Definition grpc_ares_ev_driver_create (lib_status status : Z) (lib : Z)
  : grpc_error * option state * Z :=
  let '(err, lib1) := grpc_ares_init lib_status lib in
  match err with
  | GRPC_ERROR_CREATE _ => (err, None, lib1)
  | GRPC_ERROR_NONE =>
      (* *ev_driver = gpr_malloc(...); status = ares_init(...) *)
      if negb (status =? ARES_SUCCESS)%Z then
        (* gpr_free(err_msg); gpr_free( *ev_driver); return err; *)
        (GRPC_ERROR_CREATE "Failed to init ares channel", None, lib1)
      else (GRPC_ERROR_NONE, Some initial_state, lib1)
  end.

(** [grpc_ares_ev_driver_cleanup], the deferred teardown: the count it
    leaves behind, or the failed assertion. *)
Definition grpc_ares_ev_driver_cleanup (s : state) (lib : Z) : result Z :=
  match fds s with
  | [] => Ok (grpc_ares_cleanup lib)
  | _ :: _ => Fault AssertFailure
  end.

(** * Predicates and functions used in the statements *)

(** ** [pop_fd_node] *)

Definition fd_of (h : gmap nat fd_node) (p : ptr) : option Z :=
  grpc_fd <$> h !! p.

(** All the nodes of a list are allocated. *)
Definition live (h : gmap nat fd_node) (l : list ptr) : Prop :=
  ∀ p, p ∈ l → is_Some (h !! p).

(** What [pop_from] answers: the first node of the list wrapping [fd],
    unlinked, or nothing when no node of the list wraps [fd]. *)
Definition pop_spec (h : gmap nat fd_node) (l : list ptr) (fd : Z)
    (r : option (ptr * list ptr)) : Prop :=
  match r with
  | Some (q, l') =>
      ∃ l1 l2, l = l1 ++ q :: l2 ∧ l' = l1 ++ l2 ∧ fd_of h q = Some fd ∧
               ∀ p, p ∈ l1 → fd_of h p ≠ Some fd
  | None => ∀ p, p ∈ l → fd_of h p ≠ Some fd
  end.

(** ** The registrations of one slot *)

Definition b2z (b : bool) : Z := if b then 1%Z else 0%Z.

(** The node after [register_locked]. *)
Definition registered (rd wr : bool) (n : fd_node) : fd_node :=
  FdNode (refs n + b2z (rd && negb (readable_registered n))
                 + b2z (wr && negb (writable_registered n)))
         (grpc_fd n)
         (readable_registered n || rd)
         (writable_registered n || wr).

(** The calls of [register_locked]. *)
Definition register_trace (rd wr : bool) (n : fd_node) (p : ptr) : list event :=
  [EvNodeLock p]
  ++ (if rd && negb (readable_registered n) then [EvRef p; EvNotifyRead p] else [])
  ++ (if wr && negb (writable_registered n) then [EvRef p; EvNotifyWrite p] else [])
  ++ [EvNodeUnlock p].

(** ** One slot of the reconciliation loop *)

(** How the node [p] of a slot reporting [fd] was obtained from state [s]:
    found in the old list and unlinked, or newly allocated.  [n0] is the
    node before the registrations, [l'] the old list afterwards, [pre] the
    calls made. *)
Inductive slot_node (s : state) (fd : Z) (i : nat)
    (p : ptr) (n0 : fd_node) (l' : list ptr) (pre : list event) : Prop :=
| slot_found l1 l2 :
    nodes s !! p = Some n0 → grpc_fd n0 = fd →
    fds s = l1 ++ p :: l2 → l' = l1 ++ l2 →
    (∀ q, q ∈ l1 → fd_of (nodes s) q ≠ Some fd) →
    pre = [] →
    slot_node s fd i p n0 l' pre
| slot_created :
    nodes s !! p = None → n0 = FdNode 1 fd false false →
    l' = fds s →
    (∀ q, q ∈ fds s → fd_of (nodes s) q ≠ Some fd) →
    pre = [EvFdCreate p fd i; EvPollsetAdd p] →
    slot_node s fd i p n0 l' pre.

(** ** The reference-count discipline *)

(** A node's count is one per pending registration, plus one while the
    node is linked in a list; an allocated node has a positive count. *)
Definition node_ok (linked : bool) (n : fd_node) : Prop :=
  refs n = (b2z linked + b2z (readable_registered n)
                       + b2z (writable_registered n))%Z
  ∧ (0 < refs n)%Z.

(** [L] lists the linked nodes: each appears once and is allocated, and
    every allocated node has the count its situation asks for. *)
Definition heap_ok (L : list ptr) (h : gmap nat fd_node) : Prop :=
  NoDup L ∧
  (∀ p, p ∈ L → is_Some (h !! p)) ∧
  (∀ p n, h !! p = Some n → node_ok (bool_decide (p ∈ L)) n).

(** The invariant of the driver between two operations. *)
Definition inv (s : state) : Prop := heap_ok (fds s) (nodes s).

(** ** Dropping the list reference of the nodes left over *)

(** The heap after [fd_node_unref p]. *)
Definition release (h : gmap nat fd_node) (p : ptr) : gmap nat fd_node :=
  match h !! p with
  | Some n => if (refs n =? 1)%Z then delete p h
              else <[p := set_refs n (refs n - 1)]> h
  | None => h
  end.

(** The calls of [fd_node_unref p]. *)
Definition unref_trace (h : gmap nat fd_node) (p : ptr) : list event :=
  match h !! p with
  | Some n => if (refs n =? 1)%Z
              then [EvUnref p; EvPollsetDel p; EvFdShutdown p; EvFdOrphan p; EvFree p]
              else [EvUnref p]
  | None => []
  end.

(** The calls of the [while] loop on the nodes [l]. *)
Definition drain_trace (h : gmap nat fd_node) (l : list ptr) : list event :=
  l ≫= λ p, EvFdShutdown p :: unref_trace h p.

(** A node whose last reference is dropped has no registration pending:
    the two assertions of [fd_node_unref] hold. *)
Definition releasable (n : fd_node) : Prop :=
  refs n = 1%Z → readable_registered n = false ∧ writable_registered n = false.

(** ** The [for] loop over the slots *)

Definition readable (g : getsock_result) (i : nat) : bool :=
  ARES_GETSOCK_READABLE (socks_bitmask g) i.
Definition writable (g : getsock_result) (i : nat) : bool :=
  ARES_GETSOCK_WRITABLE (socks_bitmask g) i.

(** Slot [i] is of interest: the test of line 257. *)
Definition active (g : getsock_result) (i : nat) : bool :=
  readable g i || writable g i.

(** The slots of interest of a snapshot, in slot order. *)
Definition interest (g : getsock_result) : list nat :=
  filter (λ i, active g i = true) (seq 0 ARES_GETSOCK_MAXNUM).

(** Node [p] serves slot [i] after a pass begun in [s0]: it wraps the
    slot's descriptor, every direction the slot reports is registered on
    it, and a direction registered on it is reported by the slot or was
    registered on the node already in [s0]. *)
Definition serves (g : getsock_result) (s0 : state) (h : gmap nat fd_node)
    (p : ptr) (i : nat) : Prop :=
  ∃ n, h !! p = Some n ∧ grpc_fd n = sock_at g i ∧
       (readable g i = true → readable_registered n = true) ∧
       (writable g i = true → writable_registered n = true) ∧
       (readable_registered n = true →
          readable g i = true ∨
          ∃ n0, nodes s0 !! p = Some n0 ∧ readable_registered n0 = true) ∧
       (writable_registered n = true →
          writable g i = true ∨
          ∃ n0, nodes s0 !! p = Some n0 ∧ writable_registered n0 = true).

(** The calls the loop may make, judged against the state [s0] in which
    the pass began: nodes are created and added to the pollset set only at
    addresses free in [s0], and a direction is registered only on a node
    that did not have it registered. *)
Definition loop_event (s0 : state) (e : event) : Prop :=
  match e with
  | EvFdCreate p _ _ | EvPollsetAdd p => nodes s0 !! p = None
  | EvNotifyRead p =>
      ∀ n, nodes s0 !! p = Some n → readable_registered n = false
  | EvNotifyWrite p =>
      ∀ n, nodes s0 !! p = Some n → writable_registered n = false
  | EvNodeLock _ | EvNodeUnlock _ | EvRef _ => True
  | _ => False
  end.

(** At most one node of the list of [s0] wraps the descriptor [fd]. *)
Definition unique_fd (s0 : state) (fd : Z) : Prop :=
  ∀ q1 q2, q1 ∈ fds s0 → q2 ∈ fds s0 →
    fd_of (nodes s0) q1 = Some fd → fd_of (nodes s0) q2 = Some fd → q1 = q2.

(** The invariant of the loop: [s0] is the state before the pass, [done]
    the slots visited, [nl] the local [new_list], [s1] the current state
    and [t] the calls made so far. *)
Record loop_inv (g : getsock_result) (s0 : state) (done : list nat)
    (nl : list ptr) (s1 : state) (t : list event) : Prop := LoopInv {
  li_heap : heap_ok (nl ++ fds s1) (nodes s1);
  li_working : working s1 = working s0;
  li_slots : Forall2 (serves g s0 (nodes s1)) nl
               (reverse (filter (λ i, active g i = true) done));
  li_old : ∀ q, q ∈ fds s1 → q ∈ fds s0 ∧ nodes s1 !! q = nodes s0 !! q;
  li_popped : ∀ q, q ∈ fds s0 →
      q ∈ fds s1 ∨
      (q ∈ nl ∧ ∃ i, i ∈ done ∧ active g i = true ∧
                     fd_of (nodes s0) q = Some (sock_at g i));
  li_unlinked : ∀ q n, nodes s0 !! q = Some n → q ∉ fds s0 →
      nodes s1 !! q = Some n ∧ q ∉ nl;
  li_dom : ∀ q, is_Some (nodes s0 !! q) → is_Some (nodes s1 !! q);
  li_trace : Forall (loop_event s0) t;
  li_new : ∀ q, q ∈ nl → nodes s0 !! q = None →
      EvPollsetAdd q ∈ t ∧
      ∃ n i, nodes s1 !! q = Some n ∧ EvFdCreate q (grpc_fd n) i ∈ t;
  li_fd : ∀ q n0, nodes s0 !! q = Some n0 →
      ∃ n1, nodes s1 !! q = Some n1 ∧ grpc_fd n1 = grpc_fd n0;
  li_once : ∀ i, i ∈ done → active g i = true →
      unique_fd s0 (sock_at g i) →
      ∀ q, q ∈ fds s1 → fd_of (nodes s0) q ≠ Some (sock_at g i);
  li_second : ∀ d1 j d2, done = d1 ++ j :: d2 → active g j = true →
      (∃ i, i ∈ d1 ∧ active g i = true ∧ sock_at g i = sock_at g j) →
      unique_fd s0 (sock_at g j) →
      ∃ p1 p2, p1 ≠ p2 ∧ p1 ∈ nl ∧ p2 ∈ nl ∧
           fd_of (nodes s1) p1 = Some (sock_at g j) ∧
           fd_of (nodes s1) p2 = Some (sock_at g j) ∧
           nodes s0 !! p2 = None ∧
           EvFdCreate p2 (sock_at g j) j ∈ t ∧ EvPollsetAdd p2 ∈ t
}.

(** ** One reconciliation pass *)

(** The state and the calls of a pass begun in [s0], given what its [for]
    loop produced: the local list [nl], the state [s1], the calls [t1]. *)
Definition pass_state (s0 : state) (nl : list ptr) (s1 : state) : state :=
  State (foldl release (nodes s1) (fds s1)) nl
        (if bool_decide (nl = []) then false else working s0).

Definition pass_trace (nl : list ptr) (s1 : state) (t1 : list event)
  : list event :=
  EvGetsock :: t1 ++ drain_trace (nodes s1) (fds s1).

(** ** [grpc_ares_ev_driver_start] and the two callbacks *)

(** The state in which [start] runs the pass. *)
Definition started (s : state) : state := State (nodes s) (fds s) true.

(** The state once a callback has cleared its flag ([n'] is the node with
    the flag cleared) and dropped its reference, before it takes the
    driver lock. *)
Definition fired_state (s : state) (p : ptr) (n' : fd_node) : state :=
  State (release (<[p := n']> (nodes s)) p) (fds s) (working s).

(** The calls of a callback before it takes the driver lock; [e] is the
    call made to the engine. *)
Definition fire_trace (s : state) (p : ptr) (n' : fd_node) (e : event)
  : list event :=
  [EvNodeLock p; EvNodeUnlock p; e] ++ unref_trace (<[p := n']> (nodes s)) p.

Definition read_event (error : grpc_error) (n : fd_node) : event :=
  match error with
  | GRPC_ERROR_NONE => EvProcessFd (grpc_fd n) ARES_SOCKET_BAD
  | _ => EvCancel
  end.

Definition write_event (error : grpc_error) (n : fd_node) : event :=
  match error with
  | GRPC_ERROR_NONE => EvProcessFd ARES_SOCKET_BAD (grpc_fd n)
  | _ => EvCancel
  end.

(** A node with one flag cleared: the other fields are kept. *)
Definition clears (n n' : fd_node) : Prop :=
  refs n' = refs n ∧ grpc_fd n' = grpc_fd n ∧
  ((readable_registered n = true ∧ readable_registered n' = false ∧
    writable_registered n' = writable_registered n) ∨
   (writable_registered n = true ∧ writable_registered n' = false ∧
    readable_registered n' = readable_registered n)).

(** ** [grpc_ares_ev_driver_destroy] *)

(** The nodes the loop of [destroy] shuts down: the first, the third, ... *)
Fixpoint every_other (l : list ptr) : list ptr :=
  match l with
  | [] => []
  | p :: [] => [p]
  | p :: _ :: rest => p :: every_other rest
  end.

(** ** The driver as a transition system *)

(** One step: an exported operation, or the reactor running a callback
    whose registration is pending, each from its first to its last line
    with no step of another thread in between (the callbacks hold no
    mutex between clearing their flag and taking the driver's mutex: the
    runs in which other threads act in between are those of [exec],
    further down).  A registration is pending on a node
    exactly while the node's flag for the direction is set: the flag is
    set where [grpc_fd_notify_on_read] or [grpc_fd_notify_on_write] is
    called, and clearing it is the first thing the callback does.  The
    error handed to the callback and the engine's answer [g] to the
    [ares_getsock] of the step are arbitrary. *)
Inductive step (s : state) : list event → state → Prop :=
| step_start g s' t :
    grpc_ares_ev_driver_start g s = Ok (tt, s', t) → step s t s'
| step_readable p n error g s' t :
    nodes s !! p = Some n → readable_registered n = true →
    on_readable_cb p error g s = Ok (tt, s', t) → step s t s'
| step_writable p n error g s' t :
    nodes s !! p = Some n → writable_registered n = true →
    on_writable_cb p error g s = Ok (tt, s', t) → step s t s'
| step_destroy s' t :
    grpc_ares_ev_driver_destroy s = Ok (tt, s', t) → step s t s'.

Inductive reachable : state → Prop :=
| reach_init : reachable initial_state
| reach_step s t s' : reachable s → step s t s' → reachable s'.

(** ** What a pass leaves behind *)

(** The calls a pass never makes. *)
Definition pass_event (e : event) : Prop :=
  match e with
  | EvMuLock | EvMuUnlock | EvProcessFd _ _ | EvCancel | EvSchedCleanup
  | EvGetsock => False
  | _ => True
  end.

(** ** Checking the discipline on a concrete state *)

Definition node_ok_b (linked : bool) (n : fd_node) : bool :=
  (refs n =? b2z linked + b2z (readable_registered n)
                        + b2z (writable_registered n))%Z
  && (0 <? refs n)%Z.

Definition inv_check (s : state) : bool :=
  bool_decide (NoDup (fds s))
  && forallb (λ p, bool_decide (is_Some (nodes s !! p))) (fds s)
  && forallb (λ pn, node_ok_b (bool_decide (pn.1 ∈ fds s)) pn.2)
             (map_to_list (nodes s)).

(** ** Concrete runs *)

Definition heap_of (l : list (ptr * fd_node)) : gmap nat fd_node :=
  list_to_map l.

Definition shutdown_error : grpc_error := GRPC_ERROR_CREATE "FD shutdown".

(** The engine wants to read descriptors 5 (slot 0) and 6 (slot 1). *)
Definition snap_r5_r6 : getsock_result := Getsock [5; 6]%Z 3.

(** The driver after [start] on that snapshot: two nodes, each with its
    read registration pending. *)
Definition two_reads : state :=
  State (heap_of [(0, FdNode 2 5 true false); (1, FdNode 2 6 true false)])
        [1; 0] true.

(** The engine wants to read descriptor 5 only. *)
Definition snap_r5 : getsock_result := Getsock [5]%Z 1.

Definition one_read : state :=
  State (heap_of [(0, FdNode 2 5 true false)]) [0] true.

(** ** C3: the tracked set after a pass *)

(** The engine wants to write descriptor 5 (slot 0) and read 6 (slot 1). *)
Definition snap_w5_r6 : getsock_result := Getsock [5; 6]%Z 65538.



(** ** C5: a descriptor the engine no longer reports *)


(** The engine reports no descriptor. *)
Definition snap_none : getsock_result := Getsock [] 0.

(** ** C8: the [working] flag *)

(** The engine wants to read and write descriptor 7. *)
Definition snap_rw7 : getsock_result := Getsock [7]%Z 65537.

Definition both_7 : state :=
  State (heap_of [(0, FdNode 3 7 true true)]) [0] true.

(** Descriptor 7 was dropped from the list with its read registration
    still pending. *)
Definition read_left_7 : state :=
  State (heap_of [(0, FdNode 1 7 true false)]) [] false.

(** The engine wants to read descriptor 8. *)
Definition snap_r8 : getsock_result := Getsock [8]%Z 1.

Definition idle_tracking_8 : state :=
  State (heap_of [(0, FdNode 2 8 true false)]) [0] false.

(** A working driver tracks at least one descriptor. *)
Definition working_tracks (s : state) : Prop :=
  working s = true → fds s ≠ [].

(** ** C9: the pollset set and the driver's mutex *)

(** Every call that changes the membership of the pollset set is made
    with the driver's mutex held; [held] tells whether it is held when the
    trace begins. *)
Fixpoint pollset_locked (held : bool) (t : list event) : bool :=
  match t with
  | [] => true
  | EvMuLock :: t' => pollset_locked true t'
  | EvMuUnlock :: t' => pollset_locked false t'
  | EvPollsetAdd _ :: t' | EvPollsetDel _ :: t' => held && pollset_locked held t'
  | _ :: t' => pollset_locked held t'
  end.

(** ** C10: one descriptor reported in two slots *)

(** The engine reports descriptor 5, readable, in slots 0 and 1. *)
Definition snap_r5_r5 : getsock_result := Getsock [5; 5]%Z 3.

Definition two_on_5 : state :=
  State (heap_of [(0, FdNode 2 5 true false); (1, FdNode 2 5 true false)])
        [1; 0] true.

Definition two_on_5_again : state :=
  State (heap_of [(0, FdNode 2 5 true false); (1, FdNode 2 5 true false)])
        [0; 1] true.

(** The calls that create a node or add one to the pollset set. *)
Definition creates (e : event) : bool :=
  match e with
  | EvFdCreate _ _ _ | EvPollsetAdd _ => true
  | _ => false
  end.

(** * Further properties of the file *)

(** ** Vocabulary *)

(** Node [p] wraps the descriptor [fd]. *)
Definition wraps (h : gmap nat fd_node) (fd : Z) (p : ptr) : Prop :=
  fd_of h p = Some fd.

Global Instance wraps_dec h fd p : Decision (wraps h fd p).
Proof. unfold wraps. apply _. Defined.

(** The node a call is about. *)
Definition event_node (e : event) : option ptr :=
  match e with
  | EvNodeLock p | EvNodeUnlock p | EvRef p | EvUnref p
  | EvFdCreate p _ _ | EvPollsetAdd p | EvPollsetDel p
  | EvNotifyRead p | EvNotifyWrite p
  | EvFdShutdown p | EvFdOrphan p | EvFree p => Some p
  | _ => None
  end.

(** The members of the pollset set after the calls [t], starting from the
    members [P]; nothing when [t] adds a handle that is a member or
    removes one that is not. *)
Fixpoint pollset_after (P : gset nat) (t : list event) : option (gset nat) :=
  match t with
  | [] => Some P
  | EvPollsetAdd p :: t' =>
      if decide (p ∈ P) then None else pollset_after ({[p]} ∪ P) t'
  | EvPollsetDel p :: t' =>
      if decide (p ∈ P) then pollset_after (P ∖ {[p]}) t' else None
  | _ :: t' => pollset_after P t'
  end.

(** The mutexes held after the calls [t]: [d] tells whether the driver's
    mutex is held and [nh] which node's mutex is.  Nothing when [t]
    - takes a mutex that is held, or gives back one that is not;
    - takes the driver's mutex, or a second node's, while a node's mutex
      is held;
    - registers a callback on a node without holding both the driver's
      mutex and that node's. *)
Fixpoint locks_after (d : bool) (nh : option ptr) (t : list event)
  : option (bool * option ptr) :=
  match t with
  | [] => Some (d, nh)
  | EvMuLock :: t' =>
      if d || bool_decide (is_Some nh) then None else locks_after true nh t'
  | EvMuUnlock :: t' => if d then locks_after false nh t' else None
  | EvNodeLock p :: t' =>
      match nh with None => locks_after d (Some p) t' | Some _ => None end
  | EvNodeUnlock p :: t' =>
      if bool_decide (nh = Some p) then locks_after d None t' else None
  | EvNotifyRead p :: t' | EvNotifyWrite p :: t' =>
      if d && bool_decide (nh = Some p) then locks_after d nh t' else None
  | _ :: t' => locks_after d nh t'
  end.

(** What the [for] loop keeps besides [loop_inv]: its calls are about
    nodes of the new list, they keep the pollset set equal to the set of
    allocated nodes, and they leave and find the driver's mutex held and
    no node's. *)
Record loop_calls (s0 : state) (nl : list ptr) (s1 : state)
    (t : list event) : Prop := LoopCalls {
  lc_nodes : Forall (λ e, ∀ q, event_node e = Some q → q ∈ nl) t;
  lc_pollset : pollset_after (dom (nodes s0)) t = Some (dom (nodes s1));
  lc_locks : locks_after true None t = Some (true, None)
}.

(** [s'] and [tp] are the state and the calls of a pass begun in [s0] on
    the snapshot [g]. *)
Definition pass_result (g : getsock_result) (s0 s' : state)
    (tp : list event) : Prop :=
  ∃ nl s1 t1,
    loop_inv g s0 (seq 0 ARES_GETSOCK_MAXNUM) nl s1 t1 ∧
    loop_calls s0 nl s1 t1 ∧
    s' = pass_state s0 nl s1 ∧ tp = pass_trace nl s1 t1.

(** The call a callback makes to the engine. *)
Definition engine_call (e : event) : Prop :=
  e = EvCancel ∨ ∃ a b, e = EvProcessFd a b.

(** The four shapes of a step. *)
Inductive step_shape (s : state) (t : list event) (s' : state) : Prop :=
| shape_idle :
    working s = true → s' = s → t = [EvMuLock; EvMuUnlock] →
    step_shape s t s'
| shape_destroy :
    s' = s →
    t = [EvMuLock] ++ (EvFdShutdown <$> every_other (fds s))
        ++ [EvMuUnlock; EvSchedCleanup] →
    step_shape s t s'
| shape_start g tp :
    working s = false → pass_result g (started s) s' tp →
    t = EvMuLock :: tp ++ [EvMuUnlock] →
    step_shape s t s'
| shape_fire p n n' e g tp :
    nodes s !! p = Some n → clears n n' → engine_call e →
    pass_result g (fired_state s p n') s' tp →
    t = fire_trace s p n' e ++ EvMuLock :: tp ++ [EvMuUnlock] →
    step_shape s t s'.

(** Calls that touch neither the pollset set nor a mutex nor a
    registration. *)
Definition quiet (e : event) : Prop :=
  match e with
  | EvPollsetAdd _ | EvPollsetDel _ | EvMuLock | EvMuUnlock
  | EvNodeLock _ | EvNodeUnlock _ | EvNotifyRead _ | EvNotifyWrite _ => False
  | _ => True
  end.

(** The calls made since [grpc_ares_ev_driver_create], and the state they
    led to. *)
Inductive run : list event → state → Prop :=
| run_init : run [] initial_state
| run_step t s t' s' : run t s → step s t' s' → run (t ++ t') s'.

(** A callback whose registration is pending runs while the engine
    reports no descriptor of interest. *)
Definition drain_step (s s' : state) : Prop :=
  ∃ p n error t,
    nodes s !! p = Some n ∧
    ((readable_registered n = true ∧
      on_readable_cb p error (Getsock [] 0) s = Ok (tt, s', t)) ∨
     (writable_registered n = true ∧
      on_writable_cb p error (Getsock [] 0) s = Ok (tt, s', t))).

(** Node [p] is settled on slot [i]: it wraps the slot's descriptor and
    the directions the slot reports are registered on it. *)
Definition settled_on (g : getsock_result) (h : gmap nat fd_node)
    (p : ptr) (i : nat) : Prop :=
  ∃ n, h !! p = Some n ∧ grpc_fd n = sock_at g i ∧
       (readable g i = true → readable_registered n = true) ∧
       (writable g i = true → writable_registered n = true).

(** The list is settled on the snapshot: its nodes are settled on the
    slots of interest, last slot first. *)
Definition settled (g : getsock_result) (s : state) : Prop :=
  Forall2 (settled_on g (nodes s)) (fds s) (reverse (interest g)).

(** Taking and giving back the mutex of each node of [l] in turn. *)
Definition node_locks (l : list ptr) : list event :=
  l ≫= λ p, [EvNodeLock p; EvNodeUnlock p].

(** The invariant of the [for] loop on a settled list. *)
Definition settled_loop (g : getsock_result) (s0 : state) (done : list nat)
    (nl : list ptr) (s1 : state) (t : list event) : Prop :=
  fds s0 = fds s1 ++ nl ∧ nodes s1 = nodes s0 ∧ working s1 = working s0 ∧
  length nl = length (filter (λ i, active g i = true) done) ∧
  t = node_locks (reverse nl).

(** The engine wants to read descriptors 5, 6, 7 and 8 (slots 0 to 3). *)
Definition snap_r5_r6_r7_r8 : getsock_result := Getsock [5; 6; 7; 8]%Z 15.

(** The driver after [start] on that snapshot. *)
Definition four_reads : state :=
  State (heap_of [(0, FdNode 2 5 true false); (1, FdNode 2 6 true false);
                  (2, FdNode 2 7 true false); (3, FdNode 2 8 true false)])
        [3; 2; 1; 0] true.

(** * The driver under concurrent callbacks *)

(** ** Accesses to the guarded fields *)

(** The reactor runs a callback on whatever thread it likes, and the
    callbacks hold no mutex between clearing their flag and taking the
    driver's mutex.  What follows models the file at the grain of its
    critical sections: the write of a callback to its flag and the
    accesses of [start] to [working] are made visible among the calls,
    and every section of a callback is a step of its own that the
    sections of other threads can precede and follow.  The reconciliation
    pass and [fd_node_unref] are the functions embedded above. *)

Inductive direction := Readable | Writable.

Global Instance direction_eq_dec : EqDecision direction.
Proof. solve_decision. Defined.

(** The fields behind [gpr_mu mu] in the two structs: [working] of the
    driver and the two flags of a node. *)
Inductive field :=
| FWorking                                  (* ev_driver->working *)
| FRegistered (d : direction) (p : ptr).    (* fdn->readable_registered,
                                               fdn->writable_registered *)

(** Calls and accesses, in program order. *)
Inductive aevent :=
| Call (e : event)
| FieldRead (f : field)
| FieldWrite (f : field) (b : bool).

Definition MA (A : Type) : Type := state → result (A * state * list aevent).

Global Instance MA_ret : MRet MA := λ A a s, Ok (a, s, []).

Global Instance MA_bind : MBind MA := λ A B f m s,
  match m s with
  | Fault e => Fault e
  | Ok (a, s1, t1) =>
      match f a s1 with
      | Fault e => Fault e
      | Ok (b, s2, t2) => Ok (b, s2, t1 ++ t2)
      end
  end.

(** A part of the file run as it is modelled above: its calls go into
    the trace, in their order. *)
Definition call {A} (m : M A) : MA A := λ s,
  match m s with
  | Ok (a, s', t) => Ok (a, s', Call <$> t)
  | Fault f => Fault f
  end.

(** The calls of a trace. *)
Definition calls (t : list aevent) : list event :=
  omap (λ a, match a with Call e => Some e | _ => None end) t.

(** A program with its accesses forgotten. *)
Definition erase {A} (m : MA A) : M A := λ s,
  match m s with
  | Ok (a, s', t) => Ok (a, s', calls t)
  | Fault f => Fault f
  end.

Definition read_working : MA bool := λ s,
  Ok (working s, s, [FieldRead FWorking]).

Definition write_working (b : bool) : MA unit := λ s,
  Ok (tt, State (nodes s) (fds s) b, [FieldWrite FWorking b]).

Definition flag (d : direction) (n : fd_node) : bool :=
  match d with
  | Readable => readable_registered n
  | Writable => writable_registered n
  end.

Definition set_flag (d : direction) (n : fd_node) (b : bool) : fd_node :=
  match d with
  | Readable => set_readable n b
  | Writable => set_writable n b
  end.

(** [fdn->readable_registered = b], [fdn->writable_registered = b] *)
Definition write_flag (d : direction) (fdn : ptr) (b : bool) : MA unit := λ s,
  match nodes s !! fdn with
  | Some n =>
      Ok (tt, State (<[fdn := set_flag d n b]> (nodes s)) (fds s) (working s),
          [FieldWrite (FRegistered d fdn) b])
  | None => Fault DanglingDeref
  end.

(** ** The sections of the callbacks and of [start] *)

(** Lines 194-196 of [on_readable_cb], 221-223 of [on_writable_cb]. *)
Definition clear_flag (d : direction) (fdn : ptr) : MA unit :=
  call (log (EvNodeLock fdn));;
  write_flag d fdn false;;
  call (log (EvNodeUnlock fdn)).

(** Lines 198-210 and 225-237: the event is handed to the engine. *)
Definition forward (d : direction) (fdn : ptr) (error : grpc_error) : M unit :=
  n ← load fdn;
  match error with
  | GRPC_ERROR_NONE =>
      log (match d with
           | Readable => EvProcessFd (grpc_fd n) ARES_SOCKET_BAD
           | Writable => EvProcessFd ARES_SOCKET_BAD (grpc_fd n)
           end)
  | _ => log EvCancel
  end.

(** Lines 212-214 and 239-241. *)
Definition reconcile (g : getsock_result) : M unit :=
  log EvMuLock;;
  grpc_ares_notify_on_event_locked g;;
  log EvMuUnlock.

(** [on_readable_cb], section by section. *)
Definition on_readable_cb_acc (fdn : ptr) (error : grpc_error)
    (g : getsock_result) : MA unit :=
  clear_flag Readable fdn;;
  call (forward Readable fdn error);;
  call (fd_node_unref fdn);;
  call (reconcile g).

(** [on_writable_cb], section by section. *)
Definition on_writable_cb_acc (fdn : ptr) (error : grpc_error)
    (g : getsock_result) : MA unit :=
  clear_flag Writable fdn;;
  call (forward Writable fdn error);;
  call (fd_node_unref fdn);;
  call (reconcile g).

(** [grpc_ares_ev_driver_start] with its accesses to [working]. *)
Definition grpc_ares_ev_driver_start_acc (g : getsock_result) : MA unit :=
  call (log EvMuLock);;
  w ← read_working;
  (if negb w then
     write_working true;;
     call (grpc_ares_notify_on_event_locked g)
   else mret tt);;
  call (log EvMuUnlock).

(** ** Threads and configurations *)

(** Where a running callback stands: its flag cleared (after line 196 or
    223), the event handed to the engine (after line 210 or 237), its
    reference dropped (after line 211 or 238), where it waits for the
    driver's mutex. *)
Inductive cb_pc := Cleared | Forwarded | Unreffed.

Global Instance cb_pc_eq_dec : EqDecision cb_pc.
Proof. solve_decision. Defined.

Record callback := Callback {
  cb_node : ptr;
  cb_dir : direction;
  cb_error : grpc_error;
  cb_at : cb_pc
}.

(** The thread inside [grpc_ares_notify_on_event_locked], which holds the
    driver's mutex: the answer of its [ares_getsock], the slots its [for]
    loop has yet to visit, and its local [new_list]. *)
Record pass_thread := InPass {
  pt_snapshot : getsock_result;
  pt_todo : list nat;
  pt_new_list : list ptr
}.

(** The memory, the holder of the driver's mutex if any, and the
    callbacks that have begun and not yet taken the driver's mutex. *)
Record config := Config {
  shared : state;
  holder : option pass_thread;
  callbacks : list callback
}.

Definition initial_config : config := Config initial_state None [].

(** What a thread does next.  [k] is the position of a callback in
    [callbacks]. *)
Inductive action :=
| AStart (g : getsock_result)       (* start: lines 322-324, 254-255, or 322-327 *)
| ADestroy                          (* destroy: lines 158-169 *)
| AFire (p : ptr) (d : direction) (error : grpc_error)
                                    (* a callback begins: lines 194-196, 221-223 *)
| AForward (k : nat)                (* lines 198-210, 225-237 *)
| AUnref (k : nat)                  (* lines 211, 238 *)
| AEnter (k : nat) (g : getsock_result)
                                    (* lines 212 and 254-255, 239 and 254-255 *)
| ASlot                             (* one iteration of the for loop, lines 256-302 *)
| ADrain                            (* one iteration of the while loop, lines 306-311 *)
| AFinish.                          (* lines 312-317, then 214, 241 or 327 *)

(** Lines 322-324 of [start], and the [ares_getsock] that opens the pass;
    on a working driver, lines 322-327.  The answer is [working] as found. *)
Definition start_enter : MA bool :=
  call (log EvMuLock);;
  w ← read_working;
  (if negb w then write_working true;; call (log EvGetsock)
   else call (log EvMuUnlock));;
  mret w.

(** Line 212 or 239, and the [ares_getsock] that opens the pass. *)
Definition callback_enter : M unit :=
  log EvMuLock;;
  log EvGetsock.

(** One iteration of the [while] loop, lines 306-311. *)
Definition drain_one (cur : ptr) (rest : list ptr) : M unit :=
  set_fds rest;;
  grpc_fd_shutdown cur;;
  fd_node_unref cur.

(** Lines 312-317, and the [gpr_mu_unlock] of the caller. *)
Definition pass_finish (new_list : list ptr) : MA unit :=
  call (set_fds new_list);;
  (if bool_decide (new_list = []) then write_working false else mret tt);;
  call (log EvMuUnlock).

(** The configuration after a section has run, or its fault. *)
Definition after {A} (r : result (A * state * list aevent))
    (k : A → state → config) : option (result (config * list aevent)) :=
  Some (match r with
        | Ok (a, s, t) => Ok (k a s, t)
        | Fault f => Fault f
        end).

(** One step of one thread.  Nothing when the action is not enabled: the
    driver's mutex is taken only when free, a callback begins only on an
    allocated node whose flag for the direction is set (the registration
    is pending), and every thread follows its program order.  A section
    under a node's mutex is one step: two sections on the same node
    exclude each other, and sections on different nodes commute.  An
    iteration of a loop of the pass is one step as well: outside its
    section under the node's mutex it touches the list and [working],
    which only the holder of the driver's mutex touches, the field
    [grpc_fd], which never changes, and the count, through [gpr_ref] and
    [gpr_unref], which are atomic. *)
Definition exec (a : action) (c : config)
  : option (result (config * list aevent)) :=
  let s := shared c in
  match a with
  | AStart g =>
      match holder c with
      | Some _ => None
      | None =>
          after (start_enter s) (λ w s',
            Config s'
                   (if w then None
                    else Some (InPass g (seq 0 ARES_GETSOCK_MAXNUM) []))
                   (callbacks c))
      end
  | ADestroy =>
      match holder c with
      | Some _ => None
      | None =>
          after (call grpc_ares_ev_driver_destroy s) (λ _ s',
            Config s' None (callbacks c))
      end
  | AFire p d error =>
      match nodes s !! p with
      | Some n =>
          if flag d n then
            after (clear_flag d p s) (λ _ s',
              Config s' (holder c)
                     (callbacks c ++ [Callback p d error Cleared]))
          else None
      | None => None
      end
  | AForward k =>
      match callbacks c !! k with
      | Some (Callback p d error Cleared) =>
          after (call (forward d p error) s) (λ _ s',
            Config s' (holder c)
                   (<[k := Callback p d error Forwarded]> (callbacks c)))
      | _ => None
      end
  | AUnref k =>
      match callbacks c !! k with
      | Some (Callback p d error Forwarded) =>
          after (call (fd_node_unref p) s) (λ _ s',
            Config s' (holder c)
                   (<[k := Callback p d error Unreffed]> (callbacks c)))
      | _ => None
      end
  | AEnter k g =>
      match holder c, callbacks c !! k with
      | None, Some (Callback _ _ _ Unreffed) =>
          after (call callback_enter s) (λ _ s',
            Config s' (Some (InPass g (seq 0 ARES_GETSOCK_MAXNUM) []))
                   (delete k (callbacks c)))
      | _, _ => None
      end
  | ASlot =>
      match holder c with
      | Some (InPass g (i :: todo) nl) =>
          after (call (notify_slot g i nl) s) (λ nl' s',
            Config s' (Some (InPass g todo nl')) (callbacks c))
      | _ => None
      end
  | ADrain =>
      match holder c, fds s with
      | Some (InPass g [] nl), cur :: rest =>
          after (call (drain_one cur rest) s) (λ _ s',
            Config s' (holder c) (callbacks c))
      | _, _ => None
      end
  | AFinish =>
      match holder c, fds s with
      | Some (InPass g [] nl), [] =>
          after (pass_finish nl s) (λ _ s', Config s' None (callbacks c))
      | _, _ => None
      end
  end.

(** The configurations the driver reaches from its creation. *)
Inductive creachable : config → Prop :=
| creach_init : creachable initial_config
| creach_step c a c' t :
    creachable c → exec a c = Some (Ok (c', t)) → creachable c'.

(** The configuration a list of actions leads to, when each is enabled
    and none faults. *)
Fixpoint exec_all (l : list action) (c : config) : option config :=
  match l with
  | [] => Some c
  | a :: l' =>
      match exec a c with
      | Some (Ok (c', _)) => exec_all l' c'
      | _ => None
      end
  end.

(** ** The reference counts under concurrent callbacks *)

(** Callback [cb] holds a reference on node [p]: it runs on [p] and has
    not reached its [fd_node_unref]. *)
Definition holds (p : ptr) (cb : callback) : Prop :=
  cb_node cb = p ∧ cb_at cb ≠ Unreffed.

Global Instance holds_dec p cb : Decision (holds p cb).
Proof. unfold holds. apply _. Defined.

(** The number of callbacks that hold a reference on [p]. *)
Definition holding (cbs : list callback) (p : ptr) : nat :=
  length (filter (holds p) cbs).

(** A node's count is one per pending registration, one per callback that
    holds a reference on it, and one while the node is linked in a list;
    an allocated node has a positive count. *)
Definition node_held (k : nat) (linked : bool) (n : fd_node) : Prop :=
  refs n = (b2z linked + b2z (readable_registered n)
                       + b2z (writable_registered n) + Z.of_nat k)%Z
  ∧ (0 < refs n)%Z.

(** [L] lists the linked nodes and [K] counts the references callbacks
    hold: each node of [L] appears once and is allocated, every allocated
    node has the count its situation asks for, and callbacks hold
    references on allocated nodes only. *)
Definition heap_held (K : ptr → nat) (L : list ptr) (h : gmap nat fd_node)
  : Prop :=
  NoDup L ∧
  (∀ p, p ∈ L → is_Some (h !! p)) ∧
  (∀ p n, h !! p = Some n → node_held (K p) (bool_decide (p ∈ L)) n) ∧
  (∀ p, h !! p = None → K p = 0).

(** The nodes linked in a list: the driver's, and the local [new_list] of
    the pass that is under way. *)
Definition tracked (c : config) : list ptr :=
  match holder c with
  | Some th => pt_new_list th
  | None => []
  end ++ fds (shared c).

(** The reference-count discipline of a configuration. *)
Definition counts_ok (c : config) : Prop :=
  heap_held (holding (callbacks c)) (tracked c) (nodes (shared c)).

(** The pass under way has one node in [new_list] per slot of interest it
    has visited, last slot first, each wrapping its slot's descriptor. *)
Definition pass_ok (c : config) : Prop :=
  ∀ th, holder c = Some th →
    ∃ done,
      done ++ pt_todo th = seq 0 ARES_GETSOCK_MAXNUM ∧
      Forall2 (λ p i, fd_of (nodes (shared c)) p
                        = Some (sock_at (pt_snapshot th) i))
              (pt_new_list th)
              (reverse (filter (λ i, active (pt_snapshot th) i = true) done)).


(** What an enabled action that does not fault does to a configuration
    that satisfies the discipline. *)
Inductive effect (c : config) : action → config → Prop :=
| eff_start_idle g :
    holder c = None → working (shared c) = true →
    effect c (AStart g) c
| eff_start g :
    holder c = None → working (shared c) = false →
    effect c (AStart g)
      (Config (started (shared c))
              (Some (InPass g (seq 0 ARES_GETSOCK_MAXNUM) [])) (callbacks c))
| eff_destroy :
    holder c = None → Nat.even (length (fds (shared c))) = true →
    effect c ADestroy c
| eff_fire p d error n :
    nodes (shared c) !! p = Some n → flag d n = true →
    effect c (AFire p d error)
      (Config (State (<[p := set_flag d n false]> (nodes (shared c)))
                     (fds (shared c)) (working (shared c)))
              (holder c) (callbacks c ++ [Callback p d error Cleared]))
| eff_forward k p d error :
    callbacks c !! k = Some (Callback p d error Cleared) →
    effect c (AForward k)
      (Config (shared c) (holder c)
              (<[k := Callback p d error Forwarded]> (callbacks c)))
| eff_unref k p d error n :
    callbacks c !! k = Some (Callback p d error Forwarded) →
    nodes (shared c) !! p = Some n → releasable n →
    effect c (AUnref k)
      (Config (State (release (nodes (shared c)) p)
                     (fds (shared c)) (working (shared c)))
              (holder c) (<[k := Callback p d error Unreffed]> (callbacks c)))
| eff_enter k g p d error :
    holder c = None → callbacks c !! k = Some (Callback p d error Unreffed) →
    effect c (AEnter k g)
      (Config (shared c) (Some (InPass g (seq 0 ARES_GETSOCK_MAXNUM) []))
              (delete k (callbacks c)))
| eff_slot_idle g i todo nl :
    holder c = Some (InPass g (i :: todo) nl) → active g i = false →
    effect c ASlot (Config (shared c) (Some (InPass g todo nl)) (callbacks c))
| eff_slot g i todo nl p n0 l' pre :
    holder c = Some (InPass g (i :: todo) nl) → active g i = true →
    slot_node (shared c) (sock_at g i) i p n0 l' pre →
    effect c ASlot
      (Config (State (<[p := registered (readable g i) (writable g i) n0]>
                        (nodes (shared c)))
                     l' (working (shared c)))
              (Some (InPass g todo (p :: nl))) (callbacks c))
| eff_drain g nl cur rest n :
    holder c = Some (InPass g [] nl) → fds (shared c) = cur :: rest →
    nodes (shared c) !! cur = Some n → releasable n →
    effect c ADrain
      (Config (State (release (nodes (shared c)) cur) rest (working (shared c)))
              (holder c) (callbacks c))
| eff_finish g nl :
    holder c = Some (InPass g [] nl) → fds (shared c) = [] →
    effect c AFinish
      (Config (State (nodes (shared c)) nl
                     (if bool_decide (nl = []) then false
                      else working (shared c)))
              None (callbacks c)).

(** ** Concrete runs of the concurrent driver *)

(** The [for] loop from its first to its last slot. *)
Definition full_loop : list action := replicate ARES_GETSOCK_MAXNUM ASlot.






(** [start] tracks descriptor 5 for reading; the read callback begins,
    hands its event to the engine and drops its reference. *)
Definition to_waiting : list action :=
  [AStart snap_r5] ++ full_loop ++
  [AFinish; AFire 0 Readable GRPC_ERROR_NONE; AForward 0; AUnref 0].

(** Where that run ends: the callback waits for the driver's mutex, and
    the node of 5 is in the list with no registration pending. *)
Definition waiting_for_mutex : config :=
  Config (State (heap_of [(0, FdNode 1 5 false false)]) [0] true)
         None
         [Callback 0 Readable GRPC_ERROR_NONE Unreffed].

(** ** Nodes that are waited for *)

(** Node [p], with contents [n], is not forgotten: a registration is
    pending on it, so the reactor will run a callback on it; or a callback
    that runs on it has not yet called [fd_node_unref]; or it is in the
    driver's list and a pass under way has yet to visit or drop it; or it
    is in a list and a callback waits for the driver's mutex to run a
    pass. *)
Definition awaited (c : config) (p : ptr) (n : fd_node) : Prop :=
  readable_registered n = true ∨ writable_registered n = true ∨
  0 < holding (callbacks c) p ∨
  (p ∈ fds (shared c) ∧ is_Some (holder c)) ∨
  (p ∈ tracked c ∧ ∃ cb, cb ∈ callbacks c ∧ cb_at cb = Unreffed).

(** The nodes with neither a pending registration nor a callback holding
    a reference are looked after by a pass. *)
Definition idle_nodes_seen (c : config) : Prop :=
  ∀ p n, nodes (shared c) !! p = Some n →
    readable_registered n = false → writable_registered n = false →
    holding (callbacks c) p = 0 →
    (p ∈ fds (shared c) ∧ is_Some (holder c)) ∨
    (∃ cb, cb ∈ callbacks c ∧ cb_at cb = Unreffed).

(** * Lemmas and theorems *)

(** ** Running the monad *)

Lemma bind_run {A B} (m : M A) (f : A → M B) s a s1 t1 :
  m s = Ok (a, s1, t1) →
  (m ≫= f) s = match f a s1 with
               | Fault e => Fault e
               | Ok (b, s2, t2) => Ok (b, s2, t1 ++ t2)
               end.
Proof. intros H. unfold mbind, M_bind. by rewrite H. Qed.

Lemma load_run s p n : nodes s !! p = Some n → load p s = Ok (n, s, []).
Proof. intros H. unfold load. by rewrite H. Qed.

Lemma state_eta s : State (nodes s) (fds s) (working s) = s.
Proof. by destruct s. Qed.

(** Unfold the monad on a program whose loads are settled by rewriting. *)
Ltac run_with H :=
  unfold mbind, M_bind, load, store, log, ret, mret, M_ret, when, GPR_ASSERT,
    fail, gpr_free, get_fds, set_fds, get_working, set_working; simpl;
  repeat (first [rewrite H | rewrite lookup_insert_eq]; simpl).

Lemma fd_node_ref_run s p n :
  nodes s !! p = Some n →
  fd_node_ref p s =
    Ok (p, State (<[p := set_refs n (refs n + 1)]> (nodes s)) (fds s) (working s),
        [EvRef p]).
Proof. intros H. unfold fd_node_ref. run_with H. done. Qed.

Lemma fd_node_unref_keep s p n :
  nodes s !! p = Some n → refs n ≠ 1%Z →
  fd_node_unref p s =
    Ok (tt, State (<[p := set_refs n (refs n - 1)]> (nodes s)) (fds s) (working s),
        [EvUnref p]).
Proof.
  intros H Hr. unfold fd_node_unref. run_with H.
  apply Z.eqb_neq in Hr. rewrite Hr. done.
Qed.

Lemma fd_node_unref_last s p n :
  nodes s !! p = Some n → refs n = 1%Z →
  readable_registered n = false → writable_registered n = false →
  fd_node_unref p s =
    Ok (tt, State (delete p (nodes s)) (fds s) (working s),
        [EvUnref p; EvPollsetDel p; EvFdShutdown p; EvFdOrphan p; EvFree p]).
Proof.
  intros H Hr Hrd Hwr. unfold fd_node_unref. run_with H.
  rewrite Hr. simpl. run_with H. rewrite Hrd, Hwr. simpl.
  by rewrite delete_insert_eq.
Qed.

(** ** [pop_fd_node] *)

Lemma pop_from_run s l fd :
  live (nodes s) l →
  ∃ r, pop_from l fd s = Ok (r, s, []) ∧ pop_spec (nodes s) l fd r.
Proof.
  induction l as [|p rest IH]; intros Hl.
  - exists None. split; [done|]. intros p Hp. by apply elem_of_nil in Hp.
  - destruct (Hl p) as [n Hn]; [left|].
    assert (live (nodes s) rest) as Hrest by (intros q Hq; apply Hl; by right).
    destruct (IH Hrest) as (r & Hr & Hspec). simpl.
    rewrite (bind_run _ _ _ _ _ _ (load_run _ _ _ Hn)).
    destruct (grpc_fd n =? fd)%Z eqn:E.
    + apply Z.eqb_eq in E. exists (Some (p, rest)). split; [done|].
      exists [], rest. unfold fd_of. rewrite Hn. simpl. subst fd.
      split_and!; try done. intros q Hq. by apply elem_of_nil in Hq.
    + apply Z.eqb_neq in E.
      rewrite (bind_run _ _ _ _ _ _ Hr). simpl.
      destruct r as [[q l']|].
      * exists (Some (q, p :: l')). split; [done|].
        destruct Hspec as (l1 & l2 & -> & -> & Hq & Hl1).
        exists (p :: l1), l2. split_and!; try done.
        intros x [->|Hx]%elem_of_cons; [|by apply Hl1].
        unfold fd_of. rewrite Hn. simpl. congruence.
      * exists None. split; [done|].
        intros x [->|Hx]%elem_of_cons; [|by apply Hspec].
        unfold fd_of. rewrite Hn. simpl. congruence.
Qed.

Lemma pop_fd_node_run s fd :
  live (nodes s) (fds s) →
  ∃ r, pop_spec (nodes s) (fds s) fd r ∧
       pop_fd_node fd s =
         match r with
         | Some (q, l') => Ok (Some q, State (nodes s) l' (working s), [])
         | None => Ok (None, s, [])
         end.
Proof.
  intros Hl. destruct (pop_from_run s (fds s) fd Hl) as (r & Hr & Hspec).
  exists r. split; [done|]. unfold pop_fd_node.
  unfold get_fds, mbind at 1, M_bind at 1.
  rewrite (bind_run _ _ _ _ _ _ Hr). by destruct r as [[q l']|].
Qed.

(** ** The registrations of one slot *)

Lemma register_locked_run s p n rd wr :
  nodes s !! p = Some n →
  register_locked rd wr p s =
    Ok (tt, State (<[p := registered rd wr n]> (nodes s)) (fds s) (working s),
        register_trace rd wr n p).
Proof.
  intros H. destruct n as [r fd rr wrr].
  unfold register_locked, registered, register_trace, fd_node_ref.
  destruct rd, wr, rr, wrr; run_with H;
    rewrite ?insert_insert_eq; unfold set_writable, set_readable, set_refs; simpl;
    rewrite ?Z.add_0_r; try done;
    by rewrite (insert_id _ _ _ H), state_eta.
Qed.

(** ** One slot of the reconciliation loop *)

Lemma fresh_node_free (h : gmap nat fd_node) : h !! fresh (dom h) = None.
Proof. apply not_elem_of_dom, is_fresh. Qed.

Lemma find_or_create_run s fd i :
  live (nodes s) (fds s) →
  ∃ p n0 l' pre,
    slot_node s fd i p n0 l' pre ∧
    find_or_create fd i s =
      Ok (p, State (<[p := n0]> (nodes s)) l' (working s), pre).
Proof.
  intros Hl. destruct (pop_fd_node_run s fd Hl) as (r & Hspec & Hrun).
  unfold find_or_create.
  destruct r as [[q l']|]; rewrite (bind_run _ _ _ _ _ _ Hrun); simpl in *.
  - destruct Hspec as (l1 & l2 & Hfds & -> & Hq & Hl1).
    unfold fd_of in Hq. destruct (nodes s !! q) as [n|] eqn:Hn; [|done].
    injection Hq as Hq.
    exists q, n, (l1 ++ l2), []. split; [by eapply slot_found|].
    by rewrite (insert_id _ _ _ Hn).
  - set (p := fresh (dom (nodes s))).
    exists p, (FdNode 1 fd false false), (fds s), [EvFdCreate p fd i; EvPollsetAdd p].
    split; [|done]. apply slot_created; try done. apply fresh_node_free.
Qed.

Lemma notify_slot_idle g i nl s :
  ARES_GETSOCK_READABLE (socks_bitmask g) i
    || ARES_GETSOCK_WRITABLE (socks_bitmask g) i = false →
  notify_slot g i nl s = Ok (nl, s, []).
Proof. intros H. unfold notify_slot. by rewrite H. Qed.

Lemma notify_slot_run g i nl s :
  let rd := ARES_GETSOCK_READABLE (socks_bitmask g) i in
  let wr := ARES_GETSOCK_WRITABLE (socks_bitmask g) i in
  live (nodes s) (fds s) →
  rd || wr = true →
  ∃ p n0 l' pre,
    slot_node s (sock_at g i) i p n0 l' pre ∧
    notify_slot g i nl s =
      Ok (p :: nl,
          State (<[p := registered rd wr n0]> (nodes s)) l' (working s),
          pre ++ register_trace rd wr n0 p).
Proof.
  intros rd wr Hl Hact.
  destruct (find_or_create_run s (sock_at g i) i Hl) as (p & n0 & l' & pre & Hs & Hrun).
  exists p, n0, l', pre. split; [done|].
  unfold notify_slot. fold rd wr. rewrite Hact.
  rewrite (bind_run _ _ _ _ _ _ Hrun).
  erewrite (bind_run (register_locked rd wr p)); last first.
  { apply register_locked_run. simpl. apply lookup_insert_eq. }
  simpl. by rewrite insert_insert_eq, app_nil_r.
Qed.

(** ** The reference-count discipline *)

Lemma heap_ok_live L1 L2 h : heap_ok (L1 ++ L2) h → live h L2.
Proof. intros (_ & H & _) p Hp. apply H, elem_of_app. by right. Qed.

Lemma heap_ok_perm L L' h : L ≡ₚ L' → heap_ok L h → heap_ok L' h.
Proof.
  intros HP (Hnd & Hlive & Hok). split_and!.
  - by rewrite <- HP.
  - intros p Hp. apply Hlive. by rewrite HP.
  - intros p n Hn. specialize (Hok p n Hn).
    by rewrite (bool_decide_ext (p ∈ L') (p ∈ L)) by (by rewrite HP).
Qed.

Lemma registered_ok rd wr n : node_ok true n → node_ok true (registered rd wr n).
Proof.
  destruct n as [r fd rr wrr]. unfold node_ok, registered. simpl.
  destruct rd, wr, rr, wrr; simpl; lia.
Qed.

Lemma heap_ok_slot s fd i p n0 l' pre nl rd wr :
  slot_node s fd i p n0 l' pre →
  heap_ok (nl ++ fds s) (nodes s) →
  heap_ok ((p :: nl) ++ l') (<[p := registered rd wr n0]> (nodes s)).
Proof.
  intros Hs Hok. destruct Hs as [l1 l2 Hn Hfd Hfds -> Hl1 _ | Hn -> -> Hnone _].
  - rewrite Hfds in Hok.
    apply (heap_ok_perm _ ((p :: nl) ++ l1 ++ l2)) in Hok; last first.
    { simpl. rewrite !app_assoc. by rewrite <- Permutation_middle. }
    destruct Hok as (Hnd & Hlive & Hok). split_and!; [done| |].
    + intros q Hq. destruct (decide (q = p)) as [->|Hne].
      * rewrite lookup_insert_eq. eauto.
      * rewrite lookup_insert_ne by done. by apply Hlive.
    + intros q n. destruct (decide (q = p)) as [->|Hne].
      * rewrite lookup_insert_eq. intros [= <-].
        specialize (Hok p n0 Hn).
        rewrite bool_decide_eq_true_2 in Hok |- * by (simpl; left).
        by apply registered_ok.
      * rewrite lookup_insert_ne by done. apply Hok.
  - destruct Hok as (Hnd & Hlive & Hok).
    assert (p ∉ nl ++ fds s) as Hp.
    { intros Hp. apply Hlive in Hp. rewrite Hn in Hp. by destruct Hp. }
    split_and!.
    + simpl. by apply NoDup_cons.
    + intros q Hq. destruct (decide (q = p)) as [->|Hne].
      * rewrite lookup_insert_eq. eauto.
      * rewrite lookup_insert_ne by done. apply Hlive.
        simpl in Hq. apply elem_of_cons in Hq as [?|?]; done.
    + intros q n. destruct (decide (q = p)) as [->|Hne].
      * rewrite lookup_insert_eq. intros [= <-].
        rewrite bool_decide_eq_true_2 by (simpl; left).
        apply registered_ok. unfold node_ok. simpl. lia.
      * rewrite lookup_insert_ne by done. intros Hq.
        specialize (Hok q n Hq).
        rewrite (bool_decide_ext (q ∈ (p :: nl) ++ fds s) (q ∈ nl ++ fds s)); [done|].
        simpl. rewrite elem_of_cons. split; [intros [?|?]; done | by right].
Qed.

(** ** Dropping the list reference of the nodes left over *)

Lemma fd_node_unref_run s p n :
  nodes s !! p = Some n → releasable n →
  fd_node_unref p s =
    Ok (tt, State (release (nodes s) p) (fds s) (working s),
        unref_trace (nodes s) p).
Proof.
  intros Hn Hrel. unfold release, unref_trace. rewrite Hn.
  destruct (refs n =? 1)%Z eqn:E.
  - apply Z.eqb_eq in E. destruct (Hrel E). by apply (fd_node_unref_last s p n).
  - apply Z.eqb_neq in E. by apply (fd_node_unref_keep s p n).
Qed.

Lemma release_ne h p q : q ≠ p → release h p !! q = h !! q.
Proof.
  intros Hne. unfold release. destruct (h !! p) as [n|]; [|done].
  destruct (refs n =? 1)%Z.
  - by rewrite lookup_delete_ne.
  - by rewrite lookup_insert_ne.
Qed.

Lemma release_eq h p :
  release h p !! p =
    n ← h !! p; if (refs n =? 1)%Z then None else Some (set_refs n (refs n - 1)).
Proof.
  unfold release. destruct (h !! p) as [n|] eqn:Hn; simpl; [|done].
  destruct (refs n =? 1)%Z.
  - by rewrite lookup_delete_eq.
  - by rewrite lookup_insert_eq.
Qed.

Lemma foldl_release_notin l : ∀ h q, q ∉ l → foldl release h l !! q = h !! q.
Proof.
  induction l as [|p l IH]; intros h q Hq; [done|]. simpl.
  apply not_elem_of_cons in Hq as [Hne Hq].
  rewrite IH by done. by apply release_ne.
Qed.


Lemma unref_trace_ne h p q : q ≠ p → unref_trace (release h p) q = unref_trace h q.
Proof. intros Hne. unfold unref_trace. by rewrite release_ne. Qed.

Lemma shutdown_remaining_run l : ∀ s,
  NoDup l →
  (∀ p, p ∈ l → ∃ n, nodes s !! p = Some n ∧ releasable n) →
  shutdown_remaining l s =
    Ok (tt,
        State (foldl release (nodes s) l)
              (match l with [] => fds s | _ => [] end) (working s),
        drain_trace (nodes s) l).
Proof.
  induction l as [|cur rest IH]; intros s Hnd Hl.
  - simpl. unfold ret, mret, M_ret. by rewrite state_eta.
  - apply NoDup_cons in Hnd as [Hcur Hnd].
    destruct (Hl cur) as (n & Hn & Hrel); [left|].
    cbn [shutdown_remaining]. unfold set_fds, grpc_fd_shutdown.
    unfold mbind at 1, M_bind at 1. unfold mbind at 1, M_bind at 1.
    erewrite (bind_run (load cur)); [|by apply load_run].
    cbn [log app].
    erewrite (bind_run (fd_node_unref cur)); [|by apply (fd_node_unref_run _ _ n)].
    rewrite IH; [|done|]; last first.
    { intros p Hp. cbn [nodes]. rewrite release_ne by (intros ->; done).
      apply Hl. by right. }
    cbn [nodes fds working]. f_equal. f_equal; [f_equal; by destruct rest|].
    unfold drain_trace. cbn [mbind list_bind app]. f_equal.
    f_equal. clear -Hcur. induction rest as [|q rest IH]; [done|].
    apply not_elem_of_cons in Hcur as [Hne Hcur]. cbn [mbind list_bind].
    rewrite IH by done. by rewrite unref_trace_ne.
Qed.

Lemma node_ok_releasable n : node_ok true n → releasable n.
Proof.
  destruct n as [r fd rr wrr]. unfold node_ok, releasable. simpl.
  destruct rr, wrr; simpl; intros [??] ?; (done || lia).
Qed.

Lemma heap_ok_release p L h : heap_ok (p :: L) h → heap_ok L (release h p).
Proof.
  intros (Hnd & Hlive & Hok). apply NoDup_cons in Hnd as [Hp Hnd].
  split_and!; [done| |].
  - intros q Hq. rewrite release_ne by (intros ->; done). apply Hlive. by right.
  - intros q n. destruct (decide (q = p)) as [->|Hne].
    + rewrite release_eq. destruct (h !! p) as [n0|] eqn:Hn0; simpl; [|done].
      specialize (Hok p n0 Hn0). rewrite bool_decide_eq_true_2 in Hok by left.
      rewrite bool_decide_eq_false_2 by done.
      destruct (refs n0 =? 1)%Z eqn:E; [done|]. intros [= <-].
      apply Z.eqb_neq in E. destruct n0 as [r fd rr wrr].
      unfold node_ok, set_refs in *. simpl in *. lia.
    + rewrite release_ne by done. intros Hq. specialize (Hok q n Hq).
      rewrite (bool_decide_ext (q ∈ L) (q ∈ p :: L)); [done|].
      rewrite elem_of_cons. split; [by right | intros [?|?]; done].
Qed.

Lemma heap_ok_drain l : ∀ L h, heap_ok (L ++ l) h → heap_ok L (foldl release h l).
Proof.
  induction l as [|p l IH]; intros L h Hok.
  - by rewrite app_nil_r in Hok.
  - simpl. apply IH. apply heap_ok_release.
    eapply heap_ok_perm; [|done]. by rewrite <- Permutation_middle.
Qed.

(** ** The [for] loop over the slots *)

Lemma for_each_ind {A} (body : nat → A → M A)
    (I : list nat → A → state → list event → Prop) :
  (∀ done i a s t, I done a s t →
     ∃ a' s' t', body i a s = Ok (a', s', t') ∧ I (done ++ [i]) a' s' (t ++ t')) →
  ∀ slots done a s t, I done a s t →
    ∃ a' s' t', for_each slots body a s = Ok (a', s', t')
                ∧ I (done ++ slots) a' s' (t ++ t').
Proof.
  intros Hstep. induction slots as [|i slots IH]; intros done a s t HI.
  - exists a, s, []. by rewrite !app_nil_r.
  - destruct (Hstep _ i _ _ _ HI) as (a1 & s1 & t1 & Hb & HI1).
    destruct (IH _ _ _ _ HI1) as (a2 & s2 & t2 & Hf & HI2).
    exists a2, s2, (t1 ++ t2). simpl.
    rewrite (bind_run _ _ _ _ _ _ Hb), Hf.
    by rewrite <- !app_assoc in HI2.
Qed.

Lemma loop_inv_init g s : inv s → loop_inv g s [] [] s [].
Proof.
  intros Hinv. split.
  - done.
  - done.
  - constructor.
  - done.
  - intros q Hq. by left.
  - intros q n Hn Hq. split; [done|]. apply not_elem_of_nil.
  - done.
  - constructor.
  - intros q Hq. by apply elem_of_nil in Hq.
  - eauto.
  - intros i Hi. by apply elem_of_nil in Hi.
  - intros d1 j d2 Hd. by destruct d1.
Qed.

(** What the two ways of obtaining a slot's node have in common. *)
Lemma slot_node_facts g s0 done nl s1 t fd i p n0 l' pre :
  loop_inv g s0 done nl s1 t →
  slot_node s1 fd i p n0 l' pre →
  (p ∉ nl) ∧ grpc_fd n0 = fd ∧
  (∀ q, q ∈ l' → q ∈ fds s1 ∧ q ≠ p) ∧
  (∀ q, q ∈ fds s1 → q = p ∨ q ∈ l') ∧
  (∀ q, is_Some (nodes s0 !! q) → q ∉ fds s0 → q ≠ p) ∧
  ((nodes s0 !! p = Some n0 ∧ p ∈ fds s1 ∧ pre = []) ∨
   (nodes s0 !! p = None ∧ nodes s1 !! p = None ∧
    n0 = FdNode 1 fd false false ∧ pre = [EvFdCreate p fd i; EvPollsetAdd p] ∧
    ∀ q, q ∈ fds s1 → fd_of (nodes s1) q ≠ Some fd)).
Proof.
  intros [[Hnd [Hlive Hok]] _ _ Hold _ _ Hdom _ _ _ _ _] Hs.
  destruct Hs as [l1 l2 Hn Hfd Hfds -> Hl1 -> | Hn -> -> Hnone ->].
  - assert (p ∈ fds s1) as Hp.
    { rewrite Hfds. apply elem_of_app. right. left. }
    rewrite Hfds in Hnd.
    apply NoDup_app in Hnd as (_ & Hdisj & Hnd).
    apply NoDup_app in Hnd as (_ & Hd1 & Hnd2).
    apply NoDup_cons in Hnd2 as [Hp2 _].
    split_and!.
    + intros Hin. apply (Hdisj p Hin). apply elem_of_app. right. left.
    + done.
    + intros q Hq. split.
      * rewrite Hfds. apply elem_of_app in Hq as [Hq|Hq]; apply elem_of_app;
          [by left | right; by right].
      * intros ->. apply elem_of_app in Hq as [Hq|Hq]; [|done].
        apply (Hd1 p Hq). left.
    + intros q. rewrite Hfds. intros [Hq|Hq]%elem_of_app.
      * right. apply elem_of_app. by left.
      * apply elem_of_cons in Hq as [->|Hq]; [by left|].
        right. apply elem_of_app. by right.
    + intros q Hq Hnot ->. by apply Hold in Hp as [? _].
    + left. destruct (Hold p Hp) as [_ Heq]. by rewrite <- Heq.
  - assert (nodes s0 !! p = None) as Hn0.
    { destruct (nodes s0 !! p) eqn:E; [|done].
      destruct (Hdom p) as [? ?]; [eauto|congruence]. }
    assert (∀ L, p ∈ L → L = nl ∨ L = fds s1 → False) as Hfree.
    { intros L Hin HL. destruct (Hlive p) as [? ?]; [|congruence].
      apply elem_of_app. destruct HL as [->| ->]; [by left|by right]. }
    split_and!.
    + intros Hin. eapply Hfree; eauto.
    + done.
    + intros q Hq. split; [done|]. intros ->. eapply Hfree; eauto.
    + intros q Hq. by right.
    + intros q [? Hq] _ ->. congruence.
    + right. split_and!; done.
Qed.

Lemma filter_snoc_active g done i :
  reverse (filter (λ i, active g i = true) (done ++ [i])) =
    (if active g i then [i] else [])
    ++ reverse (filter (λ i, active g i = true) done).
Proof.
  rewrite filter_app, reverse_app. f_equal.
  destruct (active g i) eqn:E.
  - by rewrite filter_cons_True.
  - rewrite filter_cons_False; [done|]. by rewrite E.
Qed.

Lemma serves_insert g s0 h p n nl js :
  p ∉ nl → Forall2 (serves g s0 h) nl js →
  Forall2 (serves g s0 (<[p := n]> h)) nl js.
Proof.
  intros Hp HF. induction HF as [|q j nl js (m & Hm & Hrest) HF IH]; [constructor|].
  apply not_elem_of_cons in Hp as [Hne Hp]. constructor; [|by apply IH].
  exists m. by rewrite lookup_insert_ne.
Qed.

Lemma served_slot g s0 h nl js i :
  Forall2 (serves g s0 h) nl js → i ∈ js → ∃ p, p ∈ nl ∧ serves g s0 h p i.
Proof.
  induction 1 as [|q j nl js Hq HF IH]; intros Hi; [by apply elem_of_nil in Hi|].
  apply elem_of_cons in Hi as [->|Hi].
  - exists q. split; [left|done].
  - destruct (IH Hi) as (p & Hp & Hs). exists p. split; [by right|done].
Qed.

Lemma register_trace_event s0 rd wr n0 p :
  (∀ n, nodes s0 !! p = Some n → n = n0) →
  Forall (loop_event s0) (register_trace rd wr n0 p).
Proof.
  intros Hn. unfold register_trace.
  repeat first [apply Forall_app; split | apply Forall_cons; split | apply Forall_nil]; try done.
  - destruct (rd && negb (readable_registered n0)) eqn:E; [|constructor].
    apply andb_true_iff in E as [_ E%negb_true_iff].
    repeat constructor. intros n ->%Hn. done.
  - destruct (wr && negb (writable_registered n0)) eqn:E; [|constructor].
    apply andb_true_iff in E as [_ E%negb_true_iff].
    repeat constructor. intros n ->%Hn. done.
Qed.

Lemma loop_inv_step g s0 done i nl s1 t :
  loop_inv g s0 done nl s1 t →
  ∃ nl' s' t', notify_slot g i nl s1 = Ok (nl', s', t')
               ∧ loop_inv g s0 (done ++ [i]) nl' s' (t ++ t').
Proof.
  intros HI. destruct (active g i) eqn:Hact.
  - (* an active slot *)
    destruct (notify_slot_run g i nl s1) as (p & n0 & l' & pre & Hs & Hrun);
      [by eapply heap_ok_live, li_heap|done|].
    eexists _, _, _. split; [exact Hrun|].
    destruct (slot_node_facts _ _ _ _ _ _ _ _ _ _ _ _ HI Hs)
      as (Hpnl & Hfd & Hl' & Hsplit & Hunl & Horigin).
    pose proof (heap_ok_slot _ _ _ _ _ _ _ nl
                  (readable g i) (writable g i) Hs (li_heap _ _ _ _ _ _ HI)) as Hheap.
    destruct HI as [Hheap1 Hwork Hslots Hold Hpop Hunlinked Hdom Htr Hnew
                      Hfd0 Honce Hsecond].
    split; cbn [nodes fds working].
    + done.
    + done.
    + rewrite filter_snoc_active, Hact. simpl. constructor.
      * exists (registered (readable g i) (writable g i) n0).
        rewrite lookup_insert_eq. split_and!; [done|done| | | |].
        -- intros ->. simpl. apply orb_true_r.
        -- intros ->. simpl. apply orb_true_r.
        -- simpl. intros [Hr| ->]%orb_true_iff; [|by left]. right.
           destruct Horigin as [(Hn0 & _)|(_ & _ & -> & _)]; [eauto|done].
        -- simpl. intros [Hr| ->]%orb_true_iff; [|by left]. right.
           destruct Horigin as [(Hn0 & _)|(_ & _ & -> & _)]; [eauto|done].
      * by apply serves_insert.
    + intros q Hq. destruct (Hl' q Hq) as [Hq1 Hne].
      rewrite lookup_insert_ne by done. by apply Hold.
    + intros q Hq. destruct (Hpop q Hq) as [Hq1|(Hin & j & Hj & Hfdq)].
      * destruct (Hsplit q Hq1) as [->|Hq']; [|by left]. right.
        split; [left|]. exists i. split_and!; [apply elem_of_app; right; left|done|].
        destruct Horigin as [(Hn0 & _)|(Hn0 & Hn1 & _)].
        -- unfold fd_of. rewrite Hn0. simpl. by rewrite Hfd.
        -- destruct Hheap1 as (_ & Hlive & _).
           destruct (Hlive p) as [? ?]; [apply elem_of_app; by right|congruence].
      * right. split; [by right|]. destruct Hfdq as [Hact' Hfdq].
        exists j. split_and!; [apply elem_of_app; by left|done|done].
    + intros q n Hn Hq. destruct (Hunlinked q n Hn Hq) as [Hn1 Hqnl].
      assert (q ≠ p) as Hne by (apply Hunl; eauto).
      rewrite lookup_insert_ne by done. split; [done|].
      by apply not_elem_of_cons.
    + intros q Hq. destruct (decide (p = q)) as [->|Hne].
      * rewrite lookup_insert_eq. eauto.
      * rewrite lookup_insert_ne by done. by apply Hdom.
    + apply Forall_app. split; [done|]. apply Forall_app. split.
      * destruct Horigin as [(_ & _ & ->)|(Hn0 & _ & _ & -> & _)]; [constructor|].
        by repeat constructor.
      * apply register_trace_event. intros n Hn.
        destruct Horigin as [(Hn0 & _)|(Hn0 & _)]; congruence.
    + intros q [->|Hq]%elem_of_cons Hnone.
      * destruct Horigin as [(Hn0 & _)|(_ & _ & _ & -> & _)]; [congruence|].
        split.
        -- apply elem_of_app. right. apply elem_of_app. left. right. left.
        -- exists (registered (readable g i) (writable g i) n0), i.
           rewrite lookup_insert_eq. split; [done|].
           cbn [grpc_fd registered]. rewrite Hfd.
           apply elem_of_app. right. apply elem_of_app. left. left.
      * destruct (Hnew q Hq Hnone) as (Hadd & n & j & Hn & Hcr).
        assert (q ≠ p) as Hne by (intros ->; done).
        split; [apply elem_of_app; by left|].
        exists n, j. rewrite lookup_insert_ne by done.
        split; [done|]. apply elem_of_app. by left.
    + intros q m Hq. destruct (decide (q = p)) as [->|Hne].
      * rewrite lookup_insert_eq. eexists. split; [done|].
        destruct Horigin as [(Hn0 & _)|(Hn0 & _)]; [|congruence].
        assert (m = n0) as -> by congruence. done.
      * rewrite lookup_insert_ne by done. by apply Hfd0.
    + intros j [Hj|Hj]%elem_of_app Hactj Huniq q Hq;
        destruct (Hl' q Hq) as [Hq1 Hne].
      * by apply (Honce j Hj Hactj Huniq).
      * apply list_elem_of_singleton in Hj as ->.
        destruct (Hold q Hq1) as [Hq0 Heq].
        destruct Horigin as [(Hn0 & Hp1 & _)|(_ & _ & _ & _ & Hmiss)].
        -- intros Hfdq. apply Hne. apply Huniq; [done|by apply Hold|done|].
           unfold fd_of. rewrite Hn0. simpl. by rewrite Hfd.
        -- unfold fd_of. rewrite <- Heq. by apply Hmiss.
    + intros d1 j d2 Hd Hactj (i0 & Hi0 & Hacti0 & Hsame) Huniq.
      destruct d2 as [|x d2 _] using rev_ind.
      * apply app_inj_tail in Hd as [<- <-].
        pose proof (Honce i0 Hi0 Hacti0) as Hno. rewrite Hsame in Hno.
        specialize (Hno Huniq).
        destruct Horigin as [(Hn0 & Hp1 & _)|(Hn0 & _ & _ & -> & _)].
        -- exfalso. apply (Hno p Hp1). unfold fd_of. rewrite Hn0. simpl.
           by rewrite Hfd.
        -- destruct (served_slot _ _ _ _ _ i0 Hslots) as (p1 & Hp1 & n1 & Hn1 & Hfd1 & _).
           { apply elem_of_reverse, list_elem_of_filter. done. }
           assert (p1 ≠ p) as Hne by (intros ->; done).
           exists p1, p.
           split_and!; [done|by right|left| | |done| |].
           ++ unfold fd_of. rewrite lookup_insert_ne, Hn1 by done. simpl.
              by rewrite Hfd1, Hsame.
           ++ unfold fd_of. rewrite lookup_insert_eq. simpl. by rewrite Hfd.
           ++ apply elem_of_app. right. apply elem_of_app. left. left.
           ++ apply elem_of_app. right. apply elem_of_app. left. right. left.
      * rewrite app_comm_cons, app_assoc in Hd.
        apply app_inj_tail in Hd as [Hd _].
        destruct (Hsecond d1 j d2 Hd Hactj)
          as (q1 & q2 & Hq12 & Hq1 & Hq2 & Hf1 & Hf2 & Hq0 & Hc & Ha); [eauto|done|].
        exists q1, q2. unfold fd_of in *.
        rewrite !lookup_insert_ne by (intros <-; done).
        split_and!; [done|by right|by right|done|done|done| |];
          apply elem_of_app; by left.
  - rewrite (notify_slot_idle g i nl s1 Hact).
    eexists _, _, _. split; [done|]. rewrite app_nil_r.
    destruct HI as [Hheap Hwork Hslots Hold Hpop Hunlinked Hdom Htr Hnew
                      Hfd0 Honce Hsecond].
    split; try done.
    + by rewrite filter_snoc_active, Hact.
    + intros q Hq. destruct (Hpop q Hq) as [?|(Hin & j & Hj & ?)]; [by left|right].
      split; [done|]. exists j. split; [|done]. apply elem_of_app. by left.
    + intros j [Hj|Hj]%elem_of_app Hactj Huniq q Hq.
      * by apply (Honce j Hj Hactj Huniq).
      * apply list_elem_of_singleton in Hj as ->. congruence.
    + intros d1 j d2 Hd Hactj Hex Huniq.
      destruct d2 as [|x d2 _] using rev_ind.
      * apply app_inj_tail in Hd as [<- <-]. congruence.
      * rewrite app_comm_cons, app_assoc in Hd.
        apply app_inj_tail in Hd as [Hd _]. by apply (Hsecond d1 j d2).
Qed.

(** ** One reconciliation pass *)

Lemma heap_ok_releasable L h p :
  heap_ok L h → p ∈ L → ∃ n, h !! p = Some n ∧ releasable n.
Proof.
  intros (_ & Hlive & Hok) Hp. destruct (Hlive p Hp) as [n Hn].
  exists n. split; [done|]. apply node_ok_releasable.
  specialize (Hok p n Hn). by rewrite bool_decide_eq_true_2 in Hok.
Qed.

Lemma notify_on_event_run g s :
  inv s →
  ∃ nl s1 t1,
    loop_inv g s (seq 0 ARES_GETSOCK_MAXNUM) nl s1 t1 ∧
    grpc_ares_notify_on_event_locked g s
      = Ok (tt, pass_state s nl s1, pass_trace nl s1 t1).
Proof.
  intros Hinv.
  destruct (for_each_ind (notify_slot g) (loop_inv g s)
              (λ done i a s1 t, loop_inv_step g s done i a s1 t)
              (seq 0 ARES_GETSOCK_MAXNUM) [] [] s [] (loop_inv_init g s Hinv))
    as (nl & s1 & t1 & Hloop & HI).
  exists nl, s1, t1. split; [done|].
  pose proof (li_heap _ _ _ _ _ _ HI) as Hheap.
  assert (NoDup (fds s1)) as Hnd.
  { destruct Hheap as (Hnd & _). by apply NoDup_app in Hnd as (_ & _ & Hnd). }
  unfold grpc_ares_notify_on_event_locked.
  rewrite (bind_run _ _ s tt s [EvGetsock] eq_refl).
  rewrite (bind_run _ _ _ _ _ _ Hloop).
  rewrite (bind_run _ _ s1 (fds s1) s1 [] eq_refl).
  rewrite (bind_run _ _ _ _ _ _ (shutdown_remaining_run (fds s1) s1 Hnd
             (λ p Hp, heap_ok_releasable _ _ p Hheap
                        (proj2 (elem_of_app nl (fds s1) p) (or_intror Hp))))).
  unfold pass_state, pass_trace, set_fds, when, set_working.
  rewrite (li_working _ _ _ _ _ _ HI).
  destruct (bool_decide (nl = [])); unfold mbind, M_bind, ret, mret, M_ret;
    cbn [nodes fds working]; by rewrite ?app_nil_r.
Qed.

Lemma pass_inv g s nl s1 t1 :
  loop_inv g s (seq 0 ARES_GETSOCK_MAXNUM) nl s1 t1 → inv (pass_state s nl s1).
Proof. intros HI. apply heap_ok_drain, (li_heap _ _ _ _ _ _ HI). Qed.

Lemma loop_disjoint g s done nl s1 t1 q :
  loop_inv g s done nl s1 t1 → q ∈ nl → q ∉ fds s1.
Proof.
  intros HI Hq Hq'. destruct (li_heap _ _ _ _ _ _ HI) as (Hnd & _).
  apply NoDup_app in Hnd as (_ & Hdisj & _). by apply (Hdisj q).
Qed.

(** ** [grpc_ares_ev_driver_start] and the two callbacks *)

Lemma start_idle g s :
  working s = true →
  grpc_ares_ev_driver_start g s = Ok (tt, s, [EvMuLock; EvMuUnlock]).
Proof.
  intros Hw. unfold grpc_ares_ev_driver_start, get_working, log, when.
  unfold mbind, M_bind. by rewrite Hw.
Qed.

Lemma start_run g s s' tp :
  working s = false →
  grpc_ares_notify_on_event_locked g (started s) = Ok (tt, s', tp) →
  grpc_ares_ev_driver_start g s = Ok (tt, s', EvMuLock :: tp ++ [EvMuUnlock]).
Proof.
  intros Hw Hp. unfold grpc_ares_ev_driver_start, get_working, log, when, set_working.
  unfold started in Hp. unfold mbind, M_bind in *. rewrite Hw. simpl.
  destruct (grpc_ares_notify_on_event_locked g _) as [[[[] s2] t2]|]; [|done].
  by injection Hp as -> ->.
Qed.

Lemma on_readable_cb_run p error g s n s' tp :
  nodes s !! p = Some n →
  releasable (set_readable n false) →
  grpc_ares_notify_on_event_locked g (fired_state s p (set_readable n false))
    = Ok (tt, s', tp) →
  on_readable_cb p error g s =
    Ok (tt, s', fire_trace s p (set_readable n false) (read_event error n)
                ++ EvMuLock :: tp ++ [EvMuUnlock]).
Proof.
  intros Hn Hrel Hp. unfold on_readable_cb.
  rewrite (bind_run (log (EvNodeLock p)) _ s tt s [EvNodeLock p] eq_refl).
  rewrite (bind_run _ _ _ _ _ _ (load_run _ _ _ Hn)).
  set (s1 := State (<[p := set_readable n false]> (nodes s)) (fds s) (working s)).
  rewrite (bind_run (store p (set_readable n false)) _ s tt s1 [] eq_refl).
  rewrite (bind_run (log (EvNodeUnlock p)) _ s1 tt s1 [EvNodeUnlock p] eq_refl).
  assert (nodes s1 !! p = Some (set_readable n false)) as Hn1
    by apply lookup_insert_eq.
  rewrite (bind_run _ _ _ _ _ _ (load_run _ _ _ Hn1)).
  match goal with |- context [(?m ≫= ?k) s1] =>
    rewrite (bind_run m k s1 tt s1 [read_event error n] ltac:(by destruct error)) end.
  rewrite (bind_run _ _ _ _ _ _ (fd_node_unref_run _ _ _ Hn1 Hrel)).
  unfold fired_state in Hp. cbn [nodes fds working].
  match goal with |- context [(log EvMuLock ≫= ?k) ?st] =>
    rewrite (bind_run (log EvMuLock) k st tt st [EvMuLock] eq_refl) end.
  rewrite (bind_run _ _ _ _ _ _ Hp). by cbn.
Qed.

Lemma on_writable_cb_run p error g s n s' tp :
  nodes s !! p = Some n →
  releasable (set_writable n false) →
  grpc_ares_notify_on_event_locked g (fired_state s p (set_writable n false))
    = Ok (tt, s', tp) →
  on_writable_cb p error g s =
    Ok (tt, s', fire_trace s p (set_writable n false) (write_event error n)
                ++ EvMuLock :: tp ++ [EvMuUnlock]).
Proof.
  intros Hn Hrel Hp. unfold on_writable_cb.
  rewrite (bind_run (log (EvNodeLock p)) _ s tt s [EvNodeLock p] eq_refl).
  rewrite (bind_run _ _ _ _ _ _ (load_run _ _ _ Hn)).
  set (s1 := State (<[p := set_writable n false]> (nodes s)) (fds s) (working s)).
  rewrite (bind_run (store p (set_writable n false)) _ s tt s1 [] eq_refl).
  rewrite (bind_run (log (EvNodeUnlock p)) _ s1 tt s1 [EvNodeUnlock p] eq_refl).
  assert (nodes s1 !! p = Some (set_writable n false)) as Hn1
    by apply lookup_insert_eq.
  rewrite (bind_run _ _ _ _ _ _ (load_run _ _ _ Hn1)).
  match goal with |- context [(?m ≫= ?k) s1] =>
    rewrite (bind_run m k s1 tt s1 [write_event error n] ltac:(by destruct error)) end.
  rewrite (bind_run _ _ _ _ _ _ (fd_node_unref_run _ _ _ Hn1 Hrel)).
  unfold fired_state in Hp. cbn [nodes fds working].
  match goal with |- context [(log EvMuLock ≫= ?k) ?st] =>
    rewrite (bind_run (log EvMuLock) k st tt st [EvMuLock] eq_refl) end.
  rewrite (bind_run _ _ _ _ _ _ Hp). by cbn.
Qed.

Lemma clears_readable n :
  readable_registered n = true → clears n (set_readable n false).
Proof. intros H. unfold clears. simpl. naive_solver. Qed.

Lemma clears_writable n :
  writable_registered n = true → clears n (set_writable n false).
Proof. intros H. unfold clears. simpl. naive_solver. Qed.

Lemma inv_fired s p n n' :
  inv s → nodes s !! p = Some n → clears n n' →
  releasable n' ∧ inv (fired_state s p n').
Proof.
  intros (Hnd & Hlive & Hok) Hn (Hrefs & _ & Hflags).
  pose proof (Hok p n Hn) as Hp. unfold node_ok in Hp.
  assert (refs n' = (b2z (bool_decide (p ∈ fds s)) + 1
                     + b2z (readable_registered n')
                     + b2z (writable_registered n'))%Z) as Hr'.
  { rewrite Hrefs. destruct Hp as [Hp _].
    destruct Hflags as [(H1 & H2 & H3)|(H1 & H2 & H3)];
      rewrite H2, H3; rewrite H1 in Hp; simpl in *; lia. }
  split.
  - intros H1. rewrite H1 in Hr'.
    destruct (bool_decide (p ∈ fds s)), (readable_registered n'),
      (writable_registered n'); simpl in Hr'; (done || lia).
  - unfold inv, fired_state. cbn [nodes fds]. split_and!; [done| |].
    + intros q Hq. destruct (decide (q = p)) as [->|Hne].
      * rewrite release_eq, lookup_insert_eq. simpl.
        rewrite bool_decide_eq_true_2 in Hr' by done.
        destruct (refs n' =? 1)%Z eqn:E; [|eauto].
        apply Z.eqb_eq in E.
        destruct (readable_registered n'), (writable_registered n');
          simpl in Hr'; lia.
      * rewrite release_ne, lookup_insert_ne by done. by apply Hlive.
    + intros q m. destruct (decide (q = p)) as [->|Hne].
      * rewrite release_eq, lookup_insert_eq. simpl.
        destruct (refs n' =? 1)%Z eqn:E; [done|]. intros [= <-].
        apply Z.eqb_neq in E. unfold node_ok, set_refs. simpl.
        destruct (bool_decide (p ∈ fds s)), (readable_registered n'),
          (writable_registered n'); simpl in *; lia.
      * rewrite release_ne, lookup_insert_ne by done. apply Hok.
Qed.

(** ** Every operation keeps the reference-count discipline *)

Lemma inv_initial : inv initial_state.
Proof.
  split_and!.
  - constructor.
  - intros p Hp. by apply elem_of_nil in Hp.
  - intros p n Hn. simpl in Hn. by apply lookup_empty_Some in Hn.
Qed.

Lemma pass_total g s :
  inv s →
  ∃ s' t, grpc_ares_notify_on_event_locked g s = Ok (tt, s', t) ∧ inv s'.
Proof.
  intros Hinv. destruct (notify_on_event_run g s Hinv) as (nl & s1 & t1 & HI & Hrun).
  eexists _, _. split; [exact Hrun|]. by eapply pass_inv.
Qed.

Lemma start_total g s :
  inv s →
  ∃ s' t, grpc_ares_ev_driver_start g s = Ok (tt, s', t) ∧ inv s'.
Proof.
  intros Hinv. destruct (working s) eqn:Hw.
  - exists s, [EvMuLock; EvMuUnlock]. split; [by apply start_idle|done].
  - destruct (pass_total g (started s) Hinv) as (s' & tp & Hp & Hinv').
    eexists _, _. split; [by apply start_run|done].
Qed.

Lemma readable_total p n error g s :
  inv s → nodes s !! p = Some n → readable_registered n = true →
  ∃ s' t, on_readable_cb p error g s = Ok (tt, s', t) ∧ inv s'.
Proof.
  intros Hinv Hn Hr.
  destruct (inv_fired s p n _ Hinv Hn (clears_readable n Hr)) as [Hrel Hinv1].
  destruct (pass_total g _ Hinv1) as (s' & tp & Hp & Hinv').
  eexists _, _. split; [by eapply on_readable_cb_run|done].
Qed.

Lemma writable_total p n error g s :
  inv s → nodes s !! p = Some n → writable_registered n = true →
  ∃ s' t, on_writable_cb p error g s = Ok (tt, s', t) ∧ inv s'.
Proof.
  intros Hinv Hn Hr.
  destruct (inv_fired s p n _ Hinv Hn (clears_writable n Hr)) as [Hrel Hinv1].
  destruct (pass_total g _ Hinv1) as (s' & tp & Hp & Hinv').
  eexists _, _. split; [by eapply on_writable_cb_run|done].
Qed.

(** ** [grpc_ares_ev_driver_destroy] *)

Lemma destroy_loop_run s : ∀ l,
  live (nodes s) l →
  destroy_loop l s =
    if Nat.even (length l) then Ok (tt, s, EvFdShutdown <$> every_other l)
    else Fault NullDeref.
Proof.
  induction l as [l IH] using (induction_ltof1 _ (@length _)); unfold ltof in IH.
  intros Hl. destruct l as [|p [|q rest]]; [done| |].
  - destruct (Hl p) as [n Hn]; [left|].
    cbn [destroy_loop]. unfold grpc_fd_shutdown.
    unfold mbind at 1, M_bind at 1.
    by rewrite (bind_run _ _ _ _ _ _ (load_run _ _ _ Hn)).
  - destruct (Hl p) as [n Hn]; [left|].
    cbn [destroy_loop]. unfold grpc_fd_shutdown.
    unfold mbind at 1, M_bind at 1.
    rewrite (bind_run _ _ _ _ _ _ (load_run _ _ _ Hn)). cbn [log].
    rewrite IH; [|simpl; lia|intros x Hx; apply Hl; right; by right].
    cbn [length Nat.even]. by destruct (Nat.even (length rest)).
Qed.

Lemma destroy_run s :
  live (nodes s) (fds s) →
  grpc_ares_ev_driver_destroy s =
    if Nat.even (length (fds s))
    then Ok (tt, s, [EvMuLock] ++ (EvFdShutdown <$> every_other (fds s))
                    ++ [EvMuUnlock; EvSchedCleanup])
    else Fault NullDeref.
Proof.
  intros Hl. unfold grpc_ares_ev_driver_destroy.
  rewrite (bind_run (log EvMuLock) _ s tt s [EvMuLock] eq_refl).
  rewrite (bind_run get_fds _ s (fds s) s [] eq_refl).
  unfold mbind at 1, M_bind at 1. rewrite (destroy_loop_run s _ Hl).
  by destruct (Nat.even (length (fds s))).
Qed.

(** ** The driver as a transition system *)

Lemma step_inv s t s' : inv s → step s t s' → inv s'.
Proof.
  intros Hinv [g s1 t1 H | p n e g s1 t1 Hn Hr H | p n e g s1 t1 Hn Hr H | s1 t1 H].
  - destruct (start_total g s Hinv) as (s2 & t2 & H2 & Hinv2). congruence.
  - destruct (readable_total p n e g s Hinv Hn Hr) as (s2 & t2 & H2 & Hinv2).
    congruence.
  - destruct (writable_total p n e g s Hinv Hn Hr) as (s2 & t2 & H2 & Hinv2).
    congruence.
  - rewrite destroy_run in H by (destruct Hinv as (_ & ? & _); done).
    destruct (Nat.even _); [|done]. by injection H as <- _.
Qed.

Lemma reachable_inv s : reachable s → inv s.
Proof.
  induction 1 as [|s t s' _ IH Hstep]; [apply inv_initial|by eapply step_inv].
Qed.

(** ** What a pass leaves behind *)

Lemma Forall2_elem_impl {A B} (P Q : A → B → Prop) l k :
  Forall2 P l k → (∀ x y, x ∈ l → P x y → Q x y) → Forall2 Q l k.
Proof.
  induction 1 as [|x y l k Hxy HF IH]; intros Himp; constructor.
  - apply Himp; [left|done].
  - apply IH. intros x' y' Hx'. apply Himp. by right.
Qed.

Lemma pass_lookup_new g s done nl s1 t1 q :
  loop_inv g s done nl s1 t1 → q ∈ nl →
  nodes (pass_state s nl s1) !! q = nodes s1 !! q.
Proof.
  intros HI Hq. unfold pass_state. cbn [nodes].
  apply foldl_release_notin. by eapply loop_disjoint.
Qed.

Lemma loop_event_pass s0 e : loop_event s0 e → pass_event e.
Proof. by destruct e. Qed.

Lemma elem_of_drain_trace h l e :
  e ∈ drain_trace h l ↔
  ∃ p, p ∈ l ∧ (e = EvFdShutdown p ∨ e ∈ unref_trace h p).
Proof.
  unfold drain_trace. rewrite list_elem_of_bind.
  split; intros (p & H1 & H2); exists p.
  - apply elem_of_cons in H1. done.
  - split; [|done]. by apply elem_of_cons.
Qed.

Lemma elem_of_unref_trace h p e :
  e ∈ unref_trace h p →
  e = EvUnref p ∨
  (∃ n, h !! p = Some n ∧ refs n = 1%Z ∧
        e ∈ [EvPollsetDel p; EvFdShutdown p; EvFdOrphan p; EvFree p]).
Proof.
  unfold unref_trace. destruct (h !! p) as [n|]; [|by intros ?%elem_of_nil].
  destruct (refs n =? 1)%Z eqn:E.
  - apply Z.eqb_eq in E. intros [->|He]%elem_of_cons; [by left|].
    right. by exists n.
  - intros ->%list_elem_of_singleton. by left.
Qed.

Lemma drain_trace_pass h l : Forall pass_event (drain_trace h l).
Proof.
  apply Forall_forall. intros e (p & _ & [->|He])%elem_of_drain_trace; [done|].
  apply elem_of_unref_trace in He as [->|(n & _ & _ & He)]; [done|].
  repeat (apply elem_of_cons in He as [->|He]; [done|]).
  by apply elem_of_nil in He.
Qed.

Lemma pass_trace_events g s done nl s1 t1 :
  loop_inv g s done nl s1 t1 →
  Forall pass_event (t1 ++ drain_trace (nodes s1) (fds s1)).
Proof.
  intros HI. apply Forall_app. split; [|apply drain_trace_pass].
  eapply Forall_impl; [exact (li_trace _ _ _ _ _ _ HI)|]. apply loop_event_pass.
Qed.

(** ** Checking the discipline on a concrete state *)

Lemma inv_check_sound s : inv_check s = true → inv s.
Proof.
  unfold inv_check. intros [[H1 H2]%andb_true_iff H3]%andb_true_iff.
  apply bool_decide_eq_true in H1. rewrite forallb_forall in H2, H3.
  split_and!; [done| |].
  - intros p Hp. apply list_elem_of_In in Hp.
    by apply H2, bool_decide_eq_true in Hp.
  - intros p n Hn. apply elem_of_map_to_list, list_elem_of_In in Hn.
    apply H3 in Hn. simpl in Hn. unfold node_ok_b in Hn.
    apply andb_true_iff in Hn as [Ha Hb].
    apply Z.eqb_eq in Ha. apply Z.ltb_lt in Hb. by split.
Qed.

(** ** Concrete runs *)


Lemma start_one_read :
  grpc_ares_ev_driver_start snap_r5 initial_state =
    Ok (tt, one_read,
        [EvMuLock; EvGetsock;
         EvFdCreate 0 5 0; EvPollsetAdd 0; EvNodeLock 0; EvRef 0;
         EvNotifyRead 0; EvNodeUnlock 0; EvMuUnlock]).
Proof. by vm_compute. Qed.


Lemma one_read_reachable : reachable one_read.
Proof.
  eapply reach_step; [apply reach_init|].
  eapply step_start. apply start_one_read.
Qed.

(** ** C1: [grpc_ares_ev_driver_destroy] *)

(** C1.  The spec has [destroy] shut down every tracked descriptor.  The
    loop of the code advances its cursor twice per iteration: on the two
    tracked descriptors of [two_reads] (both with a pending read
    registration, the state [start] leaves behind) it shuts down the first
    node of the list only, and on the single tracked descriptor of
    [one_read] it dereferences NULL after the shutdown. *)
Theorem destroy_skips_every_second_node :
  grpc_ares_ev_driver_start snap_r5_r6 initial_state
    = Ok (tt, two_reads,
          [EvMuLock; EvGetsock;
           EvFdCreate 0 5 0; EvPollsetAdd 0; EvNodeLock 0; EvRef 0;
           EvNotifyRead 0; EvNodeUnlock 0;
           EvFdCreate 1 6 1; EvPollsetAdd 1; EvNodeLock 1; EvRef 1;
           EvNotifyRead 1; EvNodeUnlock 1; EvMuUnlock]) ∧
  grpc_ares_ev_driver_destroy two_reads
    = Ok (tt, two_reads, [EvMuLock; EvFdShutdown 1; EvMuUnlock; EvSchedCleanup]) ∧
  grpc_ares_ev_driver_destroy one_read = Fault NullDeref.
Proof. split_and!; by vm_compute. Qed.

(** ** C2: [grpc_ares_ev_driver_create] *)

Lemma create_channel_failure status lib :
  status ≠ ARES_SUCCESS →
  grpc_ares_ev_driver_create ARES_SUCCESS status lib
    = (GRPC_ERROR_CREATE "Failed to init ares channel", None, (lib + 1)%Z).
Proof.
  intros H. unfold grpc_ares_ev_driver_create, grpc_ares_init. simpl.
  apply Z.eqb_neq in H. by rewrite H.
Qed.

(** C2.  The spec has [create] roll the process-wide engine-library state
    back when [ares_init] fails.  The failure path of the code frees the
    driver and returns the error without calling [grpc_ares_cleanup]:
    with the library initialised and [ares_init] answering ARES_ENOMEM,
    a count of 0 on entry is 1 on return, and no driver is left; the
    deferred teardown of a driver is the path that gives the reference
    back. *)
Theorem create_failure_keeps_library_reference :
  grpc_ares_ev_driver_create ARES_SUCCESS ARES_ENOMEM 0
    = (GRPC_ERROR_CREATE "Failed to init ares channel", None, 1%Z) ∧
  grpc_ares_ev_driver_create ARES_SUCCESS ARES_SUCCESS 0
    = (GRPC_ERROR_NONE, Some initial_state, 1%Z) ∧
  grpc_ares_ev_driver_cleanup initial_state 1 = Ok 0%Z.
Proof. split_and!; reflexivity. Qed.

(** ** C3: the tracked set after a pass *)


(** ** C5: a descriptor the engine no longer reports *)



Lemma pass_unlinked_untouched g s nl s1 t1 p n :
  loop_inv g s (seq 0 ARES_GETSOCK_MAXNUM) nl s1 t1 →
  nodes s !! p = Some n → p ∉ fds s →
  nodes (pass_state s nl s1) !! p = Some n ∧ p ∉ fds (pass_state s nl s1).
Proof.
  intros HI Hn Hp. destruct (li_unlinked _ _ _ _ _ _ HI p n Hn Hp) as [Hn1 Hnl].
  split; [|done]. unfold pass_state. cbn [nodes].
  rewrite foldl_release_notin; [done|].
  intros Hp1. by apply (li_old _ _ _ _ _ _ HI) in Hp1 as [? _].
Qed.





(** ** The calls of a pass *)

Lemma pass_shape g s :
  inv s →
  ∃ s' tp, grpc_ares_notify_on_event_locked g s = Ok (tt, s', EvGetsock :: tp)
           ∧ inv s' ∧ Forall pass_event tp.
Proof.
  intros Hinv. destruct (notify_on_event_run g s Hinv) as (nl & s1 & t1 & HI & Hrun).
  eexists _, _. split_and!; [exact Hrun|by eapply pass_inv|by eapply pass_trace_events].
Qed.

Lemma unref_trace_once h p n :
  h !! p = Some n →
  count_occ event_eq_dec (unref_trace h p) (EvUnref p) = 1.
Proof.
  intros Hn. unfold unref_trace. rewrite Hn.
  destruct (refs n =? 1)%Z; cbn [count_occ];
    repeat (destruct (event_eq_dec _ _); try done).
Qed.

(** ** A pass registers no direction twice *)

Lemma for_each_idle g slots : ∀ nl s,
  (∀ i, i ∈ slots → active g i = false) →
  for_each slots (notify_slot g) nl s = Ok (nl, s, []).
Proof.
  induction slots as [|i slots IH]; intros nl s Hidle; [done|].
  cbn [for_each].
  rewrite (bind_run _ _ _ _ _ _ (notify_slot_idle g i nl s (Hidle i ltac:(left)))).
  rewrite IH; [done|]. intros j Hj. apply Hidle. by right.
Qed.

Lemma pass_idle g s :
  interest g = [] → fds s = [] →
  grpc_ares_notify_on_event_locked g s
    = Ok (tt, State (nodes s) [] false, [EvGetsock]).
Proof.
  intros Hi Hf. unfold grpc_ares_notify_on_event_locked.
  rewrite (bind_run (log EvGetsock) _ s tt s [EvGetsock] eq_refl).
  assert (∀ i, i ∈ seq 0 ARES_GETSOCK_MAXNUM → active g i = false) as Hidle.
  { intros i Hin. destruct (active g i) eqn:E; [|done].
    by destruct (filter_nil_not_elem_of _ _ i Hi E). }
  rewrite (bind_run _ _ _ _ _ _ (for_each_idle g _ [] s Hidle)).
  rewrite (bind_run get_fds _ s (fds s) s [] eq_refl). rewrite Hf.
  by cbn.
Qed.

Lemma pass_no_double g s done nl s1 t1 p n :
  loop_inv g s done nl s1 t1 → nodes s !! p = Some n →
  (readable_registered n = true → EvNotifyRead p ∉ pass_trace nl s1 t1) ∧
  (writable_registered n = true → EvNotifyWrite p ∉ pass_trace nl s1 t1).
Proof.
  intros HI Hn.
  assert (∀ e, e ∈ pass_trace nl s1 t1 →
            e = EvGetsock ∨ loop_event s e ∨
            ∃ q, e = EvFdShutdown q ∨ e = EvUnref q ∨ e = EvPollsetDel q
                 ∨ e = EvFdOrphan q ∨ e = EvFree q) as Hcases.
  { intros e [->|He]%elem_of_cons; [by left|]. right.
    apply elem_of_app in He as [He|He].
    - left. pose proof (li_trace _ _ _ _ _ _ HI) as Htr.
      rewrite Forall_forall in Htr. by apply Htr.
    - right. apply elem_of_drain_trace in He as (q & _ & [->|He]); [eauto|].
      exists q. apply elem_of_unref_trace in He as [->|(m & _ & _ & He)]; [eauto|].
      repeat (apply elem_of_cons in He as [->|He]; [eauto 6|]).
      by apply elem_of_nil in He. }
  split; intros Hf He; apply Hcases in He as [He|[He|(q & He)]];
    try done; try (specialize (He n Hn); congruence);
    destruct He as [?|[?|[?|[?|?]]]]; done.
Qed.

(** ** C8: the [working] flag *)

Lemma read_left_7_reachable : reachable read_left_7.
Proof.
  apply (reach_step both_7
           [EvNodeLock 0; EvNodeUnlock 0; EvCancel; EvUnref 0; EvMuLock;
            EvGetsock; EvFdShutdown 0; EvUnref 0; EvMuUnlock]).
  - eapply reach_step; [apply reach_init|].
    eapply (step_start _ snap_rw7). by vm_compute.
  - apply (step_writable _ 0 (FdNode 3 7 true true) shutdown_error snap_none);
      by vm_compute.
Qed.


Lemma pass_working g s :
  inv s →
  ∃ s' t, grpc_ares_notify_on_event_locked g s = Ok (tt, s', t) ∧
          working s' = (if bool_decide (fds s' = []) then false else working s).
Proof.
  intros Hinv. destruct (notify_on_event_run g s Hinv) as (nl & s1 & t1 & _ & Hrun).
  by eexists _, _.
Qed.

Lemma pass_working_tracks g s s' t :
  inv s → grpc_ares_notify_on_event_locked g s = Ok (tt, s', t) →
  working_tracks s'.
Proof.
  intros Hinv Hrun. destruct (pass_working g s Hinv) as (s2 & t2 & Hrun2 & Hw).
  rewrite Hrun in Hrun2. injection Hrun2 as <- <-. intros Hw'.
  rewrite Hw' in Hw. by destruct (bool_decide_reflect (fds s' = [])).
Qed.

Lemma step_working_tracks s t s' :
  inv s → working_tracks s → step s t s' → working_tracks s'.
Proof.
  intros Hinv Hwt [g s1 t1 H | p n e g s1 t1 Hn Hr H | p n e g s1 t1 Hn Hr H | s1 t1 H].
  - destruct (working s) eqn:Hw.
    + rewrite (start_idle g s Hw) in H. by injection H as <- _.
    + destruct (pass_working g (started s) Hinv) as (s2 & t2 & Hrun & _).
      rewrite (start_run g s _ _ Hw Hrun) in H. injection H as <- _.
      by eapply (pass_working_tracks g (started s)).
  - destruct (inv_fired s p n _ Hinv Hn (clears_readable n Hr)) as [Hrel Hinv1].
    destruct (pass_working g _ Hinv1) as (s2 & t2 & Hrun & _).
    rewrite (on_readable_cb_run _ e _ _ _ _ _ Hn Hrel Hrun) in H.
    injection H as <- _. by eapply pass_working_tracks.
  - destruct (inv_fired s p n _ Hinv Hn (clears_writable n Hr)) as [Hrel Hinv1].
    destruct (pass_working g _ Hinv1) as (s2 & t2 & Hrun & _).
    rewrite (on_writable_cb_run _ e _ _ _ _ _ Hn Hrel Hrun) in H.
    injection H as <- _. by eapply pass_working_tracks.
  - rewrite destroy_run in H by (destruct Hinv as (_ & ? & _); done).
    destruct (Nat.even _); [|done]. by injection H as <- _.
Qed.

Lemma reachable_working_tracks s : reachable s → working_tracks s.
Proof.
  induction 1 as [|s t s' Hreach IH Hstep]; [done|].
  eapply step_working_tracks; [by apply reachable_inv|done|done].
Qed.



(** ** C9: the pollset set and the driver's mutex *)

Lemma pollset_locked_held t r :
  Forall pass_event t → pollset_locked true (t ++ r) = pollset_locked true r.
Proof.
  induction 1 as [|e t He _ IH]; [done|]. by destruct e.
Qed.

Lemma pollset_locked_section tp :
  Forall pass_event tp →
  pollset_locked false (EvMuLock :: EvGetsock :: tp ++ [EvMuUnlock]) = true.
Proof. intros H. cbn [pollset_locked]. by rewrite pollset_locked_held. Qed.

Lemma pollset_locked_fire (e : event) p h n' r :
  h !! p = Some n' → (e = EvCancel ∨ ∃ a b, e = EvProcessFd a b) →
  pollset_locked false ([EvNodeLock p; EvNodeUnlock p; e] ++ unref_trace h p ++ r)
    = negb (refs n' =? 1)%Z && pollset_locked false r.
Proof.
  intros Hn He. unfold unref_trace. rewrite Hn.
  destruct He as [->|(a & b & ->)]; by destruct (refs n' =? 1)%Z.
Qed.

(** C9, as stated, fails.  The read registration left on descriptor 7
    fires on a node that is no longer in the list: the callback drops the
    last reference, and [fd_node_unref] removes the descriptor from the
    pollset set before the callback takes the driver's mutex. *)
Lemma last_unref_removes_from_pollset_unlocked :
  reachable read_left_7 ∧
  on_readable_cb 0 shutdown_error snap_none read_left_7
    = Ok (tt, initial_state,
          [EvNodeLock 0; EvNodeUnlock 0; EvCancel;
           EvUnref 0; EvPollsetDel 0; EvFdShutdown 0; EvFdOrphan 0; EvFree 0;
           EvMuLock; EvGetsock; EvMuUnlock]) ∧
  pollset_locked false
    [EvNodeLock 0; EvNodeUnlock 0; EvCancel;
     EvUnref 0; EvPollsetDel 0; EvFdShutdown 0; EvFdOrphan 0; EvFree 0;
     EvMuLock; EvGetsock; EvMuUnlock] = false.
Proof. split_and!; [apply read_left_7_reachable|by vm_compute|done]. Qed.

(** C9, amended.  Every addition to the pollset set (at node creation)
    and every removal made by a reconciliation pass happens with the
    driver's mutex held: all the pollset calls of [start] are made under
    the mutex, and so are those of the pass a callback runs.  The removal
    made when a callback drops the last reference to a node happens in
    [fd_node_unref], before the callback takes the mutex: the pollset
    calls of a callback are all made under the mutex exactly when its
    [fd_node_unref] does not drop the last reference. *)
Theorem pollset_calls_and_driver_mutex (s : state) (Hinv : inv s) :
  (∀ g, ∃ s' t, grpc_ares_ev_driver_start g s = Ok (tt, s', t) ∧
     pollset_locked false t = true) ∧
  (∀ g, ∃ s' t, grpc_ares_notify_on_event_locked g s = Ok (tt, s', t) ∧
     pollset_locked true t = true) ∧
  (∀ p n error g, nodes s !! p = Some n → readable_registered n = true →
     ∃ s' pre tp,
       on_readable_cb p error g s
         = Ok (tt, s', pre ++ EvMuLock :: EvGetsock :: tp ++ [EvMuUnlock]) ∧
       Forall (λ e, e ≠ EvMuLock) pre ∧
       (∀ q, EvPollsetDel q ∈ pre ↔ q = p ∧ refs n = 1%Z) ∧
       Forall pass_event tp ∧
       pollset_locked false (pre ++ EvMuLock :: EvGetsock :: tp ++ [EvMuUnlock])
         = negb (refs n =? 1)%Z) ∧
  (∀ p n error g, nodes s !! p = Some n → writable_registered n = true →
     ∃ s' pre tp,
       on_writable_cb p error g s
         = Ok (tt, s', pre ++ EvMuLock :: EvGetsock :: tp ++ [EvMuUnlock]) ∧
       Forall (λ e, e ≠ EvMuLock) pre ∧
       (∀ q, EvPollsetDel q ∈ pre ↔ q = p ∧ refs n = 1%Z) ∧
       Forall pass_event tp ∧
       pollset_locked false (pre ++ EvMuLock :: EvGetsock :: tp ++ [EvMuUnlock])
         = negb (refs n =? 1)%Z).
Proof.
  assert (∀ p n n' (e : event) tp,
    refs n' = refs n → (e = EvCancel ∨ ∃ a b, e = EvProcessFd a b) →
    Forall pass_event tp →
    let pre := fire_trace s p n' e in
    Forall (λ e, e ≠ EvMuLock) pre ∧
    (∀ q, EvPollsetDel q ∈ pre ↔ q = p ∧ refs n = 1%Z) ∧
    pollset_locked false (pre ++ EvMuLock :: EvGetsock :: tp ++ [EvMuUnlock])
      = negb (refs n =? 1)%Z) as Hfire.
  { intros p n n' e tp Hrefs He Htp pre. subst pre. unfold fire_trace.
    assert (<[p := n']> (nodes s) !! p = Some n') as Hn' by apply lookup_insert_eq.
    split_and!.
    - unfold unref_trace. rewrite Hn'.
      destruct He as [->|(a & b & ->)]; destruct (refs n' =? 1)%Z;
        repeat constructor; done.
    - intros q. unfold unref_trace. rewrite Hn', Hrefs.
      destruct (refs n =? 1)%Z eqn:E.
      + apply Z.eqb_eq in E. split.
        * intros Hq. split; [|done].
          destruct He as [->|(a & b & ->)];
            repeat (apply elem_of_cons in Hq as [Hq|Hq]; [congruence|]);
            by apply elem_of_nil in Hq.
        * intros [-> _]. do 4 right. left.
      + apply Z.eqb_neq in E. split; [|by intros [_ ?]].
        intros Hq. destruct He as [->|(a & b & ->)];
          repeat (apply elem_of_cons in Hq as [Hq|Hq]; [congruence|]);
          by apply elem_of_nil in Hq.
    - rewrite <- app_assoc.
      rewrite (pollset_locked_fire e p _ n' _ Hn' He), Hrefs.
      by rewrite pollset_locked_section, andb_true_r. }
  split_and!.
  - intros g. destruct (working s) eqn:Hw.
    + exists s, [EvMuLock; EvMuUnlock]. split; [by apply start_idle|done].
    + destruct (pass_shape g (started s) Hinv) as (s' & tp & Hrun & _ & Htp).
      eexists _, _. split; [by apply start_run|].
      by apply (pollset_locked_section tp).
  - intros g. destruct (pass_shape g s Hinv) as (s' & tp & Hrun & _ & Htp).
    eexists _, _. split; [exact Hrun|].
    cbn [pollset_locked]. rewrite <- (app_nil_r tp).
    by rewrite pollset_locked_held.
  - intros p n error g Hn Hr.
    destruct (inv_fired s p n _ Hinv Hn (clears_readable n Hr)) as [Hrel Hinv1].
    destruct (pass_shape g _ Hinv1) as (s' & tp & Hrun & _ & Htp).
    exists s', (fire_trace s p (set_readable n false) (read_event error n)), tp.
    split; [exact (on_readable_cb_run _ error _ _ _ _ _ Hn Hrel Hrun)|].
    destruct (Hfire p n (set_readable n false) (read_event error n) tp)
      as (H1 & H2 & H3); [done|destruct error; eauto|done|]. done.
  - intros p n error g Hn Hw.
    destruct (inv_fired s p n _ Hinv Hn (clears_writable n Hw)) as [Hrel Hinv1].
    destruct (pass_shape g _ Hinv1) as (s' & tp & Hrun & _ & Htp).
    exists s', (fire_trace s p (set_writable n false) (write_event error n)), tp.
    split; [exact (on_writable_cb_run _ error _ _ _ _ _ Hn Hrel Hrun)|].
    destruct (Hfire p n (set_writable n false) (write_event error n) tp)
      as (H1 & H2 & H3); [done|destruct error; eauto|done|]. done.
Qed.

Lemma pollset_calls_and_driver_mutex_witness :
  inv read_left_7 ∧
  ∃ s' pre tp,
    on_readable_cb 0 shutdown_error snap_r8 read_left_7
      = Ok (tt, s', pre ++ EvMuLock :: EvGetsock :: tp ++ [EvMuUnlock]) ∧
    Forall (λ e, e ≠ EvMuLock) pre ∧
    (∀ q, EvPollsetDel q ∈ pre ↔ q = 0 ∧ 1%Z = 1%Z) ∧
    Forall pass_event tp ∧
    pollset_locked false (pre ++ EvMuLock :: EvGetsock :: tp ++ [EvMuUnlock])
      = false.
Proof.
  split.
  - apply inv_check_sound. vm_compute. reflexivity.
  - refine (proj1 (proj2 (proj2 (pollset_calls_and_driver_mutex read_left_7 _)))
              0 (FdNode 1 7 true false) shutdown_error snap_r8 _ _).
    + apply inv_check_sound. vm_compute. reflexivity.
    + vm_compute. reflexivity.
    + reflexivity.
Defined.

(** ** C10: one descriptor reported in two slots *)

Lemma two_on_5_reachable : reachable two_on_5.
Proof.
  eapply reach_step; [apply reach_init|].
  eapply (step_start _ snap_r5_r5). by vm_compute.
Qed.

(** C10, as stated, fails.  Once a pass has left two nodes wrapping
    descriptor 5, a later pass on the same snapshot finds a node for
    either slot: the lookup for the second slot hits the other node, and
    the pass creates no node and adds nothing to the pollset set. *)
Lemma duplicate_slots_reuse_both_nodes :
  reachable two_on_5 ∧
  active snap_r5_r5 0 = true ∧ active snap_r5_r5 1 = true ∧
  sock_at snap_r5_r5 0 = sock_at snap_r5_r5 1 ∧
  on_readable_cb 0 GRPC_ERROR_NONE snap_r5_r5 two_on_5
    = Ok (tt, two_on_5_again,
          [EvNodeLock 0; EvNodeUnlock 0; EvProcessFd 5 (-1); EvUnref 0;
           EvMuLock; EvGetsock;
           EvNodeLock 1; EvNodeUnlock 1;
           EvNodeLock 0; EvRef 0; EvNotifyRead 0; EvNodeUnlock 0;
           EvMuUnlock]) ∧
  filter (λ e, creates e = true)
    [EvNodeLock 0; EvNodeUnlock 0; EvProcessFd 5 (-1); EvUnref 0;
     EvMuLock; EvGetsock;
     EvNodeLock 1; EvNodeUnlock 1;
     EvNodeLock 0; EvRef 0; EvNotifyRead 0; EvNodeUnlock 0;
     EvMuUnlock] = [].
Proof. split_and!; [apply two_on_5_reachable|by vm_compute..]. Qed.

(** C10, amended.  Let slots [i < j] of a snapshot both be of interest
    and report the same descriptor, and let the list hold at most one
    node wrapping it.  Then the lookup for slot [j] misses (a node found
    for slot [i] has already been moved to the new list): the pass
    creates a node for slot [j] and adds it to the pollset set, and the
    list it leaves holds two distinct nodes wrapping that descriptor. *)
Theorem duplicate_slots_get_two_nodes (g : getsock_result) (s : state)
    (i j : nat) (Hinv : inv s)
    (Hij : i < j) (Hj : j < ARES_GETSOCK_MAXNUM)
    (Hi : active g i = true) (Hjact : active g j = true)
    (Hsame : sock_at g i = sock_at g j)
    (Huniq : unique_fd s (sock_at g j)) :
  ∃ s' t p1 p2,
    grpc_ares_notify_on_event_locked g s = Ok (tt, s', t) ∧
    p1 ≠ p2 ∧ p1 ∈ fds s' ∧ p2 ∈ fds s' ∧
    fd_of (nodes s') p1 = Some (sock_at g j) ∧
    fd_of (nodes s') p2 = Some (sock_at g j) ∧
    nodes s !! p2 = None ∧
    EvFdCreate p2 (sock_at g j) j ∈ t ∧ EvPollsetAdd p2 ∈ t.
Proof.
  destruct (notify_on_event_run g s Hinv) as (nl & s1 & t1 & HI & Hrun).
  destruct (li_second _ _ _ _ _ _ HI (seq 0 j) j
              (seq (S j) (ARES_GETSOCK_MAXNUM - S j)))
    as (p1 & p2 & Hne & Hp1 & Hp2 & Hf1 & Hf2 & Hnew & Hc & Ha);
    [|done| |done|].
  - replace ARES_GETSOCK_MAXNUM with (j + S (ARES_GETSOCK_MAXNUM - S j)) at 1
      by lia.
    by rewrite seq_app.
  - exists i. split_and!; [apply elem_of_seq; lia|done|done].
  - exists (pass_state s nl s1), (pass_trace nl s1 t1), p1, p2.
    unfold fd_of.
    rewrite !(pass_lookup_new _ _ _ _ _ _ _ HI) by done.
    split_and!; try done; unfold pass_trace; right; apply elem_of_app; by left.
Qed.

Lemma duplicate_slots_get_two_nodes_witness :
  inv one_read ∧ 0 < 1 ∧ 1 < ARES_GETSOCK_MAXNUM ∧
  active snap_r5_r5 0 = true ∧ active snap_r5_r5 1 = true ∧
  sock_at snap_r5_r5 0 = sock_at snap_r5_r5 1 ∧
  unique_fd one_read (sock_at snap_r5_r5 1) ∧
  ∃ s' t p1 p2,
    grpc_ares_notify_on_event_locked snap_r5_r5 one_read = Ok (tt, s', t) ∧
    p1 ≠ p2 ∧ p1 ∈ fds s' ∧ p2 ∈ fds s' ∧
    fd_of (nodes s') p1 = Some (sock_at snap_r5_r5 1) ∧
    fd_of (nodes s') p2 = Some (sock_at snap_r5_r5 1) ∧
    nodes one_read !! p2 = None ∧
    EvFdCreate p2 (sock_at snap_r5_r5 1) 1 ∈ t ∧ EvPollsetAdd p2 ∈ t.
Proof.
  assert (inv one_read) as Hinv
    by (apply inv_check_sound; vm_compute; reflexivity).
  assert (unique_fd one_read (sock_at snap_r5_r5 1)) as Huniq.
  { intros q1 q2 H1 H2 _ _.
    apply list_elem_of_singleton in H1, H2. congruence. }
  assert (1 < ARES_GETSOCK_MAXNUM) as H16 by (unfold ARES_GETSOCK_MAXNUM; lia).
  split_and!; [exact Hinv|lia|exact H16|reflexivity|reflexivity|reflexivity|exact Huniq|].
  apply (duplicate_slots_get_two_nodes snap_r5_r5 one_read 0 1 Hinv);
    [lia|exact H16|reflexivity|reflexivity|reflexivity|exact Huniq].
Defined.

(** * Further properties of the file *)

Lemma inv_live s : inv s → live (nodes s) (fds s).
Proof. by intros (_ & ? & _). Qed.

(** ** [pop_fd_node] *)

Lemma pop_from_find s fd : ∀ l,
  live (nodes s) l →
  pop_from l fd s =
    Ok (match list_find (wraps (nodes s) fd) l with
        | Some (i, q) => Some (q, delete i l)
        | None => None
        end, s, []).
Proof.
  induction l as [|p rest IH]; intros Hl; [done|].
  destruct (Hl p) as [n Hn]; [left|].
  assert (live (nodes s) rest) as Hrest by (intros q Hq; apply Hl; by right).
  cbn [pop_from list_find].
  rewrite (bind_run _ _ _ _ _ _ (load_run _ _ _ Hn)).
  destruct (decide (wraps (nodes s) fd p)) as [Hw|Hw];
    unfold wraps, fd_of in Hw; rewrite Hn in Hw; simpl in Hw.
  - injection Hw as <-. by rewrite Z.eqb_refl.
  - assert ((grpc_fd n =? fd)%Z = false) as ->
      by (apply Z.eqb_neq; congruence).
    rewrite (bind_run _ _ _ _ _ _ (IH Hrest)).
    by destruct (list_find (wraps (nodes s) fd) rest) as [[i q]|].
Qed.

(** X1.  [pop_fd_node] unlinks and returns the first node of the list
    that wraps [fd], keeping the other nodes in their order; when no node
    wraps [fd] it returns NULL and leaves the list as it is.  It changes
    no node and calls nothing outside the file. *)
Theorem pop_fd_node_first_match (s : state) (fd : Z)
    (Hlive : live (nodes s) (fds s)) :
  pop_fd_node fd s =
    match list_find (wraps (nodes s) fd) (fds s) with
    | Some (i, q) =>
        Ok (Some q, State (nodes s) (delete i (fds s)) (working s), [])
    | None => Ok (None, s, [])
    end.
Proof.
  unfold pop_fd_node.
  rewrite (bind_run get_fds _ s (fds s) s [] eq_refl).
  rewrite (bind_run _ _ _ _ _ _ (pop_from_find s fd _ Hlive)).
  by destruct (list_find (wraps (nodes s) fd) (fds s)) as [[i q]|].
Qed.

Lemma pop_fd_node_first_match_witness :
  live (nodes two_reads) (fds two_reads) ∧
  pop_fd_node 5 two_reads =
    Ok (Some 0, State (nodes two_reads) [1] true, []).
Proof.
  assert (live (nodes two_reads) (fds two_reads)) as Hlive.
  { apply inv_live, inv_check_sound. vm_compute. reflexivity. }
  split; [exact Hlive|].
  exact (pop_fd_node_first_match two_reads 5 Hlive).
Defined.

(** ** [grpc_ares_ev_driver_destroy] *)

Lemma every_other_lookup : ∀ l k, every_other l !! k = l !! (2 * k).
Proof.
  induction l as [l IH] using (induction_ltof1 _ (@length _)); unfold ltof in IH.
  intros k. destruct l as [|p [|q rest]]; [done| |].
  - destruct k as [|k]; [done|]. simpl. by destruct k.
  - destruct k as [|k]; [done|]. cbn [every_other].
    replace (2 * S k) with (S (S (2 * k))) by lia.
    cbn [lookup list_lookup]. apply IH. simpl. lia.
Qed.

(** X2.  [grpc_ares_ev_driver_destroy] changes neither the list nor any
    node.  On a list of even length it calls [grpc_fd_shutdown], between
    taking and giving back the driver's mutex, on the nodes at positions
    0, 2, 4, ... of the list and on no other, then schedules the cleanup;
    on a list of odd length it stops on a NULL dereference.  On an empty
    list it makes no shutdown call. *)
Theorem destroy_shuts_down_even_positions (s : state)
    (Hlive : live (nodes s) (fds s)) :
  (∀ k, every_other (fds s) !! k = fds s !! (2 * k)) ∧
  grpc_ares_ev_driver_destroy s =
    if Nat.even (length (fds s))
    then Ok (tt, s, [EvMuLock] ++ (EvFdShutdown <$> every_other (fds s))
                    ++ [EvMuUnlock; EvSchedCleanup])
    else Fault NullDeref.
Proof. split; [apply every_other_lookup|by apply destroy_run]. Qed.

Lemma four_reads_reachable : reachable four_reads.
Proof.
  eapply reach_step; [apply reach_init|].
  eapply (step_start _ snap_r5_r6_r7_r8). vm_compute. reflexivity.
Qed.

Lemma destroy_shuts_down_even_positions_witness :
  reachable four_reads ∧
  live (nodes four_reads) (fds four_reads) ∧
  live (nodes one_read) (fds one_read) ∧
  every_other (fds four_reads) = [3; 1] ∧
  grpc_ares_ev_driver_destroy four_reads =
    Ok (tt, four_reads,
        [EvMuLock; EvFdShutdown 3; EvFdShutdown 1; EvMuUnlock; EvSchedCleanup]) ∧
  grpc_ares_ev_driver_destroy one_read = Fault NullDeref.
Proof.
  assert (live (nodes four_reads) (fds four_reads)) as Hfour.
  { apply inv_live, inv_check_sound. vm_compute. reflexivity. }
  assert (live (nodes one_read) (fds one_read)) as Hone.
  { apply inv_live, inv_check_sound. vm_compute. reflexivity. }
  split_and!; [exact four_reads_reachable|exact Hfour|exact Hone|reflexivity| |].
  - exact (proj2 (destroy_shuts_down_even_positions four_reads Hfour)).
  - exact (proj2 (destroy_shuts_down_even_positions one_read Hone)).
Defined.

(** ** [fd_node_ref] and [fd_node_unref] *)

(** X3.  Taking a reference on an allocated node and dropping it again
    leaves the memory as it was, without releasing the node, provided the
    count was not zero. *)
Theorem ref_then_unref_restores (s : state) (p : ptr) (n : fd_node)
    (Hn : nodes s !! p = Some n) (Hr : refs n ≠ 0%Z) :
  (fd_node_ref p ≫= fd_node_unref) s = Ok (tt, s, [EvRef p; EvUnref p]).
Proof.
  rewrite (bind_run _ _ _ _ _ _ (fd_node_ref_run s p n Hn)).
  rewrite (fd_node_unref_keep _ p (set_refs n (refs n + 1)));
    cbn [nodes fds working].
  - rewrite insert_insert_eq. unfold set_refs. cbn [refs grpc_fd
      readable_registered writable_registered].
    replace (refs n + 1 - 1)%Z with (refs n) by lia.
    destruct n as [r fd rr wr]. cbn [refs grpc_fd readable_registered
      writable_registered]. by rewrite (insert_id _ _ _ Hn), state_eta.
  - apply lookup_insert_eq.
  - cbn [set_refs refs]. lia.
Qed.

Lemma ref_then_unref_restores_witness :
  nodes two_reads !! 1 = Some (FdNode 2 6 true false) ∧ (2 ≠ 0)%Z ∧
  (fd_node_ref 1 ≫= fd_node_unref) two_reads
    = Ok (tt, two_reads, [EvRef 1; EvUnref 1]).
Proof.
  assert (nodes two_reads !! 1 = Some (FdNode 2 6 true false)) as Hn
    by (vm_compute; reflexivity).
  assert (2 ≠ 0)%Z as Hr by lia.
  split_and!; [exact Hn|exact Hr|].
  exact (ref_then_unref_restores two_reads 1 (FdNode 2 6 true false) Hn Hr).
Defined.

(** ** The calls of a step, one by one *)

Lemma pollset_after_app t1 : ∀ P t2,
  pollset_after P (t1 ++ t2) = pollset_after P t1 ≫= λ P', pollset_after P' t2.
Proof.
  induction t1 as [|e t1 IH]; intros P t2; [done|].
  destruct e; cbn [app pollset_after]; try apply IH;
    destruct (decide _); try done; apply IH.
Qed.

Lemma locks_after_app t1 : ∀ d nh t2,
  locks_after d nh (t1 ++ t2) =
    locks_after d nh t1 ≫= λ r, locks_after r.1 r.2 t2.
Proof.
  induction t1 as [|e t1 IH]; intros d nh t2; [done|].
  destruct e; cbn [app locks_after]; try apply IH.
  - destruct (d || _); [done|apply IH].
  - destruct d; [apply IH|done].
  - destruct nh; [done|apply IH].
  - destruct (bool_decide _); [apply IH|done].
  - destruct (d && _); [apply IH|done].
  - destruct (d && _); [apply IH|done].
Qed.

Lemma pollset_after_quiet t : ∀ P, Forall quiet t → pollset_after P t = Some P.
Proof.
  induction t as [|e t IH]; intros P Hq; [done|].
  apply Forall_cons in Hq as [He Hq]. destruct e; try done; by apply IH.
Qed.

Lemma locks_after_quiet t : ∀ d nh,
  Forall quiet t → locks_after d nh t = Some (d, nh).
Proof.
  induction t as [|e t IH]; intros d nh Hq; [done|].
  apply Forall_cons in Hq as [He Hq]. destruct e; try done; by apply IH.
Qed.

Lemma register_trace_pollset rd wr n p P :
  pollset_after P (register_trace rd wr n p) = Some P.
Proof.
  unfold register_trace.
  by destruct (rd && negb (readable_registered n)),
              (wr && negb (writable_registered n)).
Qed.

Lemma register_trace_locks rd wr n p :
  locks_after true None (register_trace rd wr n p) = Some (true, None).
Proof.
  unfold register_trace.
  destruct (rd && negb (readable_registered n)),
           (wr && negb (writable_registered n));
    cbn; by rewrite ?bool_decide_eq_true_2.
Qed.

Lemma register_trace_nodes rd wr n p :
  Forall (λ e, ∀ q, event_node e = Some q → q = p) (register_trace rd wr n p).
Proof.
  unfold register_trace.
  destruct (rd && negb (readable_registered n)),
           (wr && negb (writable_registered n));
    repeat constructor; by intros q [= ->].
Qed.

Lemma loop_calls_init s : loop_calls s [] s [].
Proof. by split. Qed.

Lemma loop_calls_step g s0 done i nl s1 t nl' s' t' :
  loop_inv g s0 done nl s1 t → loop_calls s0 nl s1 t →
  notify_slot g i nl s1 = Ok (nl', s', t') →
  loop_calls s0 nl' s' (t ++ t').
Proof.
  intros HI [Hnodes Hpoll Hlocks] Hrun. destruct (active g i) eqn:Hact.
  - destruct (notify_slot_run g i nl s1) as (p & n0 & l' & pre & Hs & Hrun');
      [by eapply heap_ok_live, li_heap|done|].
    rewrite Hrun' in Hrun. injection Hrun as <- <- <-.
    destruct (slot_node_facts _ _ _ _ _ _ _ _ _ _ _ _ HI Hs)
      as (_ & _ & _ & _ & _ & Horigin).
    assert (pollset_after (dom (nodes s1)) pre
              = Some (dom (<[p := registered (readable g i) (writable g i) n0]>
                             (nodes s1))) ∧
            locks_after true None pre = Some (true, None) ∧
            Forall (λ e, ∀ q, event_node e = Some q → q = p) pre)
      as (Hpre1 & Hpre2 & Hpre3).
    { destruct Hs as [l1 l2 Hn _ _ _ _ -> | Hn _ _ _ ->].
      - split_and!; [|done|constructor]. simpl.
        rewrite dom_insert_lookup_L; [done|eauto].
      - split_and!; [|done|repeat constructor; by intros q [= ->]].
        cbn [pollset_after]. rewrite decide_False; [|by apply not_elem_of_dom].
        by rewrite dom_insert_L. }
    split; cbn [nodes].
    + apply Forall_app. split.
      * eapply Forall_impl; [exact Hnodes|]. intros e He q Hq. right. by apply He.
      * apply Forall_app. split.
        -- eapply Forall_impl; [exact Hpre3|].
           intros e He q Hq. specialize (He q Hq). subst q. left.
        -- eapply Forall_impl; [apply register_trace_nodes|].
           intros e He q Hq. specialize (He q Hq). subst q. left.
    + rewrite pollset_after_app, Hpoll. cbn [mbind option_bind].
      rewrite pollset_after_app, Hpre1. cbn [mbind option_bind].
      apply register_trace_pollset.
    + rewrite locks_after_app, Hlocks. cbn [mbind option_bind fst snd].
      rewrite locks_after_app, Hpre2. cbn [mbind option_bind fst snd].
      apply register_trace_locks.
  - rewrite (notify_slot_idle g i nl s1 Hact) in Hrun.
    injection Hrun as <- <- <-. by rewrite app_nil_r.
Qed.

Lemma loop_run g s :
  inv s →
  ∃ nl s1 t1,
    for_each (seq 0 ARES_GETSOCK_MAXNUM) (notify_slot g) [] s = Ok (nl, s1, t1) ∧
    loop_inv g s (seq 0 ARES_GETSOCK_MAXNUM) nl s1 t1 ∧
    loop_calls s nl s1 t1.
Proof.
  intros Hinv.
  destruct (for_each_ind (notify_slot g)
              (λ done nl s1 t, loop_inv g s done nl s1 t ∧ loop_calls s nl s1 t))
    with (slots := seq 0 ARES_GETSOCK_MAXNUM) (done := @nil nat)
         (a := @nil nat) (s := s) (t := @nil event)
    as (nl & s1 & t1 & Hloop & HI & HC).
  - intros done i nl s1 t [HI HC].
    destruct (loop_inv_step g s done i nl s1 t HI) as (nl' & s' & t' & Hrun & HI').
    exists nl', s', t'. split_and!; [done|done|by eapply loop_calls_step].
  - split; [by apply loop_inv_init|apply loop_calls_init].
  - by exists nl, s1, t1.
Qed.

Lemma pass_run g s :
  inv s →
  ∃ s' tp, grpc_ares_notify_on_event_locked g s = Ok (tt, s', tp)
           ∧ pass_result g s s' tp.
Proof.
  intros Hinv. destruct (loop_run g s Hinv) as (nl & s1 & t1 & Hloop & HI & HC).
  exists (pass_state s nl s1), (pass_trace nl s1 t1).
  split; [|by exists nl, s1, t1].
  pose proof (li_heap _ _ _ _ _ _ HI) as Hheap.
  assert (NoDup (fds s1)) as Hnd.
  { destruct Hheap as (Hnd & _). by apply NoDup_app in Hnd as (_ & _ & Hnd). }
  unfold grpc_ares_notify_on_event_locked.
  rewrite (bind_run _ _ s tt s [EvGetsock] eq_refl).
  rewrite (bind_run _ _ _ _ _ _ Hloop).
  rewrite (bind_run _ _ s1 (fds s1) s1 [] eq_refl).
  rewrite (bind_run _ _ _ _ _ _ (shutdown_remaining_run (fds s1) s1 Hnd
             (λ p Hp, heap_ok_releasable _ _ p Hheap
                        (proj2 (elem_of_app nl (fds s1) p) (or_intror Hp))))).
  unfold pass_state, pass_trace, set_fds, when, set_working.
  rewrite (li_working _ _ _ _ _ _ HI).
  destruct (bool_decide (nl = [])); unfold mbind, M_bind, ret, mret, M_ret;
    cbn [nodes fds working]; by rewrite ?app_nil_r.
Qed.

Lemma pass_result_inv g s0 s' tp : pass_result g s0 s' tp → inv s'.
Proof. intros (nl & s1 & t1 & HI & _ & -> & _). by eapply pass_inv. Qed.

Lemma drain_trace_ne h p l :
  p ∉ l → drain_trace (release h p) l = drain_trace h l.
Proof.
  induction l as [|q l IH]; intros Hp; [done|].
  apply not_elem_of_cons in Hp as [Hne Hp]. unfold drain_trace in *.
  cbn [mbind list_bind]. rewrite IH by done. by rewrite unref_trace_ne.
Qed.

Lemma unref_trace_quiet_locks h p d nh :
  locks_after d nh (unref_trace h p) = Some (d, nh).
Proof.
  unfold unref_trace. destruct (h !! p) as [n|]; [|done].
  by destruct (refs n =? 1)%Z.
Qed.

Lemma unref_trace_pollset h p n :
  h !! p = Some n →
  pollset_after (dom h) (unref_trace h p) = Some (dom (release h p)).
Proof.
  intros Hn. unfold unref_trace, release. rewrite Hn.
  destruct (refs n =? 1)%Z; cbn [pollset_after].
  - rewrite decide_True by (apply elem_of_dom; eauto). by rewrite dom_delete_L.
  - rewrite dom_insert_lookup_L; [done|eauto].
Qed.

Lemma drain_trace_locks h l d nh :
  locks_after d nh (drain_trace h l) = Some (d, nh).
Proof.
  induction l as [|p l IH]; [done|]. unfold drain_trace in *.
  cbn [mbind list_bind app locks_after].
  by rewrite locks_after_app, unref_trace_quiet_locks.
Qed.

Lemma drain_trace_pollset l : ∀ h,
  NoDup l → live h l →
  pollset_after (dom h) (drain_trace h l) = Some (dom (foldl release h l)).
Proof.
  induction l as [|p l IH]; intros h Hnd Hl; [done|].
  apply NoDup_cons in Hnd as [Hp Hnd]. destruct (Hl p) as [n Hn]; [left|].
  change (drain_trace h (p :: l))
    with (EvFdShutdown p :: unref_trace h p ++ drain_trace h l).
  cbn [pollset_after foldl].
  rewrite pollset_after_app, (unref_trace_pollset h p n Hn).
  cbn [mbind option_bind]. rewrite <- (drain_trace_ne h p l Hp).
  apply IH; [done|]. intros q Hq. rewrite release_ne by (intros ->; done).
  apply Hl. by right.
Qed.

Lemma pass_result_pollset g s0 s' tp :
  pass_result g s0 s' tp →
  pollset_after (dom (nodes s0)) tp = Some (dom (nodes s')).
Proof.
  intros (nl & s1 & t1 & HI & HC & -> & ->). unfold pass_trace, pass_state.
  cbn [pollset_after nodes].
  rewrite pollset_after_app, (lc_pollset _ _ _ _ HC). cbn [mbind option_bind].
  destruct (li_heap _ _ _ _ _ _ HI) as (Hnd & Hlive & _).
  apply drain_trace_pollset.
  - by apply NoDup_app in Hnd as (_ & _ & Hnd).
  - intros q Hq. apply Hlive, elem_of_app. by right.
Qed.

Lemma pass_result_locks g s0 s' tp :
  pass_result g s0 s' tp → locks_after true None tp = Some (true, None).
Proof.
  intros (nl & s1 & t1 & HI & HC & -> & ->). unfold pass_trace.
  cbn [locks_after].
  rewrite locks_after_app, (lc_locks _ _ _ _ HC). cbn [mbind option_bind].
  apply drain_trace_locks.
Qed.

Lemma step_has_shape s t s' : inv s → step s t s' → step_shape s t s'.
Proof.
  intros Hinv [g s1 t1 H | p n e g s1 t1 Hn Hr H | p n e g s1 t1 Hn Hr H | s1 t1 H].
  - destruct (working s) eqn:Hw.
    + rewrite (start_idle g s Hw) in H. injection H as <- <-.
      by apply shape_idle.
    + destruct (pass_run g (started s) Hinv) as (s2 & tp & Hrun & Hres).
      rewrite (start_run g s _ _ Hw Hrun) in H. injection H as <- <-.
      by eapply shape_start.
  - pose proof (clears_readable n Hr) as Hcl.
    destruct (inv_fired s p n _ Hinv Hn Hcl) as [Hrel Hinv1].
    destruct (pass_run g _ Hinv1) as (s2 & tp & Hrun & Hres).
    rewrite (on_readable_cb_run _ e _ _ _ _ _ Hn Hrel Hrun) in H.
    injection H as <- <-.
    eapply (shape_fire _ _ _ p n _ (read_event e n)); try done.
    destruct e; [right|left]; eauto.
  - pose proof (clears_writable n Hr) as Hcl.
    destruct (inv_fired s p n _ Hinv Hn Hcl) as [Hrel Hinv1].
    destruct (pass_run g _ Hinv1) as (s2 & tp & Hrun & Hres).
    rewrite (on_writable_cb_run _ e _ _ _ _ _ Hn Hrel Hrun) in H.
    injection H as <- <-.
    eapply (shape_fire _ _ _ p n _ (write_event e n)); try done.
    destruct e; [right|left]; eauto.
  - rewrite destroy_run in H by by apply inv_live.
    destruct (Nat.even _); [|done]. injection H as <- <-.
    by apply shape_destroy.
Qed.

Lemma run_reachable t s : run t s → reachable s.
Proof.
  induction 1 as [|t s t' s' _ IH Hstep]; [apply reach_init|].
  by eapply reach_step.
Qed.

Lemma shutdowns_quiet (l : list ptr) : Forall quiet (EvFdShutdown <$> l).
Proof. induction l; by constructor. Qed.

Lemma fire_trace_pollset s p n n' e :
  nodes s !! p = Some n → engine_call e →
  pollset_after (dom (nodes s)) (fire_trace s p n' e)
    = Some (dom (nodes (fired_state s p n'))).
Proof.
  intros Hn He. unfold fire_trace, fired_state. cbn [nodes].
  assert (dom (<[p := n']> (nodes s)) = dom (nodes s)) as Hdom
    by (rewrite dom_insert_lookup_L; [done|eauto]).
  rewrite <- (unref_trace_pollset _ p n') by apply lookup_insert_eq.
  rewrite Hdom. by destruct He as [->|(a & b & ->)].
Qed.

Lemma fire_trace_locks s p n' e :
  engine_call e →
  locks_after false None (fire_trace s p n' e) = Some (false, None).
Proof.
  intros He. unfold fire_trace.
  rewrite locks_after_app, <- (unref_trace_quiet_locks (<[p := n']> (nodes s)) p false None).
  destruct He as [->|(a & b & ->)]; cbn; by rewrite bool_decide_eq_true_2.
Qed.

Lemma step_pollset s t s' :
  inv s → step s t s' →
  pollset_after (dom (nodes s)) t = Some (dom (nodes s')).
Proof.
  intros Hinv Hstep.
  destruct (step_has_shape s t s' Hinv Hstep)
    as [Hw -> -> | -> -> | g tp Hw Hres -> | p n n' e g tp Hn Hcl He Hres ->].
  - done.
  - cbn [app pollset_after].
    by rewrite pollset_after_app, (pollset_after_quiet _ _ (shutdowns_quiet _)).
  - cbn [pollset_after]. pose proof (pass_result_pollset _ _ _ _ Hres) as H.
    cbn [started nodes] in H. by rewrite pollset_after_app, H.
  - rewrite pollset_after_app, (fire_trace_pollset s p n n' e Hn He).
    cbn [mbind option_bind pollset_after].
    by rewrite pollset_after_app, (pass_result_pollset _ _ _ _ Hres).
Qed.

Lemma step_locks s t s' :
  inv s → step s t s' → locks_after false None t = Some (false, None).
Proof.
  intros Hinv Hstep.
  destruct (step_has_shape s t s' Hinv Hstep)
    as [Hw -> -> | -> -> | g tp Hw Hres -> | p n n' e g tp Hn Hcl He Hres ->].
  - done.
  - cbn [app locks_after orb bool_decide decide_rel].
    rewrite bool_decide_eq_false_2 by (by intros [? ?]).
    by rewrite locks_after_app, (locks_after_quiet _ _ _ (shutdowns_quiet _)).
  - cbn [locks_after orb]. rewrite bool_decide_eq_false_2 by (by intros [? ?]).
    by rewrite locks_after_app, (pass_result_locks _ _ _ _ Hres).
  - rewrite locks_after_app, (fire_trace_locks s p n' e He).
    cbn [mbind option_bind fst snd locks_after orb].
    rewrite bool_decide_eq_false_2 by (by intros [? ?]).
    by rewrite locks_after_app, (pass_result_locks _ _ _ _ Hres).
Qed.

(** ** The pollset set *)

(** X4.  Along every run of the driver the calls to
    [grpc_pollset_set_add_fd] and [grpc_pollset_set_del_fd] never add a
    handle that is in the pollset set nor remove one that is not, and
    after every operation the set holds the handles of exactly the
    allocated nodes: a handle is added when its node is created and
    removed when the node is released, tracked or not. *)
Theorem pollset_holds_allocated_nodes (t : list event) (s : state)
    (Hrun : run t s) :
  pollset_after ∅ t = Some (dom (nodes s)).
Proof.
  induction Hrun as [|t s t' s' Hrun IH Hstep]; [done|].
  rewrite pollset_after_app, IH. cbn [mbind option_bind].
  apply step_pollset; [|done]. by eapply reachable_inv, run_reachable.
Qed.

(** ** The mutexes *)

(** X5.  Along every run of the driver, every operation gives back all
    the mutexes it takes, never takes a mutex that is held, never takes
    the driver's mutex or a second node's mutex while it holds a node's
    mutex, and calls [grpc_fd_notify_on_read] and
    [grpc_fd_notify_on_write] on a node only while holding both the
    driver's mutex and that node's. *)
Theorem lock_discipline (t : list event) (s : state) (Hrun : run t s) :
  locks_after false None t = Some (false, None).
Proof.
  induction Hrun as [|t s t' s' Hrun IH Hstep]; [done|].
  rewrite locks_after_app, IH. cbn [mbind option_bind fst snd].
  apply (step_locks s t' s'); [|done]. by eapply reachable_inv, run_reachable.
Qed.

Lemma run_read_left_7 :
  run [EvMuLock; EvGetsock; EvFdCreate 0 7 0; EvPollsetAdd 0;
       EvNodeLock 0; EvRef 0; EvNotifyRead 0; EvRef 0; EvNotifyWrite 0;
       EvNodeUnlock 0; EvMuUnlock;
       EvNodeLock 0; EvNodeUnlock 0; EvCancel; EvUnref 0; EvMuLock;
       EvGetsock; EvFdShutdown 0; EvUnref 0; EvMuUnlock]
      read_left_7.
Proof.
  apply (run_step
           [EvMuLock; EvGetsock; EvFdCreate 0 7 0; EvPollsetAdd 0;
            EvNodeLock 0; EvRef 0; EvNotifyRead 0; EvRef 0; EvNotifyWrite 0;
            EvNodeUnlock 0; EvMuUnlock] both_7
           [EvNodeLock 0; EvNodeUnlock 0; EvCancel; EvUnref 0; EvMuLock;
            EvGetsock; EvFdShutdown 0; EvUnref 0; EvMuUnlock] read_left_7).
  - apply (run_step [] initial_state _ both_7 run_init).
    apply (step_start _ snap_rw7). vm_compute. reflexivity.
  - apply (step_writable _ 0 (FdNode 3 7 true true) shutdown_error snap_none).
    + vm_compute. reflexivity.
    + reflexivity.
    + vm_compute. reflexivity.
Defined.

Lemma pollset_holds_allocated_nodes_witness :
  run [EvMuLock; EvGetsock; EvFdCreate 0 7 0; EvPollsetAdd 0;
       EvNodeLock 0; EvRef 0; EvNotifyRead 0; EvRef 0; EvNotifyWrite 0;
       EvNodeUnlock 0; EvMuUnlock;
       EvNodeLock 0; EvNodeUnlock 0; EvCancel; EvUnref 0; EvMuLock;
       EvGetsock; EvFdShutdown 0; EvUnref 0; EvMuUnlock]
      read_left_7 ∧
  pollset_after ∅
      [EvMuLock; EvGetsock; EvFdCreate 0 7 0; EvPollsetAdd 0;
       EvNodeLock 0; EvRef 0; EvNotifyRead 0; EvRef 0; EvNotifyWrite 0;
       EvNodeUnlock 0; EvMuUnlock;
       EvNodeLock 0; EvNodeUnlock 0; EvCancel; EvUnref 0; EvMuLock;
       EvGetsock; EvFdShutdown 0; EvUnref 0; EvMuUnlock]
    = Some (dom (nodes read_left_7)).
Proof.
  split; [exact run_read_left_7|].
  exact (pollset_holds_allocated_nodes _ _ run_read_left_7).
Defined.

Lemma lock_discipline_witness :
  run [EvMuLock; EvGetsock; EvFdCreate 0 7 0; EvPollsetAdd 0;
       EvNodeLock 0; EvRef 0; EvNotifyRead 0; EvRef 0; EvNotifyWrite 0;
       EvNodeUnlock 0; EvMuUnlock;
       EvNodeLock 0; EvNodeUnlock 0; EvCancel; EvUnref 0; EvMuLock;
       EvGetsock; EvFdShutdown 0; EvUnref 0; EvMuUnlock]
      read_left_7 ∧
  locks_after false None
      [EvMuLock; EvGetsock; EvFdCreate 0 7 0; EvPollsetAdd 0;
       EvNodeLock 0; EvRef 0; EvNotifyRead 0; EvRef 0; EvNotifyWrite 0;
       EvNodeUnlock 0; EvMuUnlock;
       EvNodeLock 0; EvNodeUnlock 0; EvCancel; EvUnref 0; EvMuLock;
       EvGetsock; EvFdShutdown 0; EvUnref 0; EvMuUnlock]
    = Some (false, None).
Proof.
  split; [exact run_read_left_7|].
  exact (lock_discipline _ _ run_read_left_7).
Defined.

(** ** Invariants of the reachable states *)

Lemma step_lands s t s' :
  inv s → step s t s' →
  s' = s ∨ ∃ g s0 nl s1 t1,
             loop_inv g s0 (seq 0 ARES_GETSOCK_MAXNUM) nl s1 t1 ∧
             s' = pass_state s0 nl s1.
Proof.
  intros Hinv Hstep.
  destruct (step_has_shape s t s' Hinv Hstep)
    as [Hw -> -> | -> -> | g tp Hw Hres -> | p n n' e g tp Hn Hcl He Hres ->];
    [by left|by left| |];
    destruct Hres as (nl & s1 & t1 & HI & _ & -> & _); right; eauto 10.
Qed.

Lemma interest_length g : length (interest g) ≤ ARES_GETSOCK_MAXNUM.
Proof.
  unfold interest. etrans; [apply length_filter|]. by rewrite length_seq.
Qed.

(** X6.  In every reachable state the driver's list holds at most
    ARES_GETSOCK_MAXNUM (16) nodes: the bound the comment above
    [pop_fd_node] gives for its linear search. *)
Theorem list_never_longer_than_getsock_maxnum (s : state)
    (Hreach : reachable s) :
  length (fds s) ≤ ARES_GETSOCK_MAXNUM.
Proof.
  induction Hreach as [|s t s' Hreach IH Hstep]; [simpl; lia|].
  destruct (step_lands s t s' (reachable_inv s Hreach) Hstep)
    as [->|(g & s0 & nl & s1 & t1 & HI & ->)]; [done|].
  cbn [pass_state fds].
  rewrite (Forall2_length _ _ _ (li_slots _ _ _ _ _ _ HI)), length_reverse.
  apply interest_length.
Qed.

Lemma list_never_longer_than_getsock_maxnum_witness :
  reachable two_reads ∧ length (fds two_reads) ≤ ARES_GETSOCK_MAXNUM.
Proof.
  assert (reachable two_reads) as Hreach.
  { eapply reach_step; [apply reach_init|].
    eapply (step_start _ snap_r5_r6). vm_compute. reflexivity. }
  split; [exact Hreach|].
  exact (list_never_longer_than_getsock_maxnum two_reads Hreach).
Defined.

Lemma Forall2_elem_l {A B} (P : A → B → Prop) l k x :
  Forall2 P l k → x ∈ l → ∃ y, y ∈ k ∧ P x y.
Proof.
  induction 1 as [|x' y l k Hxy HF IH]; intros Hx; [by apply elem_of_nil in Hx|].
  apply elem_of_cons in Hx as [->|Hx].
  - exists y. split; [left|done].
  - destruct (IH Hx) as (y' & Hy' & HP). exists y'. split; [by right|done].
Qed.

Lemma pass_state_pending g s0 nl s1 t1 p n :
  loop_inv g s0 (seq 0 ARES_GETSOCK_MAXNUM) nl s1 t1 →
  nodes (pass_state s0 nl s1) !! p = Some n →
  readable_registered n || writable_registered n = true.
Proof.
  intros HI Hn. destruct (decide (p ∈ nl)) as [Hp|Hp].
  - destruct (Forall2_elem_l _ _ _ p (li_slots _ _ _ _ _ _ HI) Hp)
      as (i & Hi & m & Hm & _ & Hr & Hw & _).
    rewrite (pass_lookup_new _ _ _ _ _ _ _ HI Hp) in Hn.
    assert (m = n) as -> by congruence.
    apply elem_of_reverse, list_elem_of_filter in Hi as [Hact _].
    unfold active in Hact. apply orb_true_iff in Hact as [Ha|Ha].
    + by rewrite (Hr Ha).
    + rewrite (Hw Ha). apply orb_true_r.
  - destruct (pass_inv _ _ _ _ _ HI) as (_ & _ & Hok).
    destruct (Hok p n Hn) as [Hc Hpos].
    rewrite bool_decide_eq_false_2 in Hc by done.
    destruct (readable_registered n), (writable_registered n);
      simpl in *; (done || lia).
Qed.

(** ** Nodes that wait for their callbacks *)

(** X8.  A reconciliation pass leaves alone every allocated node that is
    not in the driver's list (a node dropped earlier whose callbacks have
    not all run): the node is unchanged, it is not put back into the
    list even when the engine reports its descriptor again, no call of
    the pass is about it, and its address is not handed to a new node. *)
Theorem pass_spares_unlinked_nodes (g : getsock_result) (s : state)
    (p : ptr) (n : fd_node) (Hinv : inv s)
    (Hn : nodes s !! p = Some n) (Hp : p ∉ fds s) :
  ∃ s' t, grpc_ares_notify_on_event_locked g s = Ok (tt, s', t) ∧
          nodes s' !! p = Some n ∧ (p ∉ fds s') ∧
          Forall (λ e, event_node e ≠ Some p) t.
Proof.
  destruct (pass_run g s Hinv) as (s' & t & Hrun & nl & s1 & t1 & HI & HC & -> & ->).
  eexists _, _. split; [exact Hrun|].
  destruct (pass_unlinked_untouched _ _ _ _ _ _ _ HI Hn Hp) as [Hn' Hp'].
  split_and!; [done|done|].
  destruct (li_unlinked _ _ _ _ _ _ HI p n Hn Hp) as [_ Hnl].
  unfold pass_trace. apply Forall_cons. split; [done|].
  apply Forall_app. split.
  - eapply Forall_impl; [exact (lc_nodes _ _ _ _ HC)|].
    intros e He Hq. by apply He in Hq.
  - apply Forall_forall. intros e (q & Hq & He)%elem_of_drain_trace Hev.
    assert (q ≠ p) as Hne.
    { intros ->. by apply (li_old _ _ _ _ _ _ HI) in Hq as [? _]. }
    destruct He as [->|He]; [by injection Hev|].
    apply elem_of_unref_trace in He as [->|(m & _ & _ & He)]; [by injection Hev|].
    repeat (apply elem_of_cons in He as [->|He]; [by injection Hev|]).
    by apply elem_of_nil in He.
Qed.

Lemma pass_spares_unlinked_nodes_witness :
  inv read_left_7 ∧ nodes read_left_7 !! 0 = Some (FdNode 1 7 true false) ∧
  (0 ∉ fds read_left_7) ∧
  ∃ s' t, grpc_ares_notify_on_event_locked snap_rw7 read_left_7 = Ok (tt, s', t) ∧
          nodes s' !! 0 = Some (FdNode 1 7 true false) ∧ (0 ∉ fds s') ∧
          Forall (λ e, event_node e ≠ Some 0) t.
Proof.
  assert (inv read_left_7) as Hinv
    by (apply inv_check_sound; vm_compute; reflexivity).
  assert (nodes read_left_7 !! 0 = Some (FdNode 1 7 true false)) as Hn
    by (vm_compute; reflexivity).
  assert (0 ∉ fds read_left_7) as Hp by apply not_elem_of_nil.
  split_and!; [exact Hinv|exact Hn|exact Hp|].
  exact (pass_spares_unlinked_nodes snap_rw7 read_left_7 0 _ Hinv Hn Hp).
Defined.

(** ** Draining the driver *)

Lemma reachable_registration_pending s :
  reachable s → ∀ p n, nodes s !! p = Some n →
    readable_registered n = true ∨ writable_registered n = true.
Proof.
  intros Hreach. induction Hreach as [|s t s' Hreach IH Hstep].
  - intros p n Hn. simpl in Hn. by apply lookup_empty_Some in Hn.
  - destruct (step_lands s t s' (reachable_inv s Hreach) Hstep)
      as [->|(g & s0 & nl & s1 & t1 & HI & ->)]; [done|].
    intros p n Hn. by eapply orb_true_iff, pass_state_pending.
Qed.

Lemma no_interest : interest (Getsock [] 0) = [].
Proof. by vm_compute. Qed.

(** A callback on a driver whose list is empty, while the engine reports
    nothing: only the callback's own node changes. *)
Lemma drain_unlinked s p n n' :
  inv s → fds s = [] → working s = false →
  nodes s !! p = Some n → clears n n' →
  let s' := State (release (<[p := n']> (nodes s)) p) [] false in
  inv s' ∧
  ((readable_registered n = true → n' = set_readable n false →
      ∀ error, ∃ t, on_readable_cb p error (Getsock [] 0) s = Ok (tt, s', t)) ∧
   (writable_registered n = true → n' = set_writable n false →
      ∀ error, ∃ t, on_writable_cb p error (Getsock [] 0) s = Ok (tt, s', t))).
Proof.
  intros Hinv Hf Hw Hn Hcl s'.
  destruct (inv_fired s p n n' Hinv Hn Hcl) as [Hrel Hinv1].
  assert (grpc_ares_notify_on_event_locked (Getsock [] 0) (fired_state s p n')
            = Ok (tt, s', [EvGetsock])) as Hrun.
  { rewrite pass_idle; [done|apply no_interest|done]. }
  assert (inv s') as Hinv'.
  { unfold inv, fired_state in *. cbn [nodes fds] in *. by rewrite Hf in Hinv1. }
  split; [done|]. split; intros _ ->; intros error; eexists.
  - by apply (on_readable_cb_run p error _ s n).
  - by apply (on_writable_cb_run p error _ s n).
Qed.

Lemma drain_step_unlinked s p n n' :
  inv s → fds s = [] → working s = false →
  nodes s !! p = Some n →
  (readable_registered n = true ∧ n' = set_readable n false) ∨
  (writable_registered n = true ∧ n' = set_writable n false) →
  drain_step s (State (release (<[p := n']> (nodes s)) p) [] false)
  ∧ inv (State (release (<[p := n']> (nodes s)) p) [] false).
Proof.
  intros Hinv Hf Hw Hn Hdir.
  assert (clears n n') as Hcl.
  { destruct Hdir as [[Hr ->]|[Hr ->]];
      [by apply clears_readable|by apply clears_writable]. }
  destruct (drain_unlinked s p n n' Hinv Hf Hw Hn Hcl) as (Hinv' & Hrd & Hwr).
  split; [|done]. exists p, n, shutdown_error.
  destruct Hdir as [[Hr ->]|[Hr ->]].
  - destruct (Hrd Hr eq_refl shutdown_error) as [t Ht]. exists t. eauto.
  - destruct (Hwr Hr eq_refl shutdown_error) as [t Ht]. exists t. eauto.
Qed.

Lemma drain_empty_list k : ∀ s,
  size (nodes s) = k → inv s → fds s = [] → working s = false →
  rtc drain_step s initial_state.
Proof.
  induction k as [|k IH]; intros s Hsize Hinv Hf Hw.
  - apply map_size_empty_inv in Hsize. destruct s as [h l w].
    simpl in *. subst. apply rtc_refl.
  - destruct (map_choose (nodes s)) as (p & n & Hn).
    { apply map_size_non_empty_iff. lia. }
    assert (size (delete p (nodes s)) = k) as Hdel.
    { rewrite map_size_delete, Hn. lia. }
    destruct Hinv as (Hnd & Hlive & Hok). destruct (Hok p n Hn) as [Hc Hpos].
    rewrite bool_decide_eq_false_2 in Hc by (rewrite Hf; apply not_elem_of_nil).
    pose proof (conj Hnd (conj Hlive Hok) : inv s) as Hinv.
    destruct (writable_registered n) eqn:Hwr.
    + (* the write fires first, then the read if it is pending *)
      destruct (drain_step_unlinked s p n (set_writable n false) Hinv Hf Hw Hn)
        as [Hstep Hinv1]; [by right|].
      destruct (readable_registered n) eqn:Hrd.
      * assert (release (<[p := set_writable n false]> (nodes s)) p
                  = <[p := FdNode 1 (grpc_fd n) true false]> (nodes s)) as Hrel.
        { unfold release. rewrite lookup_insert_eq. cbn [set_writable refs].
          simpl in Hc. rewrite Hc. cbn. rewrite insert_insert_eq.
          unfold set_refs. cbn. by rewrite Hrd. }
        rewrite Hrel in Hstep, Hinv1.
        set (s1 := State (<[p := FdNode 1 (grpc_fd n) true false]> (nodes s)) [] false)
          in *.
        destruct (drain_step_unlinked s1 p (FdNode 1 (grpc_fd n) true false)
                    (set_readable (FdNode 1 (grpc_fd n) true false) false))
          as [Hstep2 Hinv2]; [done|done|done|apply lookup_insert_eq|by left|].
        assert (release (<[p := set_readable (FdNode 1 (grpc_fd n) true false) false]>
                           (nodes s1)) p = delete p (nodes s)) as Hrel2.
        { unfold release. rewrite lookup_insert_eq. cbn.
          by rewrite !delete_insert_eq. }
        rewrite Hrel2 in Hstep2, Hinv2.
        eapply rtc_l; [exact Hstep|]. eapply rtc_l; [exact Hstep2|].
        by apply IH.
      * assert (release (<[p := set_writable n false]> (nodes s)) p
                  = delete p (nodes s)) as Hrel.
        { unfold release. rewrite lookup_insert_eq. cbn [set_writable refs].
          simpl in Hc. rewrite Hc. cbn. by rewrite delete_insert_eq. }
        rewrite Hrel in Hstep, Hinv1.
        eapply rtc_l; [exact Hstep|]. by apply IH.
    + destruct (readable_registered n) eqn:Hrd; [|simpl in Hc; lia].
      destruct (drain_step_unlinked s p n (set_readable n false) Hinv Hf Hw Hn)
        as [Hstep Hinv1]; [by left|].
      assert (release (<[p := set_readable n false]> (nodes s)) p
                = delete p (nodes s)) as Hrel.
      { unfold release. rewrite lookup_insert_eq. cbn [set_readable refs].
        simpl in Hc. rewrite Hc. cbn. by rewrite delete_insert_eq. }
      rewrite Hrel in Hstep, Hinv1.
      eapply rtc_l; [exact Hstep|]. by apply IH.
Qed.

(** X9.  No node is left behind: from every reachable state, once the
    engine reports no descriptor of interest (as after [ares_cancel]),
    the callbacks whose registrations are pending can run one after the
    other until the driver is back in the state in which it was created,
    with an empty list, not working, and every node released. *)
Theorem driver_drains_to_initial_state (s : state) (Hreach : reachable s) :
  rtc drain_step s initial_state.
Proof.
  pose proof (reachable_inv s Hreach) as Hinv.
  destruct (fds s) as [|p l] eqn:Hf.
  - apply (drain_empty_list (size (nodes s))); try done.
    pose proof (reachable_working_tracks s Hreach) as Hwt.
    destruct (working s) eqn:Hw; [|done]. by destruct (Hwt Hw).
  - assert (p ∈ fds s) as Hp by (rewrite Hf; left).
    destruct (inv_live s Hinv p Hp) as [n Hn].
    destruct (reachable_registration_pending s Hreach p n Hn) as [Hr|Hw].
    + pose proof (clears_readable n Hr) as Hcl.
      destruct (inv_fired s p n _ Hinv Hn Hcl) as [Hrel Hinv1].
      destruct (notify_on_event_run (Getsock [] 0) _ Hinv1)
        as (nl & s1 & t1 & HI & Hrun).
      assert (nl = []) as ->.
      { pose proof (li_slots _ _ _ _ _ _ HI) as Hs.
        fold (interest (Getsock [] 0)) in Hs. rewrite no_interest in Hs.
        by apply Forall2_nil_inv_r in Hs. }
      eapply rtc_l.
      * exists p, n, shutdown_error. eexists. split; [done|]. left.
        split; [done|]. by apply (on_readable_cb_run p _ _ s n).
      * apply (drain_empty_list
                 (size (nodes (pass_state (fired_state s p (set_readable n false)) [] s1))));
          try done.
        by eapply pass_inv.
    + pose proof (clears_writable n Hw) as Hcl.
      destruct (inv_fired s p n _ Hinv Hn Hcl) as [Hrel Hinv1].
      destruct (notify_on_event_run (Getsock [] 0) _ Hinv1)
        as (nl & s1 & t1 & HI & Hrun).
      assert (nl = []) as ->.
      { pose proof (li_slots _ _ _ _ _ _ HI) as Hs.
        fold (interest (Getsock [] 0)) in Hs. rewrite no_interest in Hs.
        by apply Forall2_nil_inv_r in Hs. }
      eapply rtc_l.
      * exists p, n, shutdown_error. eexists. split; [done|]. right.
        split; [done|]. by apply (on_writable_cb_run p _ _ s n).
      * apply (drain_empty_list
                 (size (nodes (pass_state (fired_state s p (set_writable n false)) [] s1))));
          try done.
        by eapply pass_inv.
Qed.

Lemma driver_drains_to_initial_state_witness :
  reachable two_reads ∧ rtc drain_step two_reads initial_state.
Proof.
  assert (reachable two_reads) as Hreach.
  { eapply reach_step; [apply reach_init|].
    eapply (step_start _ snap_r5_r6). vm_compute. reflexivity. }
  split; [exact Hreach|].
  exact (driver_drains_to_initial_state two_reads Hreach).
Defined.

(** ** A pass on a settled list *)

Lemma registered_settled rd wr n p :
  (rd = true → readable_registered n = true) →
  (wr = true → writable_registered n = true) →
  registered rd wr n = n ∧
  register_trace rd wr n p = [EvNodeLock p; EvNodeUnlock p].
Proof.
  intros Hr Hw. destruct n as [r fd rr wrr]. unfold registered, register_trace.
  cbn [refs grpc_fd readable_registered writable_registered] in *.
  destruct rd, wr, rr, wrr; cbn;
    try (specialize (Hr eq_refl)); try (specialize (Hw eq_refl));
    try discriminate; (split; [f_equal; lia|done]).
Qed.

Lemma snoc_unique {A} (l1 l1' l2' : list A) p :
  p ∉ l1 → l1' ++ p :: l2' = l1 ++ [p] → l1' = l1 ∧ l2' = [].
Proof.
  intros Hp Heq. destruct l2' as [|x l2' _] using rev_ind.
  - by apply app_inj_tail in Heq as [-> _].
  - rewrite app_comm_cons, app_assoc in Heq.
    apply app_inj_tail in Heq as [<- _]. exfalso. apply Hp.
    apply elem_of_app. right. left.
Qed.

Lemma settled_loop_step g s0 done i rest nl s1 t :
  settled g s0 → NoDup (sock_at g <$> interest g) →
  done ++ i :: rest = seq 0 ARES_GETSOCK_MAXNUM →
  settled_loop g s0 done nl s1 t →
  ∃ nl' s' t', notify_slot g i nl s1 = Ok (nl', s', t')
               ∧ settled_loop g s0 (done ++ [i]) nl' s' (t ++ t').
Proof.
  intros Hset Hdist Hseq (Hfds & Hnodes & Hwork & Hlen & Ht).
  destruct (active g i) eqn:Hact; last first.
  { rewrite (notify_slot_idle g i nl s1 Hact). eexists _, _, _. split; [done|].
    rewrite app_nil_r. split_and!; try done.
    rewrite filter_app, filter_cons_False, filter_nil, app_nil_r; [done|].
    by rewrite Hact. }
  set (A := filter (λ i, active g i = true) done) in *.
  set (R := filter (λ i, active g i = true) rest).
  assert (interest g = A ++ i :: R) as Hint.
  { unfold interest. rewrite <- Hseq, filter_app. by rewrite filter_cons_True. }
  unfold settled in Hset. rewrite Hint, reverse_app, reverse_cons in Hset.
  apply Forall2_app_inv_r in Hset as (m1 & m2 & Hm1 & Hm2 & Hsplit).
  assert (fds s1 = m1 ∧ nl = m2) as [Hf1 Hnl].
  { apply app_inj_2; [|congruence].
    rewrite Hlen, (Forall2_length _ _ _ Hm2). by rewrite length_reverse. }
  apply Forall2_app_inv_r in Hm1 as (l1 & l2 & Hl1 & Hl2 & ->).
  apply Forall2_cons_inv_r in Hl2 as (p & l2' & Hp & Hnil & ->).
  apply Forall2_nil_inv_r in Hnil as ->.
  (* the nodes before [p] wrap other descriptors *)
  assert (∀ q, q ∈ l1 → fd_of (nodes s0) q ≠ Some (sock_at g i)) as Hother.
  { intros q Hq Hfd.
    destruct (Forall2_elem_l _ _ _ q Hl1 Hq) as (j & Hj & m & Hm & Hmfd & _).
    unfold fd_of in Hfd. rewrite Hm in Hfd. injection Hfd as Hfd.
    rewrite Hint, fmap_app, fmap_cons in Hdist.
    apply NoDup_app in Hdist as (_ & _ & Hdist).
    apply NoDup_cons in Hdist as [Hni _]. apply Hni.
    apply list_elem_of_fmap. exists j. split; [congruence|].
    by apply elem_of_reverse. }
  destruct Hp as (n & Hn & Hnfd & Hr & Hw).
  assert (p ∉ l1) as Hpl1.
  { intros Hin. apply (Hother p Hin). unfold fd_of. rewrite Hn. simpl. by f_equal. }
  assert (live (nodes s1) (fds s1)) as Hlive.
  { intros q Hq. rewrite Hnodes. rewrite Hf1 in Hq.
    apply elem_of_app in Hq as [Hq|Hq].
    - destruct (Forall2_elem_l _ _ _ q Hl1 Hq) as (j & _ & m & Hm & _). eauto.
    - apply list_elem_of_singleton in Hq as ->. eauto. }
  destruct (notify_slot_run g i nl s1 Hlive Hact)
    as (q & n0 & l' & pre & Hs & Hrun).
  destruct Hs as [l1' l2' Hn0 Hn0fd Hdec -> Hfirst -> | _ _ _ Hnone _].
  - assert (q = p) as ->.
    { assert (q ∈ l1 ++ [p]) as Hq.
      { rewrite <- Hf1, Hdec. apply elem_of_app. right. left. }
      apply elem_of_app in Hq as [Hq|Hq]; [|by apply list_elem_of_singleton in Hq].
      exfalso. apply (Hother q Hq). unfold fd_of.
      rewrite <- Hnodes, Hn0. simpl. by f_equal. }
    rewrite Hf1 in Hdec. symmetry in Hdec.
    apply snoc_unique in Hdec as [-> ->]; [|done].
    rewrite Hnodes, Hn in Hn0. injection Hn0 as <-.
    fold (readable g i) (writable g i) in Hrun.
    destruct (registered_settled (readable g i) (writable g i) n p Hr Hw)
      as [Hreg Htr].
    rewrite Hreg, Htr in Hrun.
    rewrite insert_id in Hrun by (by rewrite Hnodes).
    eexists _, _, _. split; [exact Hrun|].
    split_and!; cbn [nodes fds working].
    + rewrite Hsplit, <- Hnl, app_nil_r. by rewrite <- app_assoc.
    + done.
    + done.
    + rewrite filter_app, filter_cons_True, filter_nil by done.
      rewrite length_app. simpl. fold A. lia.
    + rewrite Ht, reverse_cons. unfold node_locks. by rewrite bind_app.
  - exfalso. apply (Hnone p).
    + rewrite Hf1. apply elem_of_app. right. left.
    + unfold fd_of. rewrite Hnodes, Hn. simpl. by f_equal.
Qed.

Lemma settled_for_each g s0 :
  settled g s0 → NoDup (sock_at g <$> interest g) →
  ∀ rest done nl s1 t,
    done ++ rest = seq 0 ARES_GETSOCK_MAXNUM →
    settled_loop g s0 done nl s1 t →
    ∃ nl' s' t', for_each rest (notify_slot g) nl s1 = Ok (nl', s', t')
                 ∧ settled_loop g s0 (seq 0 ARES_GETSOCK_MAXNUM) nl' s' (t ++ t').
Proof.
  intros Hset Hdist. induction rest as [|i rest IH]; intros done nl s1 t Hseq HJ.
  - rewrite app_nil_r in Hseq. subst done. exists nl, s1, [].
    by rewrite app_nil_r.
  - destruct (settled_loop_step g s0 done i rest nl s1 t Hset Hdist Hseq HJ)
      as (nl1 & s2 & t1 & Hrun & HJ1).
    destruct (IH (done ++ [i]) nl1 s2 (t ++ t1)) as (nl2 & s3 & t2 & Hrun2 & HJ2);
      [by rewrite <- app_assoc|done|].
    exists nl2, s3, (t1 ++ t2). cbn [for_each].
    rewrite (bind_run _ _ _ _ _ _ Hrun), Hrun2.
    by rewrite <- app_assoc in HJ2.
Qed.

(** X10.  A pass on a list that is settled on the snapshot (one node per
    slot of interest, each wrapping its slot's descriptor with the
    reported directions registered), the reported descriptors being
    pairwise distinct, changes nothing: it finds every node, creates,
    registers and shuts down nothing, and rebuilds the list in the same
    order; its only calls are [ares_getsock] and, for each node in slot
    order, taking and giving back the node's mutex.  [working] is kept,
    or cleared when the list is empty. *)
Theorem pass_on_settled_list_changes_nothing (g : getsock_result) (s : state)
    (Hset : settled g s) (Hdist : NoDup (sock_at g <$> interest g)) :
  grpc_ares_notify_on_event_locked g s =
    Ok (tt,
        State (nodes s) (fds s)
              (if bool_decide (fds s = []) then false else working s),
        EvGetsock :: node_locks (reverse (fds s))).
Proof.
  destruct (settled_for_each g s Hset Hdist (seq 0 ARES_GETSOCK_MAXNUM) [] [] s [])
    as (nl & s1 & t & Hloop & Hfds & Hnodes & Hwork & Hlen & Ht);
    [done|split_and!; by rewrite ?app_nil_r|].
  assert (fds s1 = [] ∧ nl = fds s) as [Hf1 ->].
  { pose proof (Forall2_length _ _ _ Hset) as HL.
    rewrite length_reverse, Hfds, length_app in HL.
    fold (interest g) in Hlen.
    assert (length (fds s1) = 0) as H0 by lia.
    apply nil_length_inv in H0. rewrite H0 in Hfds. done. }
  unfold grpc_ares_notify_on_event_locked.
  rewrite (bind_run (log EvGetsock) _ s tt s [EvGetsock] eq_refl).
  rewrite (bind_run _ _ _ _ _ _ Hloop).
  rewrite (bind_run get_fds _ s1 (fds s1) s1 [] eq_refl). rewrite Hf1.
  cbn [shutdown_remaining]. unfold set_fds, when, set_working.
  destruct (bool_decide (fds s = [])); unfold mbind, M_bind, ret, mret, M_ret;
    cbn [nodes fds working]; cbn [app] in Ht;
    rewrite ?app_nil_r, Hnodes, ?Hwork, Ht; done.
Qed.

Lemma pass_on_settled_list_changes_nothing_witness :
  settled snap_r5_r6 two_reads ∧
  NoDup (sock_at snap_r5_r6 <$> interest snap_r5_r6) ∧
  grpc_ares_notify_on_event_locked snap_r5_r6 two_reads =
    Ok (tt, two_reads,
        [EvGetsock; EvNodeLock 0; EvNodeUnlock 0; EvNodeLock 1; EvNodeUnlock 1]).
Proof.
  assert (settled snap_r5_r6 two_reads) as Hset.
  { unfold settled.
    change (fds two_reads) with [1; 0].
    change (reverse (interest snap_r5_r6)) with [1; 0].
    repeat constructor.
    - exists (FdNode 2 6 true false). by vm_compute.
    - exists (FdNode 2 5 true false). by vm_compute. }
  assert (NoDup (sock_at snap_r5_r6 <$> interest snap_r5_r6)) as Hdist.
  { change (NoDup [5; 6]%Z). apply (bool_decide_unpack _). by vm_compute. }
  split_and!; [exact Hset|exact Hdist|].
  exact (pass_on_settled_list_changes_nothing snap_r5_r6 two_reads Hset Hdist).
Defined.

(** * The driver under concurrent callbacks *)

(** ** Running the sections *)

Lemma abind_run {A B} (m : MA A) (f : A → MA B) s a s1 t1 :
  m s = Ok (a, s1, t1) →
  (m ≫= f) s = match f a s1 with
               | Fault e => Fault e
               | Ok (b, s2, t2) => Ok (b, s2, t1 ++ t2)
               end.
Proof. intros H. unfold mbind, MA_bind. by rewrite H. Qed.

Lemma call_run {A} (m : M A) s a s' t :
  m s = Ok (a, s', t) → call m s = Ok (a, s', Call <$> t).
Proof. intros H. unfold call. by rewrite H. Qed.

Lemma calls_fmap (t : list event) : calls (Call <$> t) = t.
Proof. induction t as [|e t IH]; [done|]. cbn. f_equal. exact IH. Qed.

Lemma calls_app t1 t2 : calls (t1 ++ t2) = calls t1 ++ calls t2.
Proof. apply omap_app. Qed.

Lemma erase_call {A} (m : M A) s : erase (call m) s = m s.
Proof.
  unfold erase, call. destruct (m s) as [[[a s'] t]|]; [|done].
  by rewrite calls_fmap.
Qed.

Lemma set_flag_fd d n b : grpc_fd (set_flag d n b) = grpc_fd n.
Proof. by destruct d. Qed.

Lemma set_flag_refs d n b : refs (set_flag d n b) = refs n.
Proof. by destruct d. Qed.

Lemma clear_flag_run d p s n :
  nodes s !! p = Some n →
  clear_flag d p s =
    Ok (tt, State (<[p := set_flag d n false]> (nodes s)) (fds s) (working s),
        [Call (EvNodeLock p); FieldWrite (FRegistered d p) false;
         Call (EvNodeUnlock p)]).
Proof.
  intros Hn. unfold clear_flag, write_flag, call, log, mbind, MA_bind. simpl.
  by rewrite Hn.
Qed.

Lemma forward_run d p error s n :
  nodes s !! p = Some n →
  forward d p error s =
    Ok (tt, s, [match d with
                | Readable => read_event error n
                | Writable => write_event error n
                end]).
Proof.
  intros Hn. unfold forward.
  rewrite (bind_run _ _ _ _ _ _ (load_run _ _ _ Hn)).
  by destruct d, error.
Qed.

Lemma reconcile_run g s s' tp :
  grpc_ares_notify_on_event_locked g s = Ok (tt, s', tp) →
  reconcile g s = Ok (tt, s', EvMuLock :: tp ++ [EvMuUnlock]).
Proof.
  intros Hp. unfold reconcile.
  rewrite (bind_run (log EvMuLock) _ s tt s [EvMuLock] eq_refl).
  rewrite (bind_run _ _ _ _ _ _ Hp). by cbn.
Qed.

Lemma calls_cons_call e t : calls (Call e :: t) = e :: calls t.
Proof. done. Qed.

Lemma calls_cons_write f b t : calls (FieldWrite f b :: t) = calls t.
Proof. done. Qed.

Lemma calls_cons_read f t : calls (FieldRead f :: t) = calls t.
Proof. done. Qed.

Ltac calls_norm :=
  repeat first [rewrite calls_cons_call | rewrite calls_cons_write
               | rewrite calls_cons_read | rewrite calls_app
               | rewrite calls_fmap | rewrite fmap_app | rewrite fmap_cons ];
  rewrite ?app_nil_r; cbn [app].

Lemma on_readable_cb_erase p error g s :
  erase (on_readable_cb_acc p error g) s = on_readable_cb p error g s.
Proof.
  unfold erase, on_readable_cb_acc, on_readable_cb, clear_flag, write_flag,
    forward, reconcile, call, load, store, log, mbind, MA_bind, M_bind.
  simpl. destruct (nodes s !! p) as [n|] eqn:Hn; [|done]. simpl.
  rewrite lookup_insert_eq.
  destruct error; simpl;
    (destruct (fd_node_unref p _) as [[[[] s2] t2]|]; simpl; [|done]);
    (destruct (grpc_ares_notify_on_event_locked g s2) as [[[[] s3] t3]|];
       simpl; [|done]);
    calls_norm; done.
Qed.

Lemma on_writable_cb_erase p error g s :
  erase (on_writable_cb_acc p error g) s = on_writable_cb p error g s.
Proof.
  unfold erase, on_writable_cb_acc, on_writable_cb, clear_flag, write_flag,
    forward, reconcile, call, load, store, log, mbind, MA_bind, M_bind.
  simpl. destruct (nodes s !! p) as [n|] eqn:Hn; [|done]. simpl.
  rewrite lookup_insert_eq.
  destruct error; simpl;
    (destruct (fd_node_unref p _) as [[[[] s2] t2]|]; simpl; [|done]);
    (destruct (grpc_ares_notify_on_event_locked g s2) as [[[[] s3] t3]|];
       simpl; [|done]);
    calls_norm; done.
Qed.

Lemma start_erase g s :
  erase (grpc_ares_ev_driver_start_acc g) s = grpc_ares_ev_driver_start g s.
Proof.
  unfold erase, grpc_ares_ev_driver_start_acc, grpc_ares_ev_driver_start,
    read_working, write_working, get_working, set_working, when, call, log,
    mbind, MA_bind, M_bind, ret, mret, MA_ret, M_ret.
  simpl. destruct (working s); simpl; [done|].
  destruct (grpc_ares_notify_on_event_locked g _) as [[[[] s3] t3]|];
    simpl; [|done].
  calls_norm; done.
Qed.
(** ** The references callbacks hold *)

Lemma holding_app l1 l2 p : holding (l1 ++ l2) p = holding l1 p + holding l2 p.
Proof. unfold holding. by rewrite filter_app, length_app. Qed.

Lemma holding_cons cb l p :
  holding (cb :: l) p = (if decide (holds p cb) then 1 else 0) + holding l p.
Proof.
  unfold holding. destruct (decide (holds p cb)).
  - by rewrite filter_cons_True.
  - by rewrite filter_cons_False.
Qed.

Lemma holding_insert l k cb cb' p :
  l !! k = Some cb →
  holding (<[k := cb']> l) p + (if decide (holds p cb) then 1 else 0) =
    holding l p + (if decide (holds p cb') then 1 else 0).
Proof.
  intros Hk. rewrite <- (take_drop_middle l k cb Hk) at 2.
  rewrite insert_take_drop by (by eapply lookup_lt_Some).
  rewrite !holding_app, !holding_cons. lia.
Qed.

Lemma holding_delete l k cb p :
  l !! k = Some cb →
  holding (delete k l) p + (if decide (holds p cb) then 1 else 0) = holding l p.
Proof.
  intros Hk. rewrite <- (take_drop_middle l k cb Hk) at 2.
  rewrite delete_take_drop, !holding_app, !holding_cons. lia.
Qed.

Lemma holding_pos l k cb p : l !! k = Some cb → holds p cb → 0 < holding l p.
Proof.
  intros Hk Hh. rewrite <- (take_drop_middle l k cb Hk).
  rewrite holding_app, holding_cons, decide_True by done. lia.
Qed.

(** ** The reference-count discipline, one section at a time *)

Lemma heap_held_ext K K' L h :
  (∀ p, K p = K' p) → heap_held K L h → heap_held K' L h.
Proof.
  intros HK (Hnd & Hlive & Hok & Hnone). split_and!; [done|done| |].
  - intros p n Hn. rewrite <- HK. by apply Hok.
  - intros p Hp. rewrite <- HK. by apply Hnone.
Qed.

Lemma heap_held_perm K L L' h : L ≡ₚ L' → heap_held K L h → heap_held K L' h.
Proof.
  intros HP (Hnd & Hlive & Hok & Hnone). split_and!; [| | |done].
  - by rewrite <- HP.
  - intros p Hp. apply Hlive. by rewrite HP.
  - intros p n Hn. specialize (Hok p n Hn).
    by rewrite (bool_decide_ext (p ∈ L') (p ∈ L)) by (by rewrite HP).
Qed.

Lemma heap_held_live K L1 L2 h : heap_held K (L1 ++ L2) h → live h L2.
Proof. intros (_ & H & _) p Hp. apply H, elem_of_app. by right. Qed.

Lemma inv_heap_held s : inv s ↔ heap_held (λ _, 0) (fds s) (nodes s).
Proof.
  unfold inv, heap_ok, heap_held, node_ok, node_held. split.
  - intros (Hnd & Hlive & Hok). split_and!; try done.
    intros p n Hn. destruct (Hok p n Hn). split; [lia|done].
  - intros (Hnd & Hlive & Hok & _). split_and!; try done.
    intros p n Hn. destruct (Hok p n Hn). split; [lia|done].
Qed.

Lemma registered_held k rd wr n :
  node_held k true n → node_held k true (registered rd wr n).
Proof.
  destruct n as [r fd rr wrr]. unfold node_held, registered. simpl.
  destruct rd, wr, rr, wrr; simpl; lia.
Qed.

(** One iteration of the [for] loop. *)
Lemma heap_held_slot K s fd i p n0 l' pre nl rd wr :
  slot_node s fd i p n0 l' pre →
  heap_held K (nl ++ fds s) (nodes s) →
  heap_held K ((p :: nl) ++ l') (<[p := registered rd wr n0]> (nodes s)).
Proof.
  intros Hs Hok. destruct Hs as [l1 l2 Hn Hfd Hfds -> Hl1 _ | Hn -> -> Hnone _].
  - rewrite Hfds in Hok.
    apply (heap_held_perm _ _ ((p :: nl) ++ l1 ++ l2)) in Hok; last first.
    { simpl. rewrite !app_assoc. by rewrite <- Permutation_middle. }
    destruct Hok as (Hnd & Hlive & Hok & Hfree). split_and!; [done| | |].
    + intros q Hq. destruct (decide (q = p)) as [->|Hne].
      * rewrite lookup_insert_eq. eauto.
      * rewrite lookup_insert_ne by done. by apply Hlive.
    + intros q n. destruct (decide (q = p)) as [->|Hne].
      * rewrite lookup_insert_eq. intros [= <-].
        specialize (Hok p n0 Hn).
        rewrite bool_decide_eq_true_2 in Hok |- * by (simpl; left).
        by apply registered_held.
      * rewrite lookup_insert_ne by done. apply Hok.
    + intros q. destruct (decide (q = p)) as [->|Hne].
      * by rewrite lookup_insert_eq.
      * rewrite lookup_insert_ne by done. apply Hfree.
  - destruct Hok as (Hnd & Hlive & Hok & Hfree).
    assert (p ∉ nl ++ fds s) as Hp.
    { intros Hp. apply Hlive in Hp. rewrite Hn in Hp. by destruct Hp. }
    split_and!.
    + simpl. by apply NoDup_cons.
    + intros q Hq. destruct (decide (q = p)) as [->|Hne].
      * rewrite lookup_insert_eq. eauto.
      * rewrite lookup_insert_ne by done. apply Hlive.
        simpl in Hq. apply elem_of_cons in Hq as [?|?]; done.
    + intros q n. destruct (decide (q = p)) as [->|Hne].
      * rewrite lookup_insert_eq. intros [= <-].
        rewrite bool_decide_eq_true_2 by (simpl; left).
        apply registered_held. unfold node_held. simpl.
        rewrite (Hfree p Hn). lia.
      * rewrite lookup_insert_ne by done. intros Hq.
        specialize (Hok q n Hq).
        rewrite (bool_decide_ext (q ∈ (p :: nl) ++ fds s) (q ∈ nl ++ fds s)); [done|].
        simpl. rewrite elem_of_cons. split; [intros [?|?]; done | by right].
    + intros q. destruct (decide (q = p)) as [->|Hne].
      * by rewrite lookup_insert_eq.
      * rewrite lookup_insert_ne by done. apply Hfree.
Qed.

(** A linked node can be unref'ed: its last reference is dropped only
    with both flags clear. *)
Lemma heap_held_releasable K L h p :
  heap_held K L h → p ∈ L → ∃ n, h !! p = Some n ∧ releasable n.
Proof.
  intros (_ & Hlive & Hok & _) Hp. destruct (Hlive p Hp) as [n Hn].
  exists n. split; [done|]. specialize (Hok p n Hn).
  rewrite bool_decide_eq_true_2 in Hok by done.
  destruct n as [r fd rr wrr]. unfold node_held, releasable in *. simpl in *.
  destruct rr, wrr; simpl in *; intros ?; (done || lia).
Qed.

(** One iteration of the [while] loop: the list's reference is dropped. *)
Lemma heap_held_release K p L h :
  heap_held K (p :: L) h → heap_held K L (release h p).
Proof.
  intros (Hnd & Hlive & Hok & Hfree). apply NoDup_cons in Hnd as [Hp Hnd].
  split_and!; [done| | |].
  - intros q Hq. rewrite release_ne by (intros ->; done). apply Hlive. by right.
  - intros q n. destruct (decide (q = p)) as [->|Hne].
    + rewrite release_eq. destruct (h !! p) as [n0|] eqn:Hn0; simpl; [|done].
      specialize (Hok p n0 Hn0). rewrite bool_decide_eq_true_2 in Hok by left.
      rewrite bool_decide_eq_false_2 by done.
      destruct (refs n0 =? 1)%Z eqn:E; [done|]. intros [= <-].
      apply Z.eqb_neq in E. destruct n0 as [r fd rr wrr].
      unfold node_held, set_refs in *. simpl in *. lia.
    + rewrite release_ne by done. intros Hq. specialize (Hok q n Hq).
      rewrite (bool_decide_ext (q ∈ L) (q ∈ p :: L)); [done|].
      rewrite elem_of_cons. split; [by right | intros [?|?]; done].
  - intros q. destruct (decide (q = p)) as [->|Hne].
    + rewrite release_eq. destruct (h !! p) as [n0|] eqn:Hn0; simpl.
      * specialize (Hok p n0 Hn0). rewrite bool_decide_eq_true_2 in Hok by left.
        destruct (refs n0 =? 1)%Z eqn:E; [|done]. intros _.
        apply Z.eqb_eq in E. destruct n0 as [r fd rr wrr].
        unfold node_held in Hok. simpl in *.
        destruct rr, wrr; simpl in *; lia.
      * intros _. by apply Hfree.
    + rewrite release_ne by done. apply Hfree.
Qed.

(** A callback begins: the flag of its direction is cleared and the
    reference of the registration becomes the callback's. *)
Lemma heap_held_clear K d p n L h :
  h !! p = Some n → flag d n = true →
  heap_held K L h →
  heap_held (λ q, if decide (q = p) then S (K q) else K q) L
            (<[p := set_flag d n false]> h).
Proof.
  intros Hn Hf (Hnd & Hlive & Hok & Hfree). split_and!; [done| | |].
  - intros q Hq. destruct (decide (q = p)) as [->|Hne].
    + rewrite lookup_insert_eq. eauto.
    + rewrite lookup_insert_ne by done. by apply Hlive.
  - intros q m. destruct (decide (q = p)) as [->|Hne].
    + rewrite lookup_insert_eq. intros [= <-]. specialize (Hok p n Hn).
      destruct n as [r fd rr wrr], d; unfold node_held in *; simpl in *;
        subst; simpl in *; lia.
    + rewrite lookup_insert_ne by done. apply Hok.
  - intros q. destruct (decide (q = p)) as [->|Hne].
    + by rewrite lookup_insert_eq.
    + rewrite lookup_insert_ne by done. apply Hfree.
Qed.

(** A callback drops its reference. *)
Lemma heap_held_unref K p L h :
  0 < K p → heap_held K L h →
  (∃ n, h !! p = Some n ∧ releasable n) ∧
  heap_held (λ q, if decide (q = p) then pred (K q) else K q) L (release h p).
Proof.
  intros HK (Hnd & Hlive & Hok & Hfree).
  destruct (h !! p) as [n|] eqn:Hn; last first.
  { specialize (Hfree p Hn). lia. }
  pose proof (Hok p n Hn) as Hp. split.
  { exists n. split; [done|].
    destruct n as [r fd rr wrr]. unfold node_held, releasable in *. simpl in *.
    destruct (bool_decide (p ∈ L)), rr, wrr; simpl in *; intros ?; (done || lia). }
  split_and!; [done| | |].
  - intros q Hq. destruct (decide (q = p)) as [->|Hne].
    + rewrite release_eq, Hn. simpl.
      rewrite bool_decide_eq_true_2 in Hp by done.
      destruct (refs n =? 1)%Z eqn:E; [|eauto]. apply Z.eqb_eq in E.
      destruct n as [r fd rr wrr]. unfold node_held in Hp. simpl in *.
      destruct rr, wrr; simpl in *; lia.
    + rewrite release_ne by done. by apply Hlive.
  - intros q m. destruct (decide (q = p)) as [->|Hne].
    + rewrite release_eq, Hn. simpl.
      destruct (refs n =? 1)%Z eqn:E; [done|]. intros [= <-].
      apply Z.eqb_neq in E. destruct n as [r fd rr wrr].
      unfold node_held, set_refs in *. simpl in *. lia.
    + rewrite release_ne by done. apply Hok.
  - intros q. destruct (decide (q = p)) as [->|Hne].
    + rewrite release_eq, Hn. simpl.
      destruct (refs n =? 1)%Z eqn:E; [|done]. intros _.
      apply Z.eqb_eq in E. destruct n as [r fd rr wrr].
      unfold node_held in Hp. simpl in *.
      destruct (bool_decide (p ∈ L)), rr, wrr; simpl in *; lia.
    + rewrite release_ne by done. apply Hfree.
Qed.

Lemma fd_of_release h p q :
  is_Some (release h p !! q) → fd_of (release h p) q = fd_of h q.
Proof.
  intros Hq. unfold fd_of. destruct (decide (q = p)) as [->|Hne].
  - rewrite release_eq in Hq |- *. destruct (h !! p) as [n|]; simpl in *; [|done].
    by destruct (refs n =? 1)%Z.
  - by rewrite release_ne.
Qed.
(** ** What a step does *)

Lemma counts_live c : counts_ok c → live (nodes (shared c)) (fds (shared c)).
Proof. intros H. by eapply heap_held_live. Qed.

Lemma exec_effect c a r :
  counts_ok c → exec a c = Some r →
  (∃ c' t, r = Ok (c', t) ∧ effect c a c') ∨
  (a = ADestroy ∧ r = Fault NullDeref ∧
   Nat.even (length (fds (shared c))) = false).
Proof.
  intros Hok Hexec. destruct c as [s h cbs]. destruct a; cbn [exec shared holder callbacks] in Hexec.
  - (* AStart *)
    destruct h as [th|]; [done|]. left.
    unfold after, start_enter, read_working, write_working, call, log,
      mbind, MA_bind, mret, MA_ret in Hexec. simpl in Hexec.
    destruct (working s) eqn:Hw; simpl in Hexec; injection Hexec as <-.
    + eexists _, _. split; [done|].
      replace (Config s None cbs) with (Config s None cbs) by done.
      refine (eff_start_idle _ g _ _); done.
    + eexists _, _. split; [done|]. by apply (eff_start (Config s None cbs)).
  - (* ADestroy *)
    destruct h as [th|]; [done|].
    unfold after, call in Hexec.
    rewrite (destroy_run s (counts_live _ Hok)) in Hexec.
    destruct (Nat.even (length (fds s))) eqn:E; injection Hexec as <-.
    + left. eexists _, _. split; [done|].
      destruct s. by apply (eff_destroy (Config _ None cbs)).
    + by right.
  - (* AFire *)
    left. destruct (nodes s !! p) as [n|] eqn:Hn; [|done].
    destruct (flag d n) eqn:Hf; [|done].
    unfold after in Hexec. rewrite (clear_flag_run d p s n Hn) in Hexec.
    injection Hexec as <-. eexists _, _. split; [done|].
    by apply (eff_fire (Config s h cbs) p d error n).
  - (* AForward *)
    left. destruct (cbs !! k) as [[p d error []]|] eqn:Hk; try done.
    destruct Hok as (_ & _ & _ & Hfree). cbn [callbacks shared] in Hfree.
    destruct (nodes s !! p) as [n|] eqn:Hn; last first.
    { specialize (Hfree p Hn).
      pose proof (holding_pos cbs k _ p Hk) as Hpos.
      unfold holds in Hpos. simpl in Hpos. specialize (Hpos ltac:(done)). lia. }
    unfold after in Hexec.
    rewrite (call_run _ _ _ _ _ (forward_run d p error s n Hn)) in Hexec.
    injection Hexec as <-. eexists _, _. split; [done|].
    destruct s. by apply (eff_forward (Config _ h cbs) k p d error).
  - (* AUnref *)
    left. destruct (cbs !! k) as [[p d error []]|] eqn:Hk; try done.
    pose proof (holding_pos cbs k _ p Hk) as Hpos.
    unfold holds in Hpos. simpl in Hpos. specialize (Hpos ltac:(done)).
    destruct (heap_held_unref _ p _ _ Hpos Hok) as [(n & Hn & Hrel) _].
    cbn [shared] in Hn.
    unfold after in Hexec.
    rewrite (call_run _ _ _ _ _ (fd_node_unref_run s p n Hn Hrel)) in Hexec.
    injection Hexec as <-. eexists _, _. split; [done|].
    by apply (eff_unref (Config s h cbs) k p d error n).
  - (* AEnter *)
    left. destruct h as [th|]; [done|].
    destruct (cbs !! k) as [[p d error []]|] eqn:Hk; try done.
    unfold after, call, callback_enter, log, mbind, M_bind in Hexec.
    simpl in Hexec. injection Hexec as <-. eexists _, _. split; [done|].
    destruct s. by apply (eff_enter (Config _ None cbs) k g p d error).
  - (* ASlot *)
    left. destruct h as [[g [|i todo] nl]|]; try done.
    unfold after in Hexec. destruct (active g i) eqn:Hact.
    + destruct (notify_slot_run g i nl s (counts_live _ Hok) Hact)
        as (p & n0 & l' & pre & Hs & Hrun).
      rewrite (call_run _ _ _ _ _ Hrun) in Hexec. injection Hexec as <-.
      eexists _, _. split; [done|].
      by apply (eff_slot (Config s _ cbs) g i todo nl p n0 l' pre).
    + rewrite (call_run _ _ _ _ _ (notify_slot_idle g i nl s Hact)) in Hexec.
      injection Hexec as <-. eexists _, _. split; [done|].
      by apply (eff_slot_idle (Config s _ cbs) g i todo nl).
  - (* ADrain *)
    left. destruct h as [[g [|i todo] nl]|]; try done.
    destruct (fds s) as [|cur rest] eqn:Hfds; [done|].
    destruct (heap_held_releasable _ _ _ cur Hok) as (n & Hn & Hrel).
    { unfold tracked. cbn [holder shared pt_new_list].
      apply elem_of_app. right. rewrite Hfds. left. }
    cbn [shared] in Hn.
    assert (drain_one cur rest s =
              Ok (tt, State (release (nodes s) cur) rest (working s),
                  EvFdShutdown cur :: unref_trace (nodes s) cur)) as Hrun.
    { unfold drain_one, set_fds, grpc_fd_shutdown.
      unfold mbind at 1, M_bind at 1. unfold mbind at 1, M_bind at 1.
      erewrite (bind_run (load cur)); [|by apply load_run].
      cbn [log app].
      by erewrite (fd_node_unref_run _ cur n). }
    unfold after in Hexec. rewrite (call_run _ _ _ _ _ Hrun) in Hexec.
    injection Hexec as <-. eexists _, _. split; [done|].
    by apply (eff_drain (Config s _ cbs) g nl cur rest n).
  - (* AFinish *)
    left. destruct h as [[g [|i todo] nl]|]; try done.
    destruct (fds s) as [|cur rest] eqn:Hfds; [|done].
    unfold after, pass_finish, write_working, call, set_fds, log,
      mbind, MA_bind, mret, MA_ret in Hexec. simpl in Hexec.
    destruct (bool_decide (nl = [])) eqn:E; simpl in Hexec;
      injection Hexec as <-; (eexists _, _; split; [done|]).
    + pose proof (eff_finish (Config s _ cbs) g nl eq_refl Hfds) as H.
      cbn [shared callbacks] in H. by rewrite E in H.
    + pose proof (eff_finish (Config s _ cbs) g nl eq_refl Hfds) as H.
      cbn [shared callbacks] in H. by rewrite E in H.
Qed.
(** ** Every step keeps the reference-count discipline *)

Lemma counts_initial : counts_ok initial_config.
Proof.
  split_and!.
  - constructor.
  - intros p Hp. by apply elem_of_nil in Hp.
  - intros p n Hn. simpl in Hn. by apply lookup_empty_Some in Hn.
  - done.
Qed.

Lemma effect_counts c a c' : counts_ok c → effect c a c' → counts_ok c'.
Proof.
  intros Hok Heff. unfold counts_ok in *.
  destruct Heff as [g Hh Hw | g Hh Hw | Hh He | p d error n Hn Hf
    | k p d error Hk | k p d error n Hk Hn Hrel | k g p d error Hh Hk
    | g i todo nl Hh Hact | g i todo nl p n0 l' pre Hh Hact Hs
    | g nl cur rest n Hh Hfds Hn Hrel | g nl Hh Hfds];
    unfold tracked in *; cbn [shared holder callbacks nodes fds pt_new_list] in *;
    try rewrite Hh in Hok; rewrite ?Hh; cbn [pt_new_list] in Hok |- *.
  - done.
  - done.
  - done.
  - eapply heap_held_ext; [|exact (heap_held_clear _ d p n _ _ Hn Hf Hok)].
    intros q. cbn beta. rewrite holding_app, holding_cons.
    change (holding [] q) with 0. destruct (decide (q = p)) as [->|Hne].
    + rewrite decide_True by (by unfold holds). lia.
    + rewrite decide_False by (unfold holds; simpl; intros [? _]; done). lia.
  - eapply heap_held_ext; [|done]. intros q.
    pose proof (holding_insert _ _ _ (Callback p d error Forwarded) q Hk) as H.
    destruct (decide (holds q (Callback p d error Cleared))) as [[Hq _]|Hno].
    + rewrite decide_True in H by (split; done). lia.
    + rewrite decide_False in H; [lia|].
      intros [Hq _]. apply Hno. split; done.
  - pose proof (holding_pos _ k _ p Hk) as Hpos.
    unfold holds in Hpos. simpl in Hpos. specialize (Hpos ltac:(done)).
    destruct (heap_held_unref _ p _ _ Hpos Hok) as [_ Hok'].
    eapply heap_held_ext; [|done]. intros q. cbn beta.
    pose proof (holding_insert _ _ _ (Callback p d error Unreffed) q Hk) as H.
    rewrite (decide_False (P := holds q (Callback p d error Unreffed))) in H
      by (intros [_ ?]; done).
    destruct (decide (q = p)) as [->|Hne].
    + rewrite decide_True in H by (split; done). lia.
    + rewrite decide_False in H by (intros [? _]; done). lia.
  - eapply heap_held_ext; [|done]. intros q.
    pose proof (holding_delete _ _ _ q Hk) as H.
    rewrite decide_False in H by (intros [_ ?]; done). lia.
  - done.
  - by eapply heap_held_slot.
  - rewrite Hfds in Hok.
    apply heap_held_release.
    eapply heap_held_perm; [|done]. by rewrite <- Permutation_middle.
  - rewrite Hfds, app_nil_r in Hok. done.
Qed.
(** ** The pass under way *)

Lemma fd_of_insert_same (h : gmap nat fd_node) p n n' q :
  h !! p = Some n → grpc_fd n' = grpc_fd n →
  fd_of (<[p := n']> h) q = fd_of h q.
Proof.
  intros Hn Hfd. unfold fd_of. destruct (decide (q = p)) as [->|Hne].
  - rewrite lookup_insert_eq, Hn. simpl. by f_equal.
  - by rewrite lookup_insert_ne.
Qed.

Lemma pass_ok_initial : pass_ok initial_config.
Proof. intros th Hth. done. Qed.

Lemma pass_ok_fresh s g cbs :
  pass_ok (Config s (Some (InPass g (seq 0 ARES_GETSOCK_MAXNUM) [])) cbs).
Proof.
  intros th [= <-]. exists []. split; [done|]. cbn. constructor.
Qed.

Lemma effect_pass_ok c a c' :
  counts_ok c → pass_ok c → effect c a c' → pass_ok c'.
Proof.
  intros Hok Hpass Heff. pose proof (effect_counts c a c' Hok Heff) as Hok'.
  destruct Heff as [g Hh Hw | g Hh Hw | Hh He | p d error n Hn Hf
    | k p d error Hk | k p d error n Hk Hn Hrel | k g p d error Hh Hk
    | g i todo nl Hh Hact | g i todo nl p n0 l' pre Hh Hact Hs
    | g nl cur rest n Hh Hfds Hn Hrel | g nl Hh Hfds].
  - done.
  - apply pass_ok_fresh.
  - done.
  - intros th Hth. cbn [holder] in Hth.
    destruct (Hpass th Hth) as (done & Hdone & HF). exists done. split; [done|].
    eapply Forall2_impl; [exact HF|]. intros q j Hq. cbn [shared nodes].
    rewrite (fd_of_insert_same _ p n) by (done || apply set_flag_fd). done.
  - intros th Hth. cbn [holder] in Hth. apply (Hpass th Hth).
  - intros th Hth. cbn [holder] in Hth.
    destruct (Hpass th Hth) as (done & Hdone & HF). exists done. split; [done|].
    eapply Forall2_elem_impl; [exact HF|]. intros q j Hq Hfd. cbn [shared nodes].
    rewrite fd_of_release; [done|].
    destruct Hok' as (_ & Hlive & _). apply Hlive.
    unfold tracked. cbn [holder]. rewrite Hth. apply elem_of_app. by left.
  - apply pass_ok_fresh.
  - intros th [= <-]. cbn [pt_todo pt_new_list pt_snapshot shared].
    destruct (Hpass _ Hh) as (done & Hdone & HF).
    cbn [pt_todo pt_new_list pt_snapshot] in *.
    exists (done ++ [i]). split; [by rewrite <- app_assoc|].
    rewrite filter_snoc_active, Hact. done.
  - intros th [= <-]. cbn [pt_todo pt_new_list pt_snapshot shared nodes].
    destruct (Hpass _ Hh) as (done & Hdone & HF).
    cbn [pt_todo pt_new_list pt_snapshot] in *.
    exists (done ++ [i]). split; [by rewrite <- app_assoc|].
    rewrite filter_snoc_active, Hact. cbn [app].
    assert (p ∉ nl) as Hp.
    { destruct Hok' as (Hnd & _). unfold tracked in Hnd.
      cbn [holder pt_new_list shared fds] in Hnd. simpl in Hnd.
      apply NoDup_cons in Hnd as [Hp _]. intros Hin. apply Hp.
      apply elem_of_app. by left. }
    constructor.
    + unfold fd_of. rewrite lookup_insert_eq. simpl.
      destruct Hs as [l1 l2 _ Hfd _ _ _ _ | _ -> _ _ _]; by f_equal.
    + eapply Forall2_elem_impl; [exact HF|]. intros q j Hq Hfd.
      unfold fd_of. rewrite lookup_insert_ne; [done|]. by intros ->.
  - intros th Hth. cbn [holder] in Hth.
    destruct (Hpass th Hth) as (done & Hdone & HF). exists done. split; [done|].
    eapply Forall2_elem_impl; [exact HF|]. intros q j Hq Hfd. cbn [shared nodes].
    rewrite fd_of_release; [done|].
    destruct Hok' as (_ & Hlive & _). apply Hlive.
    unfold tracked. cbn [holder]. rewrite Hth. apply elem_of_app. by left.
  - done.
Qed.

(** ** The reachable configurations *)

Lemma creachable_ok c : creachable c → counts_ok c ∧ pass_ok c.
Proof.
  induction 1 as [|c a c' t _ [Hok Hpass] Hexec].
  - split; [apply counts_initial|apply pass_ok_initial].
  - destruct (exec_effect c a _ Hok Hexec)
      as [(c2 & t2 & [= <- <-] & Heff)|(_ & ? & _)]; [|done].
    split; [by eapply effect_counts|by eapply effect_pass_ok].
Qed.

Lemma exec_all_reachable l : ∀ c c',
  creachable c → exec_all l c = Some c' → creachable c'.
Proof.
  induction l as [|a l IH]; intros c c' Hc Hrun; simpl in Hrun.
  - by injection Hrun as <-.
  - destruct (exec a c) as [[[c1 t]|]|] eqn:E; try done.
    apply (IH c1); [|done]. by eapply creach_step.
Qed.
(** ** C3: the tracked set after a pass, under concurrent callbacks *)




(** ** C4: the reference-count invariant *)




(** ** C6: the two callbacks, section by section *)

Lemma callback_sections_run d p error g s n s' tp :
  nodes s !! p = Some n →
  releasable (set_flag d n false) →
  grpc_ares_notify_on_event_locked g (fired_state s p (set_flag d n false))
    = Ok (tt, s', tp) →
  (clear_flag d p;; call (forward d p error);; call (fd_node_unref p);;
   call (reconcile g)) s =
    Ok (tt, s',
        [Call (EvNodeLock p); FieldWrite (FRegistered d p) false;
         Call (EvNodeUnlock p);
         Call (match d with
               | Readable => read_event error n
               | Writable => write_event error n
               end)]
        ++ (Call <$> unref_trace (<[p := set_flag d n false]> (nodes s)) p)
        ++ Call EvMuLock :: (Call <$> tp) ++ [Call EvMuUnlock]).
Proof.
  intros Hn Hrel Hp.
  rewrite (abind_run _ _ _ _ _ _ (clear_flag_run d p s n Hn)).
  set (s1 := State (<[p := set_flag d n false]> (nodes s)) (fds s) (working s)).
  assert (nodes s1 !! p = Some (set_flag d n false)) as Hn1
    by apply lookup_insert_eq.
  rewrite (abind_run _ _ _ _ _ _
             (call_run _ _ _ _ _ (forward_run d p error s1 _ Hn1))).
  rewrite (abind_run _ _ _ _ _ _
             (call_run _ _ _ _ _ (fd_node_unref_run _ _ _ Hn1 Hrel))).
  unfold fired_state in Hp. cbn [nodes fds working s1].
  rewrite (call_run _ _ _ _ _ (reconcile_run g _ _ _ Hp)).
  rewrite (fmap_cons Call EvMuLock), (fmap_app Call tp).
  assert (∀ m, read_event error (set_flag d m false) = read_event error m
             ∧ write_event error (set_flag d m false) = write_event error m)
    as Hev by (intros m; by destruct d, error).
  destruct (Hev n) as [-> ->]. by cbn.
Qed.

(** C6.  A callback on a node whose registration is pending takes the
    node's mutex, clears its flag while it holds that mutex, and gives the
    mutex back; with no error it calls [ares_process_fd] with the node's
    descriptor in its own direction and ARES_SOCKET_BAD in the other, with
    an error it calls [ares_cancel]; then it calls [gpr_unref] on the node
    exactly once (the count is one less, or the node is released when that
    was the last reference) and, between taking and giving back the
    driver's mutex, runs one reconciliation pass from the state so
    obtained.  The first equation of each half is the callback with its
    write to the flag visible among its calls; the second is the callback
    as embedded from the file, which makes the same calls. *)
Theorem callbacks_forward_or_cancel (s : state) (Hinv : inv s) :
  (∀ p n error g, nodes s !! p = Some n → readable_registered n = true →
     let n' := FdNode (refs n) (grpc_fd n) false (writable_registered n) in
     let e := match error with
              | GRPC_ERROR_NONE => EvProcessFd (grpc_fd n) ARES_SOCKET_BAD
              | GRPC_ERROR_CREATE _ => EvCancel
              end in
     ∃ s' tp,
       on_readable_cb_acc p error g s =
         Ok (tt, s', [Call (EvNodeLock p);
                      FieldWrite (FRegistered Readable p) false;
                      Call (EvNodeUnlock p); Call e]
                     ++ (Call <$> unref_trace (<[p := n']> (nodes s)) p)
                     ++ Call EvMuLock :: Call EvGetsock :: (Call <$> tp)
                     ++ [Call EvMuUnlock]) ∧
       on_readable_cb p error g s =
         Ok (tt, s', [EvNodeLock p; EvNodeUnlock p; e]
                     ++ unref_trace (<[p := n']> (nodes s)) p
                     ++ EvMuLock :: EvGetsock :: tp ++ [EvMuUnlock]) ∧
       count_occ event_eq_dec (unref_trace (<[p := n']> (nodes s)) p) (EvUnref p) = 1 ∧
       nodes (fired_state s p n') !! p =
         (if (refs n =? 1)%Z then None
          else Some (FdNode (refs n - 1) (grpc_fd n) false (writable_registered n))) ∧
       grpc_ares_notify_on_event_locked g (fired_state s p n')
         = Ok (tt, s', EvGetsock :: tp) ∧
       Forall pass_event tp) ∧
  (∀ p n error g, nodes s !! p = Some n → writable_registered n = true →
     let n' := FdNode (refs n) (grpc_fd n) (readable_registered n) false in
     let e := match error with
              | GRPC_ERROR_NONE => EvProcessFd ARES_SOCKET_BAD (grpc_fd n)
              | GRPC_ERROR_CREATE _ => EvCancel
              end in
     ∃ s' tp,
       on_writable_cb_acc p error g s =
         Ok (tt, s', [Call (EvNodeLock p);
                      FieldWrite (FRegistered Writable p) false;
                      Call (EvNodeUnlock p); Call e]
                     ++ (Call <$> unref_trace (<[p := n']> (nodes s)) p)
                     ++ Call EvMuLock :: Call EvGetsock :: (Call <$> tp)
                     ++ [Call EvMuUnlock]) ∧
       on_writable_cb p error g s =
         Ok (tt, s', [EvNodeLock p; EvNodeUnlock p; e]
                     ++ unref_trace (<[p := n']> (nodes s)) p
                     ++ EvMuLock :: EvGetsock :: tp ++ [EvMuUnlock]) ∧
       count_occ event_eq_dec (unref_trace (<[p := n']> (nodes s)) p) (EvUnref p) = 1 ∧
       nodes (fired_state s p n') !! p =
         (if (refs n =? 1)%Z then None
          else Some (FdNode (refs n - 1) (grpc_fd n) (readable_registered n) false)) ∧
       grpc_ares_notify_on_event_locked g (fired_state s p n')
         = Ok (tt, s', EvGetsock :: tp) ∧
       Forall pass_event tp).
Proof.
  split.
  - intros p n error g Hn Hr n' e.
    destruct (inv_fired s p n _ Hinv Hn (clears_readable n Hr)) as [Hrel Hinv1].
    destruct (pass_shape g _ Hinv1) as (s' & tp & Hrun & _ & Htp).
    exists s', tp. split_and!.
    + unfold on_readable_cb_acc.
      rewrite (callback_sections_run Readable p error g s n s' _ Hn Hrel Hrun).
      by destruct error.
    + rewrite (on_readable_cb_run _ error _ _ _ _ _ Hn Hrel Hrun).
      unfold fire_trace. rewrite <- app_assoc. by destruct error.
    + apply (unref_trace_once _ _ n'), lookup_insert_eq.
    + unfold fired_state. cbn [nodes]. by rewrite release_eq, lookup_insert_eq.
    + exact Hrun.
    + exact Htp.
  - intros p n error g Hn Hw n' e.
    destruct (inv_fired s p n _ Hinv Hn (clears_writable n Hw)) as [Hrel Hinv1].
    destruct (pass_shape g _ Hinv1) as (s' & tp & Hrun & _ & Htp).
    exists s', tp. split_and!.
    + unfold on_writable_cb_acc.
      rewrite (callback_sections_run Writable p error g s n s' _ Hn Hrel Hrun).
      by destruct error.
    + rewrite (on_writable_cb_run _ error _ _ _ _ _ Hn Hrel Hrun).
      unfold fire_trace. rewrite <- app_assoc. by destruct error.
    + apply (unref_trace_once _ _ n'), lookup_insert_eq.
    + unfold fired_state. cbn [nodes]. by rewrite release_eq, lookup_insert_eq.
    + exact Hrun.
    + exact Htp.
Qed.

Lemma callbacks_forward_or_cancel_witness :
  inv two_reads ∧
  ∃ s' tp,
    on_readable_cb_acc 1 GRPC_ERROR_NONE snap_w5_r6 two_reads =
      Ok (tt, s', [Call (EvNodeLock 1);
                   FieldWrite (FRegistered Readable 1) false;
                   Call (EvNodeUnlock 1);
                   Call (EvProcessFd 6 ARES_SOCKET_BAD)]
                  ++ (Call <$> unref_trace
                        (<[1 := FdNode 2 6 false false]> (nodes two_reads)) 1)
                  ++ Call EvMuLock :: Call EvGetsock :: (Call <$> tp)
                  ++ [Call EvMuUnlock]) ∧
    on_readable_cb 1 GRPC_ERROR_NONE snap_w5_r6 two_reads =
      Ok (tt, s', [EvNodeLock 1; EvNodeUnlock 1; EvProcessFd 6 ARES_SOCKET_BAD]
                  ++ unref_trace (<[1 := FdNode 2 6 false false]> (nodes two_reads)) 1
                  ++ EvMuLock :: EvGetsock :: tp ++ [EvMuUnlock]) ∧
    count_occ event_eq_dec
      (unref_trace (<[1 := FdNode 2 6 false false]> (nodes two_reads)) 1)
      (EvUnref 1) = 1 ∧
    nodes (fired_state two_reads 1 (FdNode 2 6 false false)) !! 1 =
      Some (FdNode 1 6 false false) ∧
    grpc_ares_notify_on_event_locked snap_w5_r6
      (fired_state two_reads 1 (FdNode 2 6 false false))
      = Ok (tt, s', EvGetsock :: tp) ∧
    Forall pass_event tp.
Proof.
  split.
  - apply inv_check_sound. vm_compute. reflexivity.
  - refine (proj1 (callbacks_forward_or_cancel two_reads _)
              1 (FdNode 2 6 true false) GRPC_ERROR_NONE snap_w5_r6 _ _).
    + apply inv_check_sound. vm_compute. reflexivity.
    + vm_compute. reflexivity.
    + reflexivity.
Defined.
(** ** C7: [grpc_ares_ev_driver_start] twice *)

Lemma start_acc_idle g s :
  working s = true →
  grpc_ares_ev_driver_start_acc g s =
    Ok (tt, s, [Call EvMuLock; FieldRead FWorking; Call EvMuUnlock]).
Proof.
  intros Hw. unfold grpc_ares_ev_driver_start_acc, read_working, call, log,
    mbind, MA_bind, mret, MA_ret. simpl. by rewrite Hw.
Qed.

Lemma start_acc_run g s s' tp :
  working s = false →
  grpc_ares_notify_on_event_locked g (started s) = Ok (tt, s', tp) →
  grpc_ares_ev_driver_start_acc g s =
    Ok (tt, s', [Call EvMuLock; FieldRead FWorking; FieldWrite FWorking true]
                ++ (Call <$> tp) ++ [Call EvMuUnlock]).
Proof.
  intros Hw Hp. unfold grpc_ares_ev_driver_start_acc, read_working,
    write_working, call, log, mbind, MA_bind, mret, MA_ret. simpl.
  rewrite Hw. simpl. unfold started in Hp. by rewrite Hp.
Qed.

(** C7.  [start] takes the driver's mutex, reads [working] and, on a
    driver that is not working, sets [working] and runs exactly one
    reconciliation pass (one [ares_getsock]), all before giving the mutex
    back; on a working driver it reads [working] under the mutex and
    changes nothing.  A second [start] with the same snapshot leaves the
    state as the first left it and registers nothing.  No [start]
    registers a direction on a node whose flag for that direction is
    set. *)
Theorem start_idempotent (g : getsock_result) (s : state) (Hinv : inv s) :
  ∃ s1 t1,
    grpc_ares_ev_driver_start g s = Ok (tt, s1, t1) ∧ inv s1 ∧
    (if working s
     then s1 = s ∧ t1 = [EvMuLock; EvMuUnlock] ∧
          grpc_ares_ev_driver_start_acc g s =
            Ok (tt, s, [Call EvMuLock; FieldRead FWorking; Call EvMuUnlock])
     else ∃ tp, t1 = EvMuLock :: EvGetsock :: tp ++ [EvMuUnlock] ∧
                Forall pass_event tp ∧
                grpc_ares_notify_on_event_locked g (started s)
                  = Ok (tt, s1, EvGetsock :: tp) ∧
                grpc_ares_ev_driver_start_acc g s =
                  Ok (tt, s1, [Call EvMuLock; FieldRead FWorking;
                               FieldWrite FWorking true; Call EvGetsock]
                              ++ (Call <$> tp) ++ [Call EvMuUnlock])) ∧
    (∀ p n, nodes s !! p = Some n →
       (readable_registered n = true → EvNotifyRead p ∉ t1) ∧
       (writable_registered n = true → EvNotifyWrite p ∉ t1)) ∧
    ∃ t2, grpc_ares_ev_driver_start g s1 = Ok (tt, s1, t2) ∧
          (t2 = [EvMuLock; EvMuUnlock] ∨ t2 = [EvMuLock; EvGetsock; EvMuUnlock]).
Proof.
  destruct (working s) eqn:Hw.
  - exists s, [EvMuLock; EvMuUnlock].
    refine (conj _ (conj _ (conj _ (conj _ _))));
      [by apply start_idle|done| | |].
    + split_and!; [done|done|by apply start_acc_idle].
    + intros p n Hn. split; intros _ He;
        repeat (apply elem_of_cons in He as [?|He]; [done|]);
        by apply elem_of_nil in He.
    + exists [EvMuLock; EvMuUnlock]. split; [by apply start_idle|by left].
  - destruct (notify_on_event_run g (started s) Hinv)
      as (nl & s1 & t1 & HI & Hrun).
    exists (pass_state (started s) nl s1),
           (EvMuLock :: pass_trace nl s1 t1 ++ [EvMuUnlock]).
    pose proof (pass_inv _ _ _ _ _ HI) as Hinv1.
    refine (conj _ (conj _ (conj _ (conj _ _))));
      [by apply start_run|done| | |].
    + exists (t1 ++ drain_trace (nodes s1) (fds s1)).
      split_and!; [done|by eapply pass_trace_events|done|].
      by rewrite (start_acc_run g s _ _ Hw Hrun).
    + intros p n Hn.
      destruct (pass_no_double _ _ _ _ _ _ p n HI Hn) as [Hr Hwr].
      split; intros Hf [?|He]%elem_of_cons; try done;
        apply elem_of_app in He as [He|He];
        try (apply list_elem_of_singleton in He; done).
      * by apply Hr.
      * by apply Hwr.
    + destruct nl as [|q nl].
      * exists [EvMuLock; EvGetsock; EvMuUnlock]. split; [|by right].
        assert (interest g = []) as Hint.
        { pose proof (li_slots _ _ _ _ _ _ HI) as Hs.
          apply Forall2_nil_inv_l in Hs. apply (f_equal reverse) in Hs.
          by rewrite reverse_involutive in Hs. }
        apply (start_run g _ _ [EvGetsock]); [done|].
        by rewrite pass_idle.
      * exists [EvMuLock; EvMuUnlock]. split; [|by left].
        by apply start_idle.
Qed.

Lemma start_idempotent_witness :
  inv idle_tracking_8 ∧
  nodes idle_tracking_8 !! 0 = Some (FdNode 2 8 true false) ∧
  ∃ s1 t1,
    grpc_ares_ev_driver_start snap_r8 idle_tracking_8 = Ok (tt, s1, t1) ∧ inv s1 ∧
    (∃ tp, t1 = EvMuLock :: EvGetsock :: tp ++ [EvMuUnlock] ∧
           Forall pass_event tp ∧
           grpc_ares_notify_on_event_locked snap_r8 (started idle_tracking_8)
             = Ok (tt, s1, EvGetsock :: tp) ∧
           grpc_ares_ev_driver_start_acc snap_r8 idle_tracking_8 =
             Ok (tt, s1, [Call EvMuLock; FieldRead FWorking;
                          FieldWrite FWorking true; Call EvGetsock]
                         ++ (Call <$> tp) ++ [Call EvMuUnlock])) ∧
    (∀ p n, nodes idle_tracking_8 !! p = Some n →
       (readable_registered n = true → EvNotifyRead p ∉ t1) ∧
       (writable_registered n = true → EvNotifyWrite p ∉ t1)) ∧
    ∃ t2, grpc_ares_ev_driver_start snap_r8 s1 = Ok (tt, s1, t2) ∧
          (t2 = [EvMuLock; EvMuUnlock] ∨ t2 = [EvMuLock; EvGetsock; EvMuUnlock]).
Proof.
  split_and!.
  - apply inv_check_sound. vm_compute. reflexivity.
  - vm_compute. reflexivity.
  - apply (start_idempotent snap_r8 idle_tracking_8).
    apply inv_check_sound. vm_compute. reflexivity.
Defined.
(** ** Nodes that are waited for *)

Lemma effect_idle_nodes_seen c a c' :
  counts_ok c → idle_nodes_seen c → effect c a c' → idle_nodes_seen c'.
Proof.
  intros Hok Hseen Heff. pose proof (effect_counts c a c' Hok Heff) as Hok'.
  intros p n Hn Hr Hw Hk.
  assert (p ∈ tracked c') as Htr.
  { destruct Hok' as (_ & _ & Hcount & _). destruct (Hcount p n Hn) as [Hc Hpos].
    rewrite Hr, Hw, Hk in Hc. destruct (decide (p ∈ tracked c')); [done|].
    rewrite bool_decide_eq_false_2 in Hc by done. simpl in Hc. lia. }
  destruct Heff as [g Hh Hw0 | g Hh Hw0 | Hh He | q d error m Hm Hf
    | k q d error Hck | k q d error m Hck Hm Hrel | k g q d error Hh Hck
    | g i todo nl Hh Hact | g i todo nl q n0 l' pre Hh Hact Hs
    | g nl cur rest m Hh Hfds Hm Hrel | g nl Hh Hfds];
    unfold tracked in Htr; cbn [shared holder callbacks nodes fds pt_new_list] in *.
  - by apply (Hseen p n).
  - left. split; [done|by eexists].
  - by apply (Hseen p n).
  - destruct (decide (p = q)) as [->|Hne].
    + rewrite holding_app, holding_cons, decide_True in Hk by done. lia.
    + rewrite lookup_insert_ne in Hn by done.
      rewrite holding_app, holding_cons, decide_False in Hk
        by (intros [? _]; done).
      destruct (Hseen p n Hn Hr Hw) as [?|(cb & Hcb & Hat)]; [lia|by left|].
      right. exists cb. split; [|done]. apply elem_of_app. by left.
  - assert (holding (callbacks c) p = 0) as Hk0.
    { pose proof (holding_insert _ _ _ (Callback q d error Forwarded) p Hck) as H.
      destruct (decide (holds p (Callback q d error Cleared))) as [[Hq _]|Hno].
      - rewrite decide_True in H by (split; done). lia.
      - rewrite decide_False in H; [lia|]. intros [Hq _]. apply Hno. by split. }
    destruct (Hseen p n Hn Hr Hw Hk0) as [?|(cb & Hcb & Hat)]; [by left|].
    right. exists cb. split; [|done].
    apply list_elem_of_lookup in Hcb as [j Hj].
    apply list_elem_of_lookup. exists j.
    rewrite list_lookup_insert_ne; [done|]. intros ->.
    rewrite Hck in Hj. injection Hj as <-. done.
  - right. exists (Callback q d error Unreffed). split; [|done].
    apply list_elem_of_lookup. exists k.
    apply list_lookup_insert_eq. by eapply lookup_lt_Some.
  - left. split; [done|by eexists].
  - destruct (Hseen p n Hn Hr Hw Hk) as [[Hp _]|?]; [|by right].
    left. split; [done|by eexists].
  - destruct (decide (p = q)) as [->|Hne].
    + rewrite lookup_insert_eq in Hn. injection Hn as <-.
      unfold registered in Hr, Hw. cbn in Hr, Hw.
      apply orb_false_iff in Hr as [_ Hr]. apply orb_false_iff in Hw as [_ Hw].
      unfold active in Hact. rewrite Hr, Hw in Hact. done.
    + rewrite lookup_insert_ne in Hn by done.
      destruct (Hseen p n Hn Hr Hw Hk) as [[Hp _]|?]; [|by right].
      left. split; [|by eexists].
      destruct Hs as [l1 l2 _ _ Hfds -> _ _ | _ _ -> _ _]; [|done].
      rewrite Hfds in Hp. apply elem_of_app in Hp as [Hp|Hp].
      * apply elem_of_app. by left.
      * apply elem_of_cons in Hp as [?|Hp]; [done|]. apply elem_of_app. by right.
  - rewrite Hh in Htr. cbn [pt_new_list] in Htr.
    assert (p ≠ cur) as Hne.
    { intros ->. destruct Hok as (Hnd & _). unfold tracked in Hnd.
      rewrite Hh, Hfds in Hnd. cbn [pt_new_list] in Hnd.
      apply NoDup_app in Hnd as (_ & Hdisj & Hnd2).
      apply NoDup_cons in Hnd2 as [Hcur _].
      apply elem_of_app in Htr as [Hin|Hin]; [|done].
      apply (Hdisj cur Hin). left. }
    rewrite release_ne in Hn by done.
    destruct (Hseen p n Hn Hr Hw Hk) as [[Hp Hs]|?]; [|by right].
    left. split; [|done]. rewrite Hfds in Hp.
    apply elem_of_cons in Hp as [?|?]; done.
  - destruct (Hseen p n Hn Hr Hw Hk) as [[Hp _]|?]; [|by right].
    rewrite Hfds in Hp. by apply elem_of_nil in Hp.
Qed.

Lemma creachable_idle_nodes_seen c : creachable c → idle_nodes_seen c.
Proof.
  induction 1 as [|c a c' t Hreach IH Hexec].
  - intros p n Hn. simpl in Hn. by apply lookup_empty_Some in Hn.
  - destruct (creachable_ok c Hreach) as [Hok _].
    destruct (exec_effect c a _ Hok Hexec)
      as [(c2 & t2 & [= <- <-] & Heff)|(_ & ? & _)]; [|done].
    by eapply effect_idle_nodes_seen.
Qed.

(** X7.  In every configuration the driver reaches under concurrent
    callbacks, no allocated node is forgotten: a registration is pending
    on it, or a callback that runs on it has not yet called
    [fd_node_unref], or the node is in a list and a pass will still deal
    with it (the pass under way has it in the old list, or a callback
    waits for the driver's mutex to run a pass).  A node that is in no
    list has a pending registration or a callback that holds a
    reference. *)
Theorem every_node_awaits_a_callback (c : config) (Hreach : creachable c) :
  ∀ p n, nodes (shared c) !! p = Some n →
    awaited c p n ∧
    (p ∉ tracked c →
       readable_registered n = true ∨ writable_registered n = true ∨
       0 < holding (callbacks c) p).
Proof.
  intros p n Hn. destruct (creachable_ok c Hreach) as [Hok _].
  pose proof (creachable_idle_nodes_seen c Hreach p n Hn) as Hseen.
  destruct Hok as (_ & _ & Hcount & _). destruct (Hcount p n Hn) as [Hc Hpos].
  split.
  - unfold awaited.
    destruct (readable_registered n) eqn:Hr; [by left|].
    destruct (writable_registered n) eqn:Hw; [by right; left|].
    destruct (holding (callbacks c) p) as [|k] eqn:Hk; [|right; right; left; lia].
    assert (p ∈ tracked c) as Htr.
    { destruct (decide (p ∈ tracked c)); [done|].
      rewrite bool_decide_eq_false_2 in Hc by done. simpl in Hc. lia. }
    destruct (Hseen eq_refl eq_refl eq_refl) as [?|?]; [by do 3 right; left|].
    by do 4 right.
  - intros Hout. rewrite bool_decide_eq_false_2 in Hc by done.
    destruct (readable_registered n); [by left|].
    destruct (writable_registered n); [by right; left|].
    right; right. simpl in Hc. lia.
Qed.

Lemma every_node_awaits_a_callback_witness :
  creachable waiting_for_mutex ∧
  awaited waiting_for_mutex 0 (FdNode 1 5 false false) ∧
  (0 ∉ tracked waiting_for_mutex →
     false = true ∨ false = true ∨ 0 < holding (callbacks waiting_for_mutex) 0).
Proof.
  assert (creachable waiting_for_mutex) as Hreach.
  { apply (exec_all_reachable to_waiting initial_config); [apply creach_init|].
    vm_compute. reflexivity. }
  split; [exact Hreach|].
  apply (every_node_awaits_a_callback waiting_for_mutex Hreach 0
           (FdNode 1 5 false false)).
  vm_compute. reflexivity.
Defined.

(** ** The sequential runs are runs of the concurrent driver *)

Lemma bind_ok {A B} (m : M A) (f : A → M B) s b s2 t :
  (m ≫= f) s = Ok (b, s2, t) →
  ∃ a s1 t1 t2, m s = Ok (a, s1, t1) ∧ f a s1 = Ok (b, s2, t2) ∧ t = t1 ++ t2.
Proof.
  unfold mbind, M_bind. destruct (m s) as [[[a s1] t1]|] eqn:Hm; [|done].
  destruct (f a s1) as [[[b' s2'] t2]|] eqn:Hf; [|done].
  intros [= <- <- <-]. by exists a, s1, t1, t2.
Qed.

Lemma exec_all_app l1 : ∀ l2 c c1 c2,
  exec_all l1 c = Some c1 → exec_all l2 c1 = Some c2 →
  exec_all (l1 ++ l2) c = Some c2.
Proof.
  induction l1 as [|a l1 IH]; intros l2 c c1 c2 H1 H2; simpl in *.
  - by injection H1 as ->.
  - destruct (exec a c) as [[[c' t]|]|]; try done. by eapply IH.
Qed.

Lemma fd_node_unref_fds p s s' t :
  fd_node_unref p s = Ok (tt, s', t) → fds s' = fds s.
Proof.
  unfold fd_node_unref, load, store, log, when, GPR_ASSERT, gpr_free, fail,
    ret, mbind, M_bind, mret, M_ret. simpl.
  destruct (nodes s !! p) as [n|]; [|done]. simpl.
  destruct (refs n =? 1)%Z; simpl; [|by intros [= <- _]].
  rewrite lookup_insert_eq. simpl.
  destruct (readable_registered n), (writable_registered n); simpl; try done.
  by intros [= <- _].
Qed.

Lemma loop_steps g cbs slots : ∀ nl s nl' s' t,
  for_each slots (notify_slot g) nl s = Ok (nl', s', t) →
  exec_all (replicate (length slots) ASlot)
           (Config s (Some (InPass g slots nl)) cbs)
    = Some (Config s' (Some (InPass g [] nl')) cbs).
Proof.
  induction slots as [|i slots IH]; intros nl s nl' s' t Hrun.
  - by injection Hrun as <- <- _.
  - cbn [for_each] in Hrun.
    apply bind_ok in Hrun as (nl1 & s1 & t1 & t2 & Hslot & Hrest & _).
    cbn [length replicate exec_all exec holder shared callbacks].
    unfold after. rewrite (call_run _ _ _ _ _ Hslot). by apply (IH _ _ _ _ t2).
Qed.

Lemma drain_steps g nl cbs l : ∀ s s' t,
  fds s = l → shutdown_remaining l s = Ok (tt, s', t) →
  exec_all (replicate (length l) ADrain)
           (Config s (Some (InPass g [] nl)) cbs)
    = Some (Config s' (Some (InPass g [] nl)) cbs) ∧ fds s' = [].
Proof.
  induction l as [|cur rest IH]; intros s s' t Hfds Hrun.
  - injection Hrun as <- _. done.
  - cbn [shutdown_remaining] in Hrun.
    apply bind_ok in Hrun as ([] & s0 & t0 & t0' & Hset & Hrun & _).
    apply bind_ok in Hrun as ([] & s1 & t1 & t1' & Hshut & Hrun & _).
    apply bind_ok in Hrun as ([] & s2 & t2 & t2' & Hunref & Hrun & _).
    assert (drain_one cur rest s = Ok (tt, s2, t0 ++ t1 ++ t2)) as Hone.
    { unfold drain_one. rewrite (bind_run _ _ _ _ _ _ Hset).
      rewrite (bind_run _ _ _ _ _ _ Hshut). by rewrite Hunref. }
    assert (fds s2 = rest) as Hfds2.
    { rewrite (fd_node_unref_fds _ _ _ _ Hunref).
      unfold grpc_fd_shutdown, load, log, mbind, M_bind in Hshut.
      destruct (nodes s0 !! cur); [|done]. injection Hshut as <- _.
      by injection Hset as <- _. }
    cbn [length replicate exec_all exec holder shared callbacks].
    rewrite Hfds. unfold after. rewrite (call_run _ _ _ _ _ Hone).
    by apply (IH _ _ t2').
Qed.

(** The steps of a pass, taken without another thread in between, make
    the pass of the file. *)
Lemma pass_steps g s s' t cbs :
  grpc_ares_notify_on_event_locked g s = Ok (tt, s', t) →
  ∃ l, exec_all l (Config s (Some (InPass g (seq 0 ARES_GETSOCK_MAXNUM) [])) cbs)
         = Some (Config s' None cbs).
Proof.
  intros Hrun. unfold grpc_ares_notify_on_event_locked in Hrun.
  apply bind_ok in Hrun as ([] & s0 & t0 & t0' & Hlog & Hrun & _).
  injection Hlog as <- _.
  apply bind_ok in Hrun as (nl & s1 & t1 & t1' & Hloop & Hrun & _).
  apply bind_ok in Hrun as (l & s1' & t2 & t2' & Hget & Hrun & _).
  injection Hget as <- <- _.
  apply bind_ok in Hrun as ([] & s2 & t3 & t3' & Hdrain & Hrun & _).
  destruct (drain_steps g nl cbs (fds s1) s1 s2 t3 eq_refl Hdrain)
    as [Hsteps Hfds2].
  exists (replicate (length (seq 0 ARES_GETSOCK_MAXNUM)) ASlot
          ++ replicate (length (fds s1)) ADrain ++ [AFinish]).
  eapply exec_all_app; [by eapply loop_steps|].
  eapply exec_all_app; [exact Hsteps|].
  cbn [exec_all exec holder shared callbacks]. rewrite Hfds2.
  unfold set_fds, when, set_working, mbind, M_bind, ret, mret, M_ret in Hrun.
  unfold after, pass_finish, write_working, call, set_fds, log,
    mbind, MA_bind, mret, MA_ret. simpl in *.
  destruct (bool_decide (nl = [])); simpl in *; by injection Hrun as <- _.
Qed.

Lemma insert_last {A} (l : list A) x y :
  <[length l := y]> (l ++ [x]) = l ++ [y].
Proof.
  rewrite insert_app_r_alt by done. by rewrite Nat.sub_diag.
Qed.

Lemma callback_steps d p error g s n s' ta cbs :
  nodes s !! p = Some n → flag d n = true →
  (clear_flag d p;; call (forward d p error);; call (fd_node_unref p);;
   call (reconcile g)) s = Ok (tt, s', ta) →
  ∃ l, exec_all l (Config s None cbs) = Some (Config s' None cbs).
Proof.
  intros Hn Hf H.
  rewrite (abind_run _ _ _ _ _ _ (clear_flag_run d p s n Hn)) in H.
  set (s1 := State (<[p := set_flag d n false]> (nodes s)) (fds s) (working s))
    in *.
  assert (nodes s1 !! p = Some (set_flag d n false)) as Hn1
    by apply lookup_insert_eq.
  pose proof (call_run _ _ _ _ _ (forward_run d p error s1 _ Hn1)) as Hfw.
  rewrite (abind_run _ _ _ _ _ _ Hfw) in H.
  destruct (fd_node_unref p s1) as [[[[] s2] tu]|] eqn:Hu; last first.
  { unfold mbind, MA_bind, call in H. by rewrite Hu in H. }
  pose proof (call_run _ _ _ _ _ Hu) as Hu'.
  rewrite (abind_run _ _ _ _ _ _ Hu') in H.
  destruct (grpc_ares_notify_on_event_locked g s2) as [[[[] s3] tp]|] eqn:Hp;
    last first.
  { unfold call, reconcile, log, mbind, M_bind in H. by rewrite Hp in H. }
  rewrite (call_run _ _ _ _ _ (reconcile_run g _ _ _ Hp)) in H.
  injection H as <- _.
  destruct (pass_steps g s2 s3 tp cbs Hp) as [l Hl].
  exists ([AFire p d error; AForward (length cbs); AUnref (length cbs);
           AEnter (length cbs) g] ++ l).
  eapply exec_all_app; [|exact Hl].
  cbn [exec_all exec holder shared callbacks]. rewrite Hn, Hf.
  unfold after at 1. rewrite (clear_flag_run d p s n Hn). fold s1.
  cbn [exec holder shared callbacks].
  rewrite (list_lookup_middle cbs [] _ _ eq_refl).
  unfold after at 1. rewrite Hfw.
  cbn [exec holder shared callbacks].
  rewrite insert_last.
  rewrite (list_lookup_middle cbs [] _ _ eq_refl).
  unfold after at 1. rewrite Hu'.
  cbn [exec holder shared callbacks].
  rewrite insert_last.
  rewrite (list_lookup_middle cbs [] _ _ eq_refl).
  unfold after, call, callback_enter, log, mbind, M_bind. simpl.
  by rewrite (delete_middle cbs [] _), app_nil_r.
Qed.

Lemma step_exec s t s' cbs :
  step s t s' →
  ∃ l, exec_all l (Config s None cbs) = Some (Config s' None cbs).
Proof.
  intros [g s1 t1 H | p n e g s1 t1 Hn Hr H | p n e g s1 t1 Hn Hr H | s1 t1 H].
  - destruct (working s) eqn:Hw.
    + rewrite (start_idle g s Hw) in H. injection H as <- _.
      exists [AStart g]. cbn [exec_all exec holder shared callbacks].
      unfold after, start_enter, read_working, call, log, mbind, MA_bind,
        mret, MA_ret. simpl. by rewrite Hw.
    + assert (∃ tp, grpc_ares_notify_on_event_locked g (started s)
                      = Ok (tt, s1, tp)) as [tp Hp].
      { unfold grpc_ares_ev_driver_start, get_working, set_working, log, when,
          mbind, M_bind in H. rewrite Hw in H. simpl in H. unfold started.
        destruct (grpc_ares_notify_on_event_locked g _) as [[[[] s2] t2]|];
          [|done]. injection H as <- _. by eexists. }
      destruct (pass_steps g _ _ _ cbs Hp) as [l Hl].
      exists (AStart g :: l). cbn [exec_all exec holder shared callbacks].
      unfold after, start_enter, read_working, write_working, call, log,
        mbind, MA_bind, mret, MA_ret. simpl. rewrite Hw. simpl. exact Hl.
  - rewrite <- on_readable_cb_erase in H. unfold erase in H.
    destruct (on_readable_cb_acc p e g s) as [[[[] s2] t2]|] eqn:Hacc; [|done].
    injection H as -> _.
    by apply (callback_steps Readable p e g s n s1 t2 cbs Hn Hr).
  - rewrite <- on_writable_cb_erase in H. unfold erase in H.
    destruct (on_writable_cb_acc p e g s) as [[[[] s2] t2]|] eqn:Hacc; [|done].
    injection H as -> _.
    by apply (callback_steps Writable p e g s n s1 t2 cbs Hn Hr).
  - exists [ADestroy]. cbn [exec_all exec holder shared callbacks].
    unfold after, call. by rewrite H.
Qed.

(** Every state the driver reaches when its callbacks run one at a time
    is the memory of a configuration it reaches when they interleave,
    with the driver's mutex free and no callback under way. *)
Lemma reachable_creachable s : reachable s → creachable (Config s None []).
Proof.
  induction 1 as [|s t s' _ IH Hstep]; [apply creach_init|].
  destruct (step_exec s t s' [] Hstep) as [l Hl].
  by apply (exec_all_reachable l _ _ IH).
Qed.
